(** * A logical Sudoku solver: candidate propagation

    Shallow embedding of [sudoku_final.py] and [sudoku_old.py].

    The Python programs keep their state in module-level lists:
    the puzzle [m_grid[x][y]] (called [main_grid] in the older file), the
    candidate sets [c_grid[x][y]] ([candidates_grid]), and the sets of
    values already placed in each column, row and sub-grid.  Here the state
    is a record threaded through every function.  Python sets are finite
    sets of naturals ([gset nat]); the lists are lists, read and updated by
    index.

    No two cells ever share one set object (every cell is created with its
    own [set()], and the only assignments to a cell store a freshly
    computed set), so the in-place [discard], [clear], [pop] and [add] of
    the source are updates of one cell.

    Every index the programs use comes from [range(grid_l)] or from the
    bounds of a sub-grid, and the grids are allocated [grid_l] by [grid_l]
    when the module is loaded, so no index is ever out of range; an
    out-of-range index would raise [IndexError] in Python.  The accessors
    below are total (a read out of range gives a default, a write out of
    range changes nothing), and the results that depend on a cell being
    there carry the bounds as hypotheses.

    Python leaves the iteration order of a [set] unspecified.  Wherever
    the source iterates over a set, the embedding takes the enumeration as
    a parameter ([iter_nat] for sets of values, [iter_sets] for the set of
    disjoint subsets). *)

From Stdlib Require Import Ascii String.
From stdpp Require Import gmap sets list strings pretty.

Set Warnings "-clear-no-such-hyp".

Open Scope nat_scope.
Open Scope list_scope.

(** ** Puzzle dimensions (module-level constants of the source) *)

Definition grid_l : nat := 9.
Definition sub_l : nat := 3.
Definition sub_h : nat := 3.

(** [full_set = {y for y in range(1, grid_l + 1)}] *)
Definition full_set : gset nat := list_to_set (seq 1 grid_l).

(** ** Python loops and lists *)

(** [range(a, b)] *)
Definition range (a b : nat) : list nat := seq a (b - a).

(** [for i in l: body], on a state [S]. *)
Definition for_each {I S : Type} (l : list I) (body : I → S → S) (s : S) : S :=
  foldl (λ s i, body i s) s l.

(** [g[x][y]], with a default out of range. *)
Definition gget {A : Type} (d : A) (g : list (list A)) (x y : nat) : A :=
  default d (g !! x ≫= λ col, col !! y).

(** [g[x][y] = f(g[x][y])]: an assignment to, or an in-place mutation of,
    the entry at [(x, y)]. *)
Definition gupd {A : Type} (f : A → A) (x y : nat) (g : list (list A))
  : list (list A) :=
  alter (alter f y) x g.

(** [l[i]] on a list of sets. *)
Definition sget (l : list (gset nat)) (i : nat) : gset nat := default ∅ (l !! i).

(** [itertools.combinations(l, n)]: the sub-sequences of [l] of length [n],
    in the lexicographic order of their positions. *)
Fixpoint combinations {A : Type} (n : nat) (l : list A) : list (list A) :=
  match n, l with
  | 0, _ => [[]]
  | S _, [] => []
  | S n', a :: l' => ((a ::.) <$> combinations n' l') ++ combinations n l'
  end.

(** ** The state *)

Record board : Type := Board {
  m_grid : list (list nat);
  c_grid : list (list (gset nat));
  col_set : list (gset nat);
  row_set : list (gset nat);
  s_grid_set : list (list (gset nat))
}.

(** The state when the module has been loaded:
    [m_grid = [[] for x in range(grid_l)]], every candidate set and every
    placed-value set empty. *)
Definition board0 : board :=
  {| m_grid := replicate grid_l [];
     c_grid := replicate grid_l (replicate grid_l ∅);
     col_set := replicate grid_l ∅;
     row_set := replicate grid_l ∅;
     s_grid_set := replicate sub_h (replicate sub_l ∅) |}.

(** [c_grid[x][y]] and [m_grid[x][y]] *)
Definition cand (b : board) (x y : nat) : gset nat := gget ∅ (c_grid b) x y.
Definition mval (b : board) (x y : nat) : nat := gget 0 (m_grid b) x y.

(** [m_grid[x][y] = v] *)
Definition set_m (x y v : nat) (b : board) : board :=
  {| m_grid := gupd (λ _, v) x y (m_grid b);
     c_grid := c_grid b;
     col_set := col_set b;
     row_set := row_set b;
     s_grid_set := s_grid_set b |}.

(** An update of the candidate set of one cell: [c_grid[x][y].discard(v)],
    [c_grid[x][y].clear()], [c_grid[x][y] = ...]. *)
Definition upd_c (f : gset nat → gset nat) (x y : nat) (b : board) : board :=
  {| m_grid := m_grid b;
     c_grid := gupd f x y (c_grid b);
     col_set := col_set b;
     row_set := row_set b;
     s_grid_set := s_grid_set b |}.

Definition discard (v : nat) (s : gset nat) : gset nat := s ∖ {[v]}.
Definition clear (s : gset nat) : gset nat := ∅.

(** [row_set[y].add(v)], [col_set[x].add(v)], [s_grid_set[i][j].add(v)] *)
Definition add_row (y v : nat) (b : board) : board :=
  {| m_grid := m_grid b;
     c_grid := c_grid b;
     col_set := col_set b;
     row_set := alter (λ s, {[v]} ∪ s) y (row_set b);
     s_grid_set := s_grid_set b |}.

Definition add_col (x v : nat) (b : board) : board :=
  {| m_grid := m_grid b;
     c_grid := c_grid b;
     col_set := alter (λ s, {[v]} ∪ s) x (col_set b);
     row_set := row_set b;
     s_grid_set := s_grid_set b |}.

Definition add_s_grid (i j v : nat) (b : board) : board :=
  {| m_grid := m_grid b;
     c_grid := c_grid b;
     col_set := col_set b;
     row_set := row_set b;
     s_grid_set := gupd (λ s, {[v]} ∪ s) i j (s_grid_set b) |}.

(** The cells of a unit, in the order the nested loops
    [for y in range(y0, y1): for x in range(x0, x1)] visit them. *)
Definition cells (x_range y_range : nat * nat) : list (nat * nat) :=
  y ← range y_range.1 y_range.2;
  x ← range x_range.1 x_range.2;
  [(x, y)].

(** ** Reading the puzzle ([init], the same in both files)

    A Python [str] is a sequence of Unicode code points: a character is
    its code point, a text the list of its characters.  The puzzle is the
    text of the file as the file object hands it over (decoded, with every
    line end as the one character [\n]).  [readline()] gives the next line
    with its line end, the rest of the text when no line end is left, and
    the empty string at the end of the file.  [line[x]] raises [IndexError]
    past the end of the line and [int] raises [ValueError] on a character
    that is not a decimal digit; these are the only exceptions [init] can
    raise, and the state reached so far stays in the module's globals. *)

Definition char : Type := N.
Definition text : Type := list char.

(** The characters [\n] and [0]. *)
Definition newline_char : char := 10%N.
Definition zero_char : char := 48%N.

Inductive exn : Type := IndexError | ValueError.

Inductive outcome : Type :=
| Done (b : board)
| Raised (e : exn) (b : board).

(** The decimal digits of Unicode (general category Nd, Unicode 14.0) come
    in runs of ten consecutive code points, from the digit zero to the
    digit nine of a script; these are the zeros, [0] first.  The table
    grows with the versions of Unicode; the properties proved of every
    text use of it only that a digit has a value from 0 to 9 and that the
    characters [0] to [9] have the values 0 to 9. *)
Definition decimal_zeros : list char :=
  [48; 1632; 1776; 1984; 2406; 2534; 2662; 2790; 2918; 3046; 3174; 3302;
   3430; 3558; 3664; 3792; 3872; 4160; 4240; 6112; 6160; 6470; 6608; 6784;
   6800; 6992; 7088; 7232; 7248; 42528; 43216; 43264; 43472; 43504; 43600;
   44016; 65296; 66720; 68912; 69734; 69872; 69942; 70096; 70384; 70736;
   70864; 71248; 71360; 71472; 71904; 72016; 72784; 73040; 73120; 92768;
   92864; 93008; 120782; 120792; 120802; 120812; 120822; 123200; 123632;
   125264; 130032]%N.

(** [int(c)] for a one-character string: the value of a decimal digit of
    any script, [ValueError] ([None]) for every other character. *)
Definition int_of_char (c : char) : option nat :=
  match filter (λ z, (z ≤ c ∧ c < z + 10)%N) decimal_zeros with
  | z :: _ => Some (N.to_nat (c - z))
  | [] => None
  end.

(** The lines of a text, each with its line end. *)
Fixpoint split_lines (t : text) : list text :=
  match t with
  | [] => []
  | c :: t' =>
      if decide (c = newline_char) then [c] :: split_lines t'
      else match split_lines t' with
           | [] => [[c]]
           | line :: lines => (c :: line) :: lines
           end
  end.

(** The line the call number [y] of [readline()] returns. *)
Definition readline (puzzle : text) (y : nat) : text :=
  default [] (split_lines puzzle !! y).

(** [m_grid[x].append(v)] *)
Definition append_m (x v : nat) (b : board) : board :=
  {| m_grid := alter (λ col, col ++ [v]) x (m_grid b);
     c_grid := c_grid b;
     col_set := col_set b;
     row_set := row_set b;
     s_grid_set := s_grid_set b |}.

(** The body of the first inner loop: one character of one line. *)
Definition init_read (line : text) (y x : nat) (b : board) : outcome :=
  match line !! x with
  | None => Raised IndexError b
  | Some ch =>
      match int_of_char ch with
      | None => Raised ValueError b
      | Some v =>
          let b := append_m x v b in
          if bool_decide (ch ≠ zero_char)
          then Done (add_s_grid (x / sub_l) (y / sub_h) v (add_row y v (add_col x v b)))
          else Done b
      end
  end.

(** A loop whose body may raise: the first exception ends it. *)
Fixpoint for_raise {I : Type} (l : list I) (body : I → board → outcome)
  (b : board) : outcome :=
  match l with
  | [] => Done b
  | i :: l' =>
      match body i b with
      | Done b' => for_raise l' body b'
      | Raised e b' => Raised e b'
      end
  end.

(** The body of the second inner loop: the candidates of one blank square. *)
Definition init_candidates (y x : nat) (b : board) : board :=
  if bool_decide (mval b x y = 0) then
    let solved_set :=
      sget (row_set b) y ∪ sget (col_set b) x
        ∪ gget ∅ (s_grid_set b) (x / sub_l) (y / sub_h) in
    upd_c (λ _, full_set ∖ solved_set) x y b
  else b.

(** The first pair of loops of [init]: the grid and the sets of placed
    values. *)
Definition init_grid (puzzle : text) : outcome :=
  for_raise (range 0 grid_l)
    (λ y b, for_raise (range 0 grid_l) (init_read (readline puzzle y) y) b)
    board0.

(** The second pair of loops of [init]: the candidate sets. *)
Definition init_candidate_sets (b : board) : board :=
  for_each (range 0 grid_l)
    (λ y, for_each (range 0 grid_l) (init_candidates y)) b.

Definition init (puzzle : text) : outcome :=
  match init_grid puzzle with
  | Raised e b => Raised e b
  | Done b => Done (init_candidate_sets b)
  end.

(** ** Disjoint subsets of a list of candidate sets

    [get_disjoint_subsets(sets, n)] of the older file; the newer file has
    the same loop inside [disjoint_subsets].  The result is a Python set of
    frozensets. *)
Definition get_disjoint_subsets (sets : list (gset nat)) (n : nat)
  : gset (gset nat) :=
  for_each (combinations n sets)
    (λ combination disjoint_subsets,
       let superset := for_each combination (λ c superset, superset ∪ c) ∅ in
       if bool_decide (size superset = n)
       then disjoint_subsets ∪ {[superset]}
       else disjoint_subsets)
    ∅.

(** One test-and-remove of the elimination loops:
    [if not c_grid[x][y].issubset(d): c_grid[x][y] = c_grid[x][y] - d] *)
Definition remove_subset (d : gset nat) (x y : nat) (b : board) : board :=
  if bool_decide (cand b x y ⊆ d) then b else upd_c (λ s, s ∖ d) x y b.

(** How a run ends: the grid was printed and the loop left by [break], or
    the hundred rounds were used up (nothing is printed). *)
Inductive verdict : Type := Solved | Stalled.

(** [for x in range(k): round; if is_solved(): print; break] *)
Fixpoint rounds_until (round : board → board) (is_solved : board → bool)
  (k : nat) (b : board) : verdict * board :=
  match k with
  | 0 => (Stalled, b)
  | S k' =>
      let b' := round b in
      if is_solved b' then (Solved, b') else rounds_until round is_solved k' b'
  end.

(** ** sudoku_final.py *)

Module Final.

Definition is_solved (b : board) : bool :=
  forallb (λ x, forallb (λ y, bool_decide (size (cand b x y) = 0))
                  (range 0 grid_l))
    (range 0 grid_l).

(** Lines 90 to 101 of [write_solution]: what is done with the value
    [solution] popped from the square [(x, y)]. *)
Definition write_solution_place (solution x y : nat) (b : board) : board :=
  let s_grid_x := (x / sub_l) * sub_l in
  let s_grid_y := (y / sub_h) * sub_h in
  let b := set_m x y solution b in
  let b := upd_c clear x y b in
  let b :=
    for_each (range s_grid_y (s_grid_y + sub_h))
      (λ c_y, for_each (range s_grid_x (s_grid_x + sub_l))
                (λ c_x, upd_c (discard solution) c_x c_y)) b in
  for_each (range 0 grid_l)
    (λ i b, upd_c (discard solution) i y (upd_c (discard solution) x i b)) b.

(** The body of the loop of [write_solution]: a square with one candidate
    has it popped and written. *)
Definition write_solution_body (y x : nat) (b : board) : board :=
  if bool_decide (size (cand b x y) = 1) then
    match elements (cand b x y) with
    | solution :: _ =>
        write_solution_place solution x y (upd_c (discard solution) x y b)
    | [] => b
    end
  else b.

Definition write_solution (y : nat) (b : board) : board :=
  for_each (range 0 grid_l) (write_solution_body y) b.

(** The first loop of [disjoint_subsets]: the list [sets] of the candidate
    sets of the unit that have more than one and at most [n] members. *)
Definition small_sets (x_range y_range : nat * nat) (n : nat) (b : board)
  : list (gset nat) :=
  for_each (range y_range.1 y_range.2)
    (λ y, for_each (range x_range.1 x_range.2)
            (λ x sets,
               if bool_decide (1 < size (cand b x y) ∧ size (cand b x y) ≤ n)
               then sets ++ [cand b x y] else sets)) [].

(** The second loop: the set [d_subsets] of the disjoint subsets found. *)
Definition d_subsets (x_range y_range : nat * nat) (n : nat) (b : board)
  : gset (gset nat) :=
  get_disjoint_subsets (small_sets x_range y_range n b) n.

Section Enumeration.
Variable iter_sets : gset (gset nat) → list (gset nat).

Definition disjoint_subsets (x_range y_range : nat * nat) (n : nat) (b : board)
  : board :=
  for_each (iter_sets (d_subsets x_range y_range n b))
    (λ d, for_each (range y_range.1 y_range.2)
            (λ y, for_each (range x_range.1 x_range.2)
                    (λ x, remove_subset d x y))) b.

Definition iterator (func : nat * nat → nat * nat → board → board) (b : board)
  : board :=
  let b :=
    for_each (range 0 grid_l)
      (λ sq b, func (sq, sq + 1) (0, grid_l) (func (0, grid_l) (sq, sq + 1) b))
      b in
  for_each (range 0 sub_l)
    (λ s_grid_y, for_each (range 0 sub_h)
       (λ s_grid_x,
          func (s_grid_x * sub_l, s_grid_x * sub_l + sub_l)
               (s_grid_y * sub_h, s_grid_y * sub_h + sub_h))) b.

(** One pass of the loop of [main], up to the test of [is_solved]. *)
Definition round (b : board) : board :=
  let b := for_each (range 0 grid_l) write_solution b in
  for_each (range 2 5) (λ n, iterator (λ xr yr, disjoint_subsets xr yr n)) b.

Definition main_loop (b : board) : verdict * board :=
  rounds_until round is_solved 100 b.


End Enumeration.
End Final.

(** ** sudoku_old.py

    The older file writes the dimensions as the literals 9 and 3 and calls
    the grids [main_grid], [candidates_grid] and [sub_grid_set]. *)

Module Old.

Definition iter_over_subgrids (func : nat → nat → board → board) (b : board)
  : board :=
  for_each (range 0 3)
    (λ sub_grid_y, for_each (range 0 3) (λ sub_grid_x, func sub_grid_x sub_grid_y))
    b.

Definition iter_over_line (func : nat → board → board) (b : board) : board :=
  for_each (range 0 9) func b.

Definition is_solved (b : board) : bool :=
  forallb (λ y, bool_decide (size (sget (row_set b) y) = 9)) (range 0 9).

(** [pencil_in(solution, x, y, func)]; the last argument is never used. *)
Definition pencil_in (solution x y : nat) (b : board) : board :=
  let sub_grid_x := x / 3 in
  let sub_grid_y := y / 3 in
  let b := set_m x y solution b in
  let b := add_row y solution b in
  let b := add_col x solution b in
  let b := add_s_grid sub_grid_x sub_grid_y solution b in
  let b := upd_c clear x y b in
  let b :=
    for_each (range (sub_grid_y * 3) (sub_grid_y * 3 + 3))
      (λ sg_y, for_each (range (sub_grid_x * 3) (sub_grid_x * 3 + 3))
                 (λ sg_x, upd_c (discard solution) sg_x sg_y)) b in
  for_each (range 0 9)
    (λ i b, upd_c (discard solution) i y (upd_c (discard solution) x i b)) b.

(** The argument [candidates_grid[x][y].pop()] is evaluated before the
    call. *)
Definition single_candidate_square (y : nat) (b : board) : board :=
  for_each (range 0 9)
    (λ x b,
       if bool_decide (size (cand b x y) = 1) then
         match elements (cand b x y) with
         | solution :: _ => pencil_in solution x y (upd_c (discard solution) x y b)
         | [] => b
         end
       else b) b.

Section Enumeration.
Variable iter_nat : gset nat → list nat.
Variable iter_sets : gset (gset nat) → list (gset nat).

Definition single_sq_candidate_row (y : nat) (b : board) : board :=
  for_each (iter_nat (full_set ∖ sget (row_set b) y))
    (λ candidate b,
       let '(count, prev_x) :=
         for_each (range 0 9)
           (λ x '(count, prev_x),
              if bool_decide (candidate ∈ cand b x y)
              then (count + 1, x) else (count, prev_x))
           (0, 0) in
       if bool_decide (count = 1) then pencil_in candidate prev_x y b else b)
    b.

Definition single_sq_candidate_col (x : nat) (b : board) : board :=
  for_each (iter_nat (full_set ∖ sget (col_set b) x))
    (λ candidate b,
       let '(count, prev_y) :=
         for_each (range 0 9)
           (λ y '(count, prev_y),
              if bool_decide (candidate ∈ cand b x y)
              then (count + 1, y) else (count, prev_y))
           (0, 0) in
       if bool_decide (count = 1) then pencil_in candidate x prev_y b else b)
    b.

Definition single_sq_candidate_subgrid (sub_grid_x sub_grid_y : nat) (b : board)
  : board :=
  for_each (iter_nat (full_set ∖ gget ∅ (s_grid_set b) sub_grid_x sub_grid_y))
    (λ candidate b,
       let '(count, prev_coords) :=
         for_each (range (sub_grid_y * 3) (sub_grid_y * 3 + 3))
           (λ y, for_each (range (sub_grid_x * 3) (sub_grid_x * 3 + 3))
                   (λ x '(count, prev_coords),
                      if bool_decide (candidate ∈ cand b x y)
                      then (count + 1, (x, y)) else (count, prev_coords)))
           (0, (0, 0)) in
       if bool_decide (count = 1)
       then pencil_in candidate prev_coords.1 prev_coords.2 b else b)
    b.

(** [s.difference(t, u)] *)
Definition difference2 (s t u : gset nat) : gset nat := s ∖ t ∖ u.

Definition number_claiming_row (sub_grid_x sub_grid_y : nat) (b : board) : board :=
  let subrow_sets :=
    for_each (range (sub_grid_y * 3) (sub_grid_y * 3 + 3))
      (λ y, for_each (range (sub_grid_x * 3) (sub_grid_x * 3 + 3))
              (λ x subrow_sets,
                 <[y mod 3 := sget subrow_sets (y mod 3) ∪ cand b x y]> subrow_sets))
      [∅; ∅; ∅] in
  let claimed :=
    [difference2 (sget subrow_sets 0) (sget subrow_sets 1) (sget subrow_sets 2)]
      ++ [difference2 (sget subrow_sets 1) (sget subrow_sets 0) (sget subrow_sets 2)]
      ++ [difference2 (sget subrow_sets 2) (sget subrow_sets 0) (sget subrow_sets 1)] in
  for_each (range 0 3)
    (λ sub_row,
       for_each (iter_nat (sget claimed sub_row))
         (λ claimant,
            for_each (range 0 9)
              (λ x b,
                 if bool_decide (x / 3 ≠ sub_grid_x)
                 then upd_c (discard claimant) x (sub_grid_y * 3 + sub_row) b
                 else b))) b.

Definition number_claiming_col (sub_grid_x sub_grid_y : nat) (b : board) : board :=
  let subcol_sets :=
    for_each (range (sub_grid_x * 3) (sub_grid_x * 3 + 3))
      (λ x, for_each (range (sub_grid_y * 3) (sub_grid_y * 3 + 3))
              (λ y subcol_sets,
                 <[x mod 3 := sget subcol_sets (x mod 3) ∪ cand b x y]> subcol_sets))
      [∅; ∅; ∅] in
  let claimed :=
    [difference2 (sget subcol_sets 0) (sget subcol_sets 1) (sget subcol_sets 2)]
      ++ [difference2 (sget subcol_sets 1) (sget subcol_sets 0) (sget subcol_sets 2)]
      ++ [difference2 (sget subcol_sets 2) (sget subcol_sets 0) (sget subcol_sets 1)] in
  for_each (range 0 3)
    (λ sub_col,
       for_each (iter_nat (sget claimed sub_col))
         (λ claimant,
            for_each (range 0 9)
              (λ y b,
                 if bool_decide (y / 3 ≠ sub_grid_y)
                 then upd_c (discard claimant) (sub_grid_x * 3 + sub_col) y b
                 else b))) b.

Definition disjoint_subsets_row (y n : nat) (b : board) : board :=
  let sets :=
    for_each (range 0 9)
      (λ x sets,
         if bool_decide (1 < size (cand b x y) ∧ size (cand b x y) ≤ n)
         then sets ++ [cand b x y] else sets) [] in
  for_each (iter_sets (get_disjoint_subsets sets n))
    (λ d, for_each (range 0 9) (λ x, remove_subset d x y)) b.

Definition disjoint_subsets_col (x n : nat) (b : board) : board :=
  let sets :=
    for_each (range 0 9)
      (λ y sets,
         if bool_decide (1 < size (cand b x y) ∧ size (cand b x y) ≤ n)
         then sets ++ [cand b x y] else sets) [] in
  for_each (iter_sets (get_disjoint_subsets sets n))
    (λ d, for_each (range 0 9) (λ y, remove_subset d x y)) b.

Definition disjoint_subsets_subgrid (sub_grid_x sub_grid_y n : nat) (b : board)
  : board :=
  let sets :=
    for_each (range (sub_grid_y * 3) (sub_grid_y * 3 + 3))
      (λ y, for_each (range (sub_grid_x * 3) (sub_grid_x * 3 + 3))
              (λ x sets,
                 if bool_decide (1 < size (cand b x y) ∧ size (cand b x y) ≤ n)
                 then sets ++ [cand b x y] else sets)) [] in
  for_each (iter_sets (get_disjoint_subsets sets n))
    (λ d, for_each (range (sub_grid_y * 3) (sub_grid_y * 3 + 3))
            (λ y, for_each (range (sub_grid_x * 3) (sub_grid_x * 3 + 3))
                    (λ x, remove_subset d x y))) b.

(** One pass of the loop of [solve], up to the test of [is_solved]. *)
Definition round (b : board) : board :=
  let b := iter_over_line single_candidate_square b in
  let b := iter_over_line single_sq_candidate_row b in
  let b := iter_over_line single_sq_candidate_col b in
  let b := iter_over_subgrids single_sq_candidate_subgrid b in
  let b := iter_over_subgrids number_claiming_row b in
  let b := iter_over_subgrids number_claiming_col b in
  for_each (range 2 5)
    (λ n b,
       let b := iter_over_line (λ y, disjoint_subsets_row y n) b in
       let b := iter_over_line (λ x, disjoint_subsets_col x n) b in
       iter_over_subgrids (λ sx sy, disjoint_subsets_subgrid sx sy n) b) b.

Definition solve (b : board) : verdict * board :=
  rounds_until round is_solved 100 b.

End Enumeration.
End Old.

(** ** Printing the grid

    [print] writes to the standard output; here the functions return the
    text they write.  [print(v, end="")] writes the decimal text of the
    integer [v], [print("")] and [print()] write a line break. *)

Definition newline : string := String (ascii_of_nat 10) EmptyString.

(** [print_m_grid()] of [sudoku_final.py] *)
Definition print_m_grid (b : board) : string :=
  for_each (range 0 grid_l)
    (λ y out,
       let out :=
         for_each (range 0 grid_l)
           (λ x out,
              let out := out +:+ pretty (mval b x y) in
              if bool_decide (x mod sub_l = sub_l - 1) then out +:+ " " else out)
           out in
       let out := out +:+ newline in
       if bool_decide (y mod sub_h = sub_h - 1) then out +:+ newline else out)
    EmptyString.

(** [print_main_grid()] of [sudoku_old.py] *)
Definition print_main_grid (b : board) : string :=
  for_each (range 0 9)
    (λ y out,
       let out :=
         for_each (range 0 9)
           (λ x out,
              let out := out +:+ pretty (mval b x y) in
              if bool_decide (x mod 3 = 2) then out +:+ " " else out)
           out in
       out +:+ newline)
    EmptyString.

(** * Vocabulary of the properties *)

(** ** Predicates and auxiliary functions *)

(** The grid has [grid_l] columns of [grid_l] squares. *)
Definition dims {A} (g : list (list A)) : Prop :=
  length g = grid_l ∧ ∀ x col, g !! x = Some col → length col = grid_l.

#[global] Instance dims_dec {A} (g : list (list A)) : Decision (dims g).
Proof.
  refine (cast_if (decide (length g = grid_l
                           ∧ Forall (λ col, length col = grid_l) g)));
    unfold dims; rewrite Forall_lookup in *; naive_solver.
Defined.

(** [shrinks b b']: every candidate set of [b'] is included in the one the
    same square has in [b]. *)
Definition shrinks (b b' : board) : Prop := ∀ x y, cand b' x y ⊆ cand b x y.

(** [gmap2 h g] replaces the entry [a] at [(x, y)] by [h x y a]. *)
Definition gmap2 {A} (h : nat → nat → A → A) (g : list (list A))
  : list (list A) :=
  imap (λ x col, imap (λ y a, h x y a) col) g.

(** The squares the discard loops of a placement at [(x, y)] visit. *)
Definition peers (x y : nat) : list (nat * nat) :=
  cells (x / sub_l * sub_l, x / sub_l * sub_l + sub_l)
        (y / sub_h * sub_h, y / sub_h * sub_h + sub_h)
  ++ (i ← range 0 grid_l; [(x, i); (i, y)]).

(** [v] discarded from the candidate sets of the squares of [l]. *)
Definition discard_all (v : nat) (l : list (nat * nat)) (b : board) : board :=
  for_each l (λ p, upd_c (discard v) p.1 p.2) b.

(** The candidate set of square [q] after a placement of [v] at [(x, y)],
    from the candidate set [s] it had before. *)
Definition placed_cand (v x y : nat) (qx qy : nat) (s : gset nat) : gset nat :=
  let s := if decide ((qx, qy) = (x, y)) then ∅ else s in
  if decide ((qx, qy) ∈ peers x y) then discard v s else s.

(** [placed_at v x y b]: in [b] the square [(x, y)] holds [v], has no
    candidate left, and [v] is a candidate of no square of its row, of its
    column or of its sub-grid. *)
Definition placed_at (v x y : nat) (b : board) : Prop :=
  mval b x y = v ∧ cand b x y = ∅ ∧
  ∀ qx qy, qx < grid_l → qy < grid_l →
    qx = x ∨ qy = y ∨ (qx / sub_l = x / sub_l ∧ qy / sub_h = y / sub_h) →
    v ∉ cand b qx qy.

(** The state an outcome leaves in the globals. *)
Definition state_of (o : outcome) : board :=
  match o with Done b | Raised _ b => b end.

(** The text [init] needs: a decimal digit at each of the first [grid_l]
    places of each of the first [grid_l] lines. *)
Definition digits_text (puzzle : text) : Prop :=
  ∀ y x, y < grid_l → x < grid_l →
    ∃ ch v, readline puzzle y !! x = Some ch ∧ int_of_char ch = Some v.

(** A filled square has no candidate. *)
Definition filled_no_cand (b : board) : Prop :=
  ∀ x y, mval b x y ≠ 0 → cand b x y = ∅.


(** What one disjoint subset [d] does to a candidate set [s]. *)
Definition elim1 (d s : gset nat) : gset nat :=
  if bool_decide (s ⊆ d) then s else s ∖ d.

(** What the disjoint subsets [ds], taken in that order, do to a candidate
    set. *)
Definition eliminate (ds : list (gset nat)) (s : gset nat) : gset nat :=
  for_each ds elim1 s.

(** An enumeration of a Python set visits each member once. *)
Definition enumeration {A} `{Countable A} (iter : gset A → list A) : Prop :=
  ∀ X, iter X ≡ₚ elements X.

(** [settled s ds]: the candidate set [s] has a member that lies in no
    subset of [ds] but those that contain all of [s]. *)
Definition settled (s : gset nat) (ds : list (gset nat)) : Prop :=
  ∃ v, v ∈ s ∧ ∀ d, d ∈ ds → s ⊆ d ∨ v ∉ d.

(** [small p]: the square [p] has more than one and at most [n] candidates. *)
Definition small (n : nat) (b : board) (p : nat * nat) : Prop :=
  1 < size (cand b p.1 p.2) ∧ size (cand b p.1 p.2) ≤ n.

#[global] Instance small_dec n b p : Decision (small n b p).
Proof. unfold small. apply _. Defined.

(** A unit as the list [l] of its squares, each named by an index: the [x]
    of a row, the [y] of a column, the pair of a sub-grid. *)
Section Unit.
Context {I : Type} (cell : I → nat * nat) (l : list I).

(** The squares of the unit that have [w] as a candidate. *)
Definition holders (w : nat) (b : board) : list I :=
  filter (λ i, w ∈ cand b (cell i).1 (cell i).2) l.

(** What the loop body of the hidden-single functions does with the value
    [w]: it is placed when one square only has it as a candidate. *)
Definition hidden_single_step (w : nat) (b : board) : board :=
  match holders w b with
  | [i] => Old.pencil_in w (cell i).1 (cell i).2 b
  | _ => b
  end.

(** [before w v vs]: the loop over [vs] takes [w] before it takes [v]. *)
Definition before (w v : nat) (vs : list nat) : Prop :=
  ∃ pre post, vs = pre ++ v :: post ∧ w ∈ pre.

(** What a call that takes the values in the order [vs], from the state [b]
    to the state [b'], makes of the square of [i0] when it is the only
    square of the unit that has [v] as a candidate: the square is placed
    with [v], or with a value taken before [v] that was a candidate of the
    same square; it is placed with [v] when no value taken before [v] is a
    candidate of the square, and when no value taken before [v] has exactly
    one square in the unit. *)
Definition hidden_single_outcome (vs : list nat) (v : nat) (i0 : I)
  (b b' : board) : Prop :=
  (placed_at v (cell i0).1 (cell i0).2 b'
   ∨ ∃ w, before w v vs ∧ w ∈ cand b (cell i0).1 (cell i0).2
          ∧ placed_at w (cell i0).1 (cell i0).2 b')
  ∧ ((∀ w, before w v vs → w ∉ cand b (cell i0).1 (cell i0).2) →
     placed_at v (cell i0).1 (cell i0).2 b')
  ∧ ((∀ w, before w v vs → length (holders w b) ≠ 1) →
     placed_at v (cell i0).1 (cell i0).2 b').

End Unit.

(** ** Example puzzles and enumerations *)

(** The characters of a string of the ASCII range. *)
Definition codes (s : string) : text := N_of_ascii <$> list_ascii_of_string s.

(** The text of a file with these lines, each followed by a line end. *)
Definition file_text (rows : list string) : text :=
  rows ≫= λ row, codes row ++ [newline_char].


(** The same grid with the squares [(0, 0)] and [(1, 8)] blank and a 1 at
    [(1, 0)].  No row, column or sub-grid holds a value twice, and neither
    blank square has a candidate: row 0 holds every value but 2 and column
    0 holds 2; row 8 holds every value but 1 and column 1 holds 1. *)
Definition stuck_puzzle : text :=
  file_text
  ["013456789"; "456789123"; "789123456"; "234567891"; "567891234";
   "891234567"; "345678912"; "678912345"; "902345678"]%string.

(** Two 5s in the first row. *)
Definition two_fives : text :=
  file_text
  ["550000000"; "000000000"; "000000000"; "000000000"; "000000000";
   "000000000"; "000000000"; "000000000"; "000000000"]%string.

(** A first line of eight characters, in a file of nine lines. *)
Definition short_row : text :=
  file_text
  ["12345678"; "000000000"; "000000000"; "000000000"; "000000000";
   "000000000"; "000000000"; "000000000"; "000000000"]%string.

(** A file of eight lines. *)
Definition eight_lines : text :=
  file_text
  ["123456789"; "456789123"; "789123456"; "234567891"; "567891234";
   "891234567"; "345678912"; "678912345"]%string.

(** The grid of [stuck_puzzle] with the Arabic-Indic digit zero (U+0660) in
    its two blank squares. *)
Definition wide_zeros : text :=
  [1632%N] ++ codes "13456789" ++ [newline_char]
  ++ file_text
       ["456789123"; "789123456"; "234567891"; "567891234";
        "891234567"; "345678912"; "678912345"]%string
  ++ codes "9" ++ [1632%N] ++ codes "2345678" ++ [newline_char].

(** A first row with the candidate sets {1,2}, {1,2}, {3,4}, {3,4} and
    {1,2,3}, from a grid in which no row, column or sub-grid holds a value
    twice. *)
Definition crossed_pairs : text :=
  file_text
  ["000006789"; "500000000"; "000500000"; "301200000"; "402100000";
   "000040000"; "030000000"; "040000000"; "000000000"]%string.

Definition crossed_board : board := state_of (init crossed_pairs).

(** A first row with the candidate sets {2,3}, {2,3}, {1,2} and {3,4}, from
    a grid in which no row, column or sub-grid holds a value twice. *)
Definition shared_pair : text :=
  file_text
  ["000056789"; "400100000"; "000200000"; "100000000"; "003000000";
   "000000000"; "010000000"; "000000000"; "000000000"]%string.

Definition shared_pair_board : board := state_of (init shared_pair).

(** The enumeration that takes the members in the opposite order. *)
Definition reversed_elements (X : gset (gset nat)) : list (gset nat) :=
  reverse (elements X).

(** A complete grid but for the square [(0, 0)], whose only candidate is 1. *)
Definition one_blank : text :=
  file_text
  ["023456789"; "456789123"; "789123456"; "234567891"; "567891234";
   "891234567"; "345678912"; "678912345"; "912345678"]%string.

Definition one_blank_board : board := state_of (init one_blank).

(** A grid in which the 1s and the 2s of the columns 1 to 8 are placed, all
    outside the first row and the first sub-grid; no row, column or sub-grid
    holds a value twice.  In the first row only the square 0 can take 1 and
    only the square 0 can take 2. *)
Definition two_in_one : text :=
  file_text
  ["000000000"; "000100200"; "000200100"; "000010020"; "020000010";
   "010020000"; "000001002"; "002000001"; "001002000"]%string.

Definition two_in_one_board : board := state_of (init two_in_one).

(** The grid [two_in_one] with the 2 of column 1 moved to column 0: in the
    first row only the square 0 can take 1 and only the square 1 can take
    2. *)
Definition two_singles : text :=
  file_text
  ["000000000"; "000100200"; "000200100"; "000010020"; "200000010";
   "010020000"; "000001002"; "002000001"; "001002000"]%string.

Definition two_singles_board : board := state_of (init two_singles).

(** The enumeration of a set of values in the opposite order. *)
Definition reversed_values (X : gset nat) : list nat := reverse (elements X).

(** ** Vocabulary of the further properties *)

(** [only_cands b b']: the states [b] and [b'] differ in their candidate
    sets at most. *)
Definition only_cands (b b' : board) : Prop :=
  m_grid b' = m_grid b ∧ col_set b' = col_set b ∧ row_set b' = row_set b
  ∧ s_grid_set b' = s_grid_set b.

(** [in_sub_row b sx y a]: [a] is a candidate of one of the three squares
    of row [y] whose column lies in the band [sx] of sub-grids. *)
Definition in_sub_row (b : board) (sx y a : nat) : Prop :=
  ∃ x, x / 3 = sx ∧ a ∈ cand b x y.

(** [in_sub_col b x sy a]: [a] is a candidate of one of the three squares
    of column [x] whose row lies in the band [sy] of sub-grids. *)
Definition in_sub_col (b : board) (x sy a : nat) : Prop :=
  ∃ y, y / 3 = sy ∧ a ∈ cand b x y.

(** The character at place [x] of line [y] of the text ([0] where there is
    none) and its value as a digit (0 where it has none). *)
Definition glyph (puzzle : text) (x y : nat) : char :=
  default zero_char (readline puzzle y !! x).

Definition digit (puzzle : text) (x y : nat) : nat :=
  default 0 (readline puzzle y !! x ≫= int_of_char).

(** [sees x y x' y']: the square [(x', y')] is in the column, in the row or
    in the sub-grid of [(x, y)]. *)
Definition sees (x y x' y' : nat) : Prop :=
  x' = x ∨ y' = y ∨ (x' / sub_l = x / sub_l ∧ y' / sub_h = y / sub_h).

(** [earlier x' y' x y]: the loops of [init] reach the place [x'] of line
    [y'] before the place [x] of line [y]. *)
Definition earlier (x' y' x y : nat) : Prop :=
  x' < grid_l ∧ (y' < y ∨ (y' = y ∧ x' < x)).

(** The places the loops of [init] reach before the place [x] of line [y],
    in their order. *)
Definition cells_before (x y : nat) : list (nat * nat) :=
  cells (0, grid_l) (0, y) ++ ((λ x', (x', y)) <$> range 0 x).

(** What the body of the first loop of [init] does with the character [ch]
    of value [v] read at place [x] of line [y]. *)
Definition read_digit (ch : char) (v : nat) (y x : nat) (b : board) : board :=
  let b := append_m x v b in
  if bool_decide (ch ≠ zero_char)
  then add_s_grid (x / sub_l) (y / sub_h) v (add_row y v (add_col x v b))
  else b.

(** The state the first pair of loops of [init] reaches when it has read
    the places of [l], and when it has read them all. *)
Definition read_prefix (puzzle : text) (l : list (nat * nat)) : board :=
  for_each l
    (λ p, read_digit (glyph puzzle p.1 p.2) (digit puzzle p.1 p.2) p.2 p.1)
    board0.

Definition read_all (puzzle : text) : board :=
  read_prefix puzzle (cells (0, grid_l) (0, grid_l)).

(** The lists of the sets of placed values have the sizes the module gives
    them. *)
Definition sets_allocated (b : board) : Prop :=
  length (col_set b) = grid_l ∧ length (row_set b) = grid_l
  ∧ ∀ i j, i < sub_h → j < sub_l → is_Some (s_grid_set b !! i ≫= λ col, col !! j).

(** All the lists of the state have the sizes the module gives them. *)
Definition allocated (b : board) : Prop :=
  dims (m_grid b) ∧ dims (c_grid b) ∧ sets_allocated b.

(** The sets of placed values follow the grid: a value other than 0 is in
    [row_set[y]] exactly when a square of row [y] holds it, in [col_set[x]]
    exactly when a square of column [x] holds it, and in [s_grid_set[i][j]]
    exactly when a square of the sub-grid [(i, j)] holds it. *)
Definition placed_sets_exact (b : board) : Prop :=
  (∀ y v, y < grid_l → v ≠ 0 →
     v ∈ sget (row_set b) y ↔ ∃ x, x < grid_l ∧ mval b x y = v)
  ∧ (∀ x v, x < grid_l → v ≠ 0 →
       v ∈ sget (col_set b) x ↔ ∃ y, y < grid_l ∧ mval b x y = v)
  ∧ (∀ i j v, i < sub_h → j < sub_l → v ≠ 0 →
       v ∈ gget ∅ (s_grid_set b) i j
       ↔ ∃ x y, x < grid_l ∧ y < grid_l
                ∧ x / sub_l = i ∧ y / sub_h = j ∧ mval b x y = v).

(** No set of placed values holds 0. *)
Definition zero_free (b : board) : Prop :=
  (∀ y, y < grid_l → 0 ∉ sget (row_set b) y)
  ∧ (∀ x, x < grid_l → 0 ∉ sget (col_set b) x)
  ∧ (∀ i j, i < sub_h → j < sub_l → 0 ∉ gget ∅ (s_grid_set b) i j).

(** The blank squares of the text are written with the character [0]: no
    other character of the grid has the value 0 (as the digit zero of
    another script would). *)
Definition plain_zeros (puzzle : text) : Prop :=
  ∀ x y ch, x < grid_l → y < grid_l →
    readline puzzle y !! x = Some ch → int_of_char ch = Some 0 → ch = zero_char.

(** [solved_set] of the second loop of [init]. *)
Definition solved_of (b : board) (x y : nat) : gset nat :=
  sget (row_set b) y ∪ sget (col_set b) x
    ∪ gget ∅ (s_grid_set b) (x / sub_l) (y / sub_h).

(** No row, column or sub-grid of the grid holds a value twice. *)
Definition no_duplicate (b : board) : Prop :=
  ∀ x y x' y', x < grid_l → y < grid_l → x' < grid_l → y' < grid_l →
    sees x y x' y' → (x, y) ≠ (x', y') → mval b x y ≠ 0 →
    mval b x' y' ≠ mval b x y.

(** Every candidate is a value from 1 to 9, of a square of the grid, that no
    square of the row, of the column or of the sub-grid holds. *)
Definition cand_sound (b : board) : Prop :=
  ∀ x y v, v ∈ cand b x y →
    x < grid_l ∧ y < grid_l ∧ 1 ≤ v ≤ 9
    ∧ ∀ x' y', x' < grid_l → y' < grid_l → sees x y x' y' → mval b x' y' ≠ v.

(** [keeps_filled b b']: every filled square of [b] holds the same value in
    [b']. *)
Definition keeps_filled (b b' : board) : Prop :=
  ∀ x y, mval b x y ≠ 0 → mval b' x y = mval b x y.

(** What the states of a run have in common: the grid has its full size
    and holds digits, a filled square has no candidate, and the candidates
    are sound. *)
Definition sound (b : board) : Prop :=
  dims (m_grid b) ∧ (∀ x y, mval b x y ≤ 9) ∧ filled_no_cand b ∧ cand_sound b.

(** [v] can be placed at [(x, y)]: the square is blank and no square it
    sees holds [v]. *)
Definition placeable (v x y : nat) (b : board) : Prop :=
  x < grid_l ∧ y < grid_l ∧ 1 ≤ v ≤ 9 ∧ mval b x y = 0
  ∧ ∀ x' y', x' < grid_l → y' < grid_l → sees x y x' y' → mval b x' y' ≠ v.

(** [advances extra b b']: from a sound state [b] that satisfies [extra],
    [b'] is such a state again, with the filled squares of [b] as they
    were and no value twice in a unit unless [b] had one. *)
Definition advances (extra : board → Prop) (b b' : board) : Prop :=
  sound b → extra b →
  sound b' ∧ extra b' ∧ keeps_filled b b' ∧ (no_duplicate b → no_duplicate b').

(** The sets of placed values are kept up to date (older file). *)
Definition sets_exact (b : board) : Prop := sets_allocated b ∧ placed_sets_exact b.

(** What the older file keeps of its sets of placed values: their sizes and
    that they follow the grid; and, when [P] (the text was written with
    plain zeros), that they hold no 0. *)
Definition sets_kept (P : Prop) (b : board) : Prop :=
  sets_exact b ∧ (P → zero_free b).

(** One call of a technique of the newer file. *)
Inductive final_step (iter_sets : gset (gset nat) → list (gset nat))
  : board → board → Prop :=
| step_write_solution y b :
    final_step iter_sets b (Final.write_solution y b)
| step_disjoint_subsets xr yr n b :
    final_step iter_sets b (Final.disjoint_subsets iter_sets xr yr n b).

(** One call of a technique of the older file. *)
Inductive old_step (iter_nat : gset nat → list nat)
    (iter_sets : gset (gset nat) → list (gset nat)) : board → board → Prop :=
| step_single_candidate_square y b :
    old_step iter_nat iter_sets b (Old.single_candidate_square y b)
| step_single_sq_candidate_row y b :
    old_step iter_nat iter_sets b (Old.single_sq_candidate_row iter_nat y b)
| step_single_sq_candidate_col x b :
    old_step iter_nat iter_sets b (Old.single_sq_candidate_col iter_nat x b)
| step_single_sq_candidate_subgrid sx sy b :
    old_step iter_nat iter_sets b
      (Old.single_sq_candidate_subgrid iter_nat sx sy b)
| step_number_claiming_row sx sy b :
    old_step iter_nat iter_sets b (Old.number_claiming_row iter_nat sx sy b)
| step_number_claiming_col sx sy b :
    old_step iter_nat iter_sets b (Old.number_claiming_col iter_nat sx sy b)
| step_disjoint_subsets_row y n b :
    old_step iter_nat iter_sets b (Old.disjoint_subsets_row iter_sets y n b)
| step_disjoint_subsets_col x n b :
    old_step iter_nat iter_sets b (Old.disjoint_subsets_col iter_sets x n b)
| step_disjoint_subsets_subgrid sx sy n b :
    old_step iter_nat iter_sets b
      (Old.disjoint_subsets_subgrid iter_sets sx sy n b).

#[global] Instance sees_dec x y x' y' : Decision (sees x y x' y').
Proof. unfold sees. apply _. Defined.

(** The test of [no_duplicate], by enumeration of the pairs of squares. *)
Definition no_duplicateb (b : board) : bool :=
  forallb
    (λ p, forallb
            (λ q, bool_decide (sees p.1 p.2 q.1 q.2 → p ≠ q →
                               mval b p.1 p.2 ≠ 0 →
                               mval b q.1 q.2 ≠ mval b p.1 p.2))
            (cells (0, grid_l) (0, grid_l)))
    (cells (0, grid_l) (0, grid_l)).


(** The test of [plain_zeros], by enumeration of the places of the grid. *)
Definition plain_zerosb (puzzle : text) : bool :=
  forallb
    (λ p, match readline puzzle p.2 !! p.1 with
          | Some ch => bool_decide (int_of_char ch = Some 0 → ch = zero_char)
          | None => true
          end)
    (cells (0, grid_l) (0, grid_l)).

(** * Properties *)

(** ** Loops *)

Lemma for_each_nil {I S} (body : I → S → S) s : for_each [] body s = s.
Proof. done. Qed.

Lemma for_each_cons {I S} (body : I → S → S) i l s :
  for_each (i :: l) body s = for_each l body (body i s).
Proof. done. Qed.

Lemma for_each_app {I S} (body : I → S → S) l k s :
  for_each (l ++ k) body s = for_each k body (for_each l body s).
Proof. unfold for_each. apply foldl_app. Qed.

(** A relation between the state before and after that is reflexive,
    transitive and established by every pass of the body holds of the loop. *)
Lemma for_each_rel {I S} (R : S → S → Prop) (body : I → S → S) l :
  (∀ s, R s s) → (∀ s1 s2 s3, R s1 s2 → R s2 s3 → R s1 s3) →
  (∀ i s, i ∈ l → R s (body i s)) →
  ∀ s, R s (for_each l body s).
Proof.
  intros Hrefl Htrans. induction l as [|i l IH]; intros Hbody s; [apply Hrefl|].
  rewrite for_each_cons. eapply Htrans.
  - apply Hbody. left.
  - apply IH. intros j s' Hj. apply Hbody. by right.
Qed.

(** An invariant of every pass of the body is an invariant of the loop. *)
Lemma for_each_inv {I S} (P : S → Prop) (body : I → S → S) l :
  (∀ i s, i ∈ l → P s → P (body i s)) →
  ∀ s, P s → P (for_each l body s).
Proof.
  induction l as [|i l IH]; intros Hbody s Hs; [done|].
  rewrite for_each_cons. apply IH.
  - intros j s' Hj. apply Hbody. by right.
  - apply Hbody; [left | done].
Qed.

Lemma for_each_ext {I S} (body1 body2 : I → S → S) l s :
  (∀ i s, i ∈ l → body1 i s = body2 i s) →
  for_each l body1 s = for_each l body2 s.
Proof.
  revert s. induction l as [|i l IH]; intros s Hext; [done|].
  rewrite !for_each_cons, Hext by left. apply IH.
  intros j s' Hj. apply Hext. by right.
Qed.

(** The nested loops over a unit are one loop over its cells. *)
Lemma for_each_cells {S} (body : nat → nat → S → S) xr yr s :
  for_each (range yr.1 yr.2) (λ y, for_each (range xr.1 xr.2) (λ x, body x y)) s
  = for_each (cells xr yr) (λ p, body p.1 p.2) s.
Proof.
  unfold cells. generalize (range yr.1 yr.2) as ys. intros ys. revert s.
  induction ys as [|y ys IH]; intros s; [done|].
  rewrite for_each_cons. simpl. rewrite for_each_app, IH. f_equal.
  generalize (range xr.1 xr.2) as xs. intros xs. revert s.
  induction xs as [|x xs IHx]; intros s; [done|].
  simpl. apply IHx.
Qed.

Lemma elem_of_range a b i : i ∈ range a b ↔ a ≤ i < b.
Proof. unfold range. rewrite elem_of_seq. lia. Qed.

Lemma elem_of_cells xr yr x y :
  (x, y) ∈ cells xr yr ↔ xr.1 ≤ x < xr.2 ∧ yr.1 ≤ y < yr.2.
Proof.
  unfold cells. rewrite list_elem_of_bind. split.
  - intros (y' & Hx & Hy). apply list_elem_of_bind in Hx as (x' & Hp & Hx).
    apply list_elem_of_singleton in Hp. simplify_eq.
    by rewrite elem_of_range in Hx, Hy.
  - intros [Hx Hy]. exists y. rewrite elem_of_range. split; [|done].
    apply list_elem_of_bind. exists x. rewrite elem_of_range.
    split; [apply list_elem_of_singleton|]; done.
Qed.

Lemma NoDup_range a b : NoDup (range a b).
Proof. apply NoDup_seq. Qed.

Lemma NoDup_cells xr yr : NoDup (cells xr yr).
Proof.
  unfold cells. generalize (NoDup_range yr.1 yr.2).
  generalize (range yr.1 yr.2) as ys. intros ys.
  induction ys as [|y ys IH]; intros Hnd; [constructor|].
  apply NoDup_cons in Hnd as [Hy Hnd]. simpl. apply NoDup_app. split_and!.
  - generalize (NoDup_range xr.1 xr.2).
    generalize (range xr.1 xr.2) as xs. intros xs.
    induction xs as [|x xs IHx]; intros Hx; [constructor|].
    apply NoDup_cons in Hx as [Hx Hxs]. simpl. apply NoDup_cons. split; [|auto].
    intros Hin. apply list_elem_of_bind in Hin as (x' & Hp & Hx').
    apply list_elem_of_singleton in Hp. by simplify_eq.
  - intros [x' y'] Hin1 Hin2.
    apply list_elem_of_bind in Hin1 as (x1 & Hp & _).
    apply list_elem_of_singleton in Hp. simplify_eq.
    apply list_elem_of_bind in Hin2 as (y2 & Hin2 & Hy2).
    apply list_elem_of_bind in Hin2 as (x2 & Hp & _).
    apply list_elem_of_singleton in Hp. by simplify_eq.
  - by apply IH.
Qed.

(** ** Grids *)

Lemma gget_gupd_ne {A} (d : A) f x y x' y' g :
  (x, y) ≠ (x', y') → gget d (gupd f x y g) x' y' = gget d g x' y'.
Proof.
  intros Hne. unfold gget, gupd.
  destruct (decide (x = x')) as [->|Hx].
  - rewrite list_lookup_alter_eq. destruct (g !! x') as [col|]; [|done]. simpl.
    rewrite list_lookup_alter_ne; [done | congruence].
  - by rewrite list_lookup_alter_ne.
Qed.

Lemma gget_gupd_eq {A} (d : A) f x y g :
  gget d (gupd f x y g) x y
  = match g !! x ≫= λ col, col !! y with Some a => f a | None => d end.
Proof.
  unfold gget, gupd. rewrite list_lookup_alter_eq.
  destruct (g !! x) as [col|]; [|done]. simpl.
  rewrite list_lookup_alter_eq. by destruct (col !! y).
Qed.

Lemma dims_gupd {A} (f : A → A) x y g : dims g → dims (gupd f x y g).
Proof.
  intros [Hlen Hcol]. unfold gupd. split; [by rewrite length_alter|].
  intros x' col. rewrite list_lookup_alter. case_decide; [|apply Hcol].
  subst x'. destruct (g !! x) as [col'|] eqn:E; [|done]. simpl. intros [= <-].
  rewrite length_alter. eauto.
Qed.

Lemma dims_lookup {A} (g : list (list A)) x y :
  dims g → x < grid_l → y < grid_l → is_Some (g !! x ≫= λ col, col !! y).
Proof.
  intros [Hlen Hcol] Hx Hy.
  destruct (lookup_lt_is_Some_2 g x) as [col E]; [lia|].
  rewrite E. simpl. apply lookup_lt_is_Some_2. rewrite (Hcol _ _ E). done.
Qed.

Lemma gget_gupd_dims {A} (d : A) f x y g :
  dims g → x < grid_l → y < grid_l →
  gget d (gupd f x y g) x y = f (gget d g x y).
Proof.
  intros Hd Hx Hy. rewrite gget_gupd_eq. unfold gget.
  by destruct (dims_lookup g x y Hd Hx Hy) as [a ->].
Qed.

(** ** Candidate sets only shrink *)

Lemma shrinks_refl b : shrinks b b.
Proof. by intros x y. Qed.

Lemma shrinks_trans b1 b2 b3 : shrinks b1 b2 → shrinks b2 b3 → shrinks b1 b3.
Proof. intros H12 H23 x y. etrans; [apply H23 | apply H12]. Qed.

Lemma cand_upd_c_ne f x y x' y' b :
  (x, y) ≠ (x', y') → cand (upd_c f x y b) x' y' = cand b x' y'.
Proof. apply gget_gupd_ne. Qed.

Lemma cand_upd_c_eq f x y b :
  cand (upd_c f x y b) x y
  = match c_grid b !! x ≫= λ col, col !! y with Some s => f s | None => ∅ end.
Proof. apply gget_gupd_eq. Qed.

Lemma cand_upd_c_sub f x y b s :
  (∀ s', f s' ⊆ s) → cand (upd_c f x y b) x y ⊆ s.
Proof.
  intros Hf. rewrite cand_upd_c_eq.
  destruct (c_grid b !! x ≫= _); [apply Hf | set_solver].
Qed.

Lemma cand_upd_c_dims f x y b :
  dims (c_grid b) → x < grid_l → y < grid_l →
  cand (upd_c f x y b) x y = f (cand b x y).
Proof. apply gget_gupd_dims. Qed.

Lemma shrinks_upd_c f x y b : (∀ s, f s ⊆ s) → shrinks b (upd_c f x y b).
Proof.
  intros Hf x' y'. destruct (decide ((x, y) = (x', y'))) as [[= <- <-]|Hne].
  - rewrite cand_upd_c_eq. unfold cand, gget.
    destruct (c_grid b !! x ≫= _); [apply Hf | done].
  - by rewrite cand_upd_c_ne.
Qed.

Lemma shrinks_same_c b b' : c_grid b' = c_grid b → shrinks b b'.
Proof. intros Hc x y. unfold cand. by rewrite Hc. Qed.

Lemma shrinks_for_each {I} (body : I → board → board) l :
  (∀ i b, shrinks b (body i b)) → ∀ b, shrinks b (for_each l body b).
Proof.
  intros Hbody. apply for_each_rel; auto using shrinks_refl.
  intros b1 b2 b3. apply shrinks_trans.
Qed.

Lemma discard_subseteq v s : discard v s ⊆ s.
Proof. intros a. unfold discard. rewrite elem_of_difference. tauto. Qed.

Lemma clear_subseteq s : clear s ⊆ s.
Proof. apply empty_subseteq. Qed.

Lemma shrinks_remove_subset d x y b : shrinks b (remove_subset d x y b).
Proof.
  unfold remove_subset. case_bool_decide; [apply shrinks_refl|].
  apply shrinks_upd_c. intros s a. rewrite elem_of_difference. tauto.
Qed.

(** One step of a proof that a function of the source only shrinks the
    candidate sets: peel the outermost update or loop off the state. *)
Ltac shrink_step :=
  lazymatch goal with
  | |- shrinks ?b ?b => apply shrinks_refl
  | |- shrinks ?b (for_each _ _ ?b') =>
      apply (shrinks_trans b b'); [| apply shrinks_for_each; intros; cbv beta]
  | |- shrinks ?b (upd_c (discard _) _ _ ?b') =>
      apply (shrinks_trans b b'); [| apply shrinks_upd_c, discard_subseteq]
  | |- shrinks ?b (upd_c clear _ _ ?b') =>
      apply (shrinks_trans b b'); [| apply shrinks_upd_c, clear_subseteq]
  | |- shrinks ?b (remove_subset _ _ _ ?b') =>
      apply (shrinks_trans b b'); [| apply shrinks_remove_subset]
  | |- shrinks ?b (set_m _ _ _ ?b') =>
      apply (shrinks_trans b b'); [| by apply shrinks_same_c]
  | |- shrinks ?b (add_row _ _ ?b') =>
      apply (shrinks_trans b b'); [| by apply shrinks_same_c]
  | |- shrinks ?b (add_col _ _ ?b') =>
      apply (shrinks_trans b b'); [| by apply shrinks_same_c]
  | |- shrinks ?b (add_s_grid _ _ _ ?b') =>
      apply (shrinks_trans b b'); [| by apply shrinks_same_c]
  | |- shrinks ?b (if ?c then _ else _) => destruct c
  | |- shrinks ?b (match ?l with [] => _ | _ :: _ => _ end) => destruct l
  | |- shrinks ?b (let '(_, _) := ?p in _) => destruct p
  end.

Ltac shrink := cbv zeta; repeat shrink_step.

Lemma shrinks_write_solution_place v x y b :
  shrinks b (Final.write_solution_place v x y b).
Proof. unfold Final.write_solution_place. shrink. Qed.

Lemma shrinks_write_solution_body y x b :
  shrinks b (Final.write_solution_body y x b).
Proof.
  unfold Final.write_solution_body. shrink.
  eapply shrinks_trans; [|apply shrinks_write_solution_place]. shrink.
Qed.

Lemma shrinks_write_solution y b : shrinks b (Final.write_solution y b).
Proof.
  unfold Final.write_solution. shrink. apply shrinks_write_solution_body.
Qed.

Lemma shrinks_pencil_in v x y b : shrinks b (Old.pencil_in v x y b).
Proof. unfold Old.pencil_in. shrink. Qed.

Lemma shrinks_single_candidate_square y b :
  shrinks b (Old.single_candidate_square y b).
Proof.
  unfold Old.single_candidate_square. shrink.
  eapply shrinks_trans; [|apply shrinks_pencil_in]. shrink.
Qed.

Section Shrinking.
Variable iter_nat : gset nat → list nat.
Variable iter_sets : gset (gset nat) → list (gset nat).

Lemma shrinks_disjoint_subsets xr yr n b :
  shrinks b (Final.disjoint_subsets iter_sets xr yr n b).
Proof. unfold Final.disjoint_subsets. shrink. Qed.

Lemma shrinks_iterator func b :
  (∀ xr yr b, shrinks b (func xr yr b)) → shrinks b (Final.iterator func b).
Proof.
  intros Hf. unfold Final.iterator. shrink; try apply Hf.
  eapply shrinks_trans; apply Hf.
Qed.

Lemma shrinks_final_round b : shrinks b (Final.round iter_sets b).
Proof.
  unfold Final.round. shrink.
  - apply shrinks_write_solution.
  - apply shrinks_iterator. intros. apply shrinks_disjoint_subsets.
Qed.

Lemma shrinks_single_sq_candidate_row y b :
  shrinks b (Old.single_sq_candidate_row iter_nat y b).
Proof.
  unfold Old.single_sq_candidate_row. shrink. apply shrinks_pencil_in.
Qed.

Lemma shrinks_single_sq_candidate_col x b :
  shrinks b (Old.single_sq_candidate_col iter_nat x b).
Proof.
  unfold Old.single_sq_candidate_col. shrink. apply shrinks_pencil_in.
Qed.

Lemma shrinks_single_sq_candidate_subgrid sx sy b :
  shrinks b (Old.single_sq_candidate_subgrid iter_nat sx sy b).
Proof.
  unfold Old.single_sq_candidate_subgrid. shrink. apply shrinks_pencil_in.
Qed.

Lemma shrinks_number_claiming_row sx sy b :
  shrinks b (Old.number_claiming_row iter_nat sx sy b).
Proof. unfold Old.number_claiming_row. shrink. Qed.

Lemma shrinks_number_claiming_col sx sy b :
  shrinks b (Old.number_claiming_col iter_nat sx sy b).
Proof. unfold Old.number_claiming_col. shrink. Qed.

Lemma shrinks_disjoint_subsets_row y n b :
  shrinks b (Old.disjoint_subsets_row iter_sets y n b).
Proof. unfold Old.disjoint_subsets_row. shrink. Qed.

Lemma shrinks_disjoint_subsets_col x n b :
  shrinks b (Old.disjoint_subsets_col iter_sets x n b).
Proof. unfold Old.disjoint_subsets_col. shrink. Qed.

Lemma shrinks_disjoint_subsets_subgrid sx sy n b :
  shrinks b (Old.disjoint_subsets_subgrid iter_sets sx sy n b).
Proof. unfold Old.disjoint_subsets_subgrid. shrink. Qed.

Lemma shrinks_iter_over_line func b :
  (∀ i b, shrinks b (func i b)) → shrinks b (Old.iter_over_line func b).
Proof. intros Hf. unfold Old.iter_over_line. shrink. apply Hf. Qed.

Lemma shrinks_iter_over_subgrids func b :
  (∀ i j b, shrinks b (func i j b)) → shrinks b (Old.iter_over_subgrids func b).
Proof. intros Hf. unfold Old.iter_over_subgrids. shrink. apply Hf. Qed.

Lemma shrinks_old_round b : shrinks b (Old.round iter_nat iter_sets b).
Proof.
  unfold Old.round. cbv zeta.
  repeat lazymatch goal with
    | |- shrinks ?b ?b => apply shrinks_refl
    | |- shrinks ?b (for_each _ _ ?b') =>
        apply (shrinks_trans b b'); [| apply shrinks_for_each; intros; cbv beta]
    | |- shrinks ?b (Old.iter_over_line _ ?b') =>
        apply (shrinks_trans b b'); [| apply shrinks_iter_over_line; intros]
    | |- shrinks ?b (Old.iter_over_subgrids _ ?b') =>
        apply (shrinks_trans b b'); [| apply shrinks_iter_over_subgrids; intros]
    end;
  auto using shrinks_single_candidate_square,
    shrinks_single_sq_candidate_row, shrinks_single_sq_candidate_col,
    shrinks_single_sq_candidate_subgrid, shrinks_number_claiming_row,
    shrinks_number_claiming_col, shrinks_disjoint_subsets_row,
    shrinks_disjoint_subsets_col, shrinks_disjoint_subsets_subgrid.
Qed.

End Shrinking.

(** ** Updates of a grid as maps over its squares *)

Lemma alter_imap {A} (f : A → A) i (l : list A) :
  alter f i l = imap (λ j a, if decide (j = i) then f a else a) l.
Proof.
  apply list_eq. intros j. rewrite list_lookup_imap, list_lookup_alter.
  destruct (decide (i = j)) as [->|Hne]; destruct (l !! j); simpl; try done.
  - by rewrite decide_True.
  - by rewrite decide_False.
Qed.

Lemma gupd_gmap2 {A} (f : A → A) x y (g : list (list A)) :
  gupd f x y g = gmap2 (λ x' y' a, if decide ((x', y') = (x, y)) then f a else a) g.
Proof.
  unfold gupd, gmap2. rewrite alter_imap. apply imap_ext. intros x' col _.
  simpl. destruct (decide (x' = x)) as [->|Hne].
  - rewrite alter_imap. apply imap_ext. intros y' a _. simpl.
    destruct (decide (y' = y)) as [->|Hy].
    + by rewrite decide_True.
    + rewrite decide_False; [done | congruence].
  - apply list_eq. intros y'. rewrite list_lookup_imap.
    destruct (col !! y'); [|done]. simpl. rewrite decide_False; [done | congruence].
Qed.

Lemma gmap2_gmap2 {A} (h1 h2 : nat → nat → A → A) (g : list (list A)) :
  gmap2 h1 (gmap2 h2 g) = gmap2 (λ x y a, h1 x y (h2 x y a)) g.
Proof.
  unfold gmap2. apply list_eq. intros x. rewrite !list_lookup_imap.
  destruct (g !! x) as [col|]; [|done]. simpl. f_equal.
  apply list_eq. intros y. rewrite !list_lookup_imap. by destruct (col !! y).
Qed.

Lemma gmap2_ext {A} (h1 h2 : nat → nat → A → A) (g : list (list A)) :
  (∀ x y a, h1 x y a = h2 x y a) → gmap2 h1 g = gmap2 h2 g.
Proof.
  intros Hext. unfold gmap2. apply imap_ext. intros x col _. simpl.
  apply imap_ext. intros y a _. apply Hext.
Qed.

Lemma gmap2_id {A} (g : list (list A)) : gmap2 (λ _ _ a, a) g = g.
Proof.
  unfold gmap2. apply list_eq. intros x. rewrite list_lookup_imap.
  destruct (g !! x) as [col|]; [|done]. simpl. f_equal.
  apply list_eq. intros y. rewrite list_lookup_imap. by destruct (col !! y).
Qed.

Lemma gget_gmap2 {A} (d : A) h (g : list (list A)) x y :
  gget d (gmap2 h g) x y
  = match g !! x ≫= λ col, col !! y with Some a => h x y a | None => d end.
Proof.
  unfold gget, gmap2. rewrite list_lookup_imap.
  destruct (g !! x) as [col|]; [|done]. simpl.
  rewrite list_lookup_imap. by destruct (col !! y).
Qed.

(** ** What a placement does

    Both [pencil_in] and the placement inside [write_solution] write the
    value, empty the square and then discard the value from the squares of
    the sub-grid, of the column and of the row. *)

Lemma discard_all_eq v l b :
  discard_all v l b
  = {| m_grid := m_grid b;
       c_grid := gmap2 (λ x y s, if decide ((x, y) ∈ l) then discard v s else s)
                   (c_grid b);
       col_set := col_set b;
       row_set := row_set b;
       s_grid_set := s_grid_set b |}.
Proof.
  unfold discard_all. revert b. induction l as [|[px py] l IH]; intros b.
  - rewrite for_each_nil. destruct b; simpl. f_equal.
    rewrite <- (gmap2_id c_grid0) at 1. apply gmap2_ext. intros x y a.
    destruct (decide ((x, y) ∈ [])) as [Hin|]; [|done].
    by apply not_elem_of_nil in Hin.
  - rewrite for_each_cons, IH. unfold upd_c. simpl. f_equal.
    rewrite gupd_gmap2, gmap2_gmap2. apply gmap2_ext. intros x y a.
    destruct (decide ((x, y) = (px, py))) as [->|Hne].
    + rewrite (decide_True (P := (px, py) ∈ (px, py) :: l)) by left.
      case_decide; [|done]. unfold discard. set_solver.
    + destruct (decide ((x, y) ∈ l)) as [Hin|Hnin].
      * rewrite decide_True; [done | by right].
      * rewrite decide_False; [done|]. rewrite elem_of_cons. tauto.
Qed.

Lemma for_each_bind {I J S} (k : I → list J) (body : J → S → S) l s :
  for_each (l ≫= k) body s = for_each l (λ i, for_each (k i) body) s.
Proof.
  revert s. induction l as [|i l IH]; intros s; [done|].
  change ((i :: l) ≫= k) with (k i ++ (l ≫= k)).
  rewrite for_each_app, for_each_cons. apply IH.
Qed.

Lemma placement_loops v x y b :
  for_each (range 0 grid_l)
    (λ i b, upd_c (discard v) i y (upd_c (discard v) x i b))
    (for_each (range (y / sub_h * sub_h) (y / sub_h * sub_h + sub_h))
       (λ c_y, for_each (range (x / sub_l * sub_l) (x / sub_l * sub_l + sub_l))
                 (λ c_x, upd_c (discard v) c_x c_y)) b)
  = discard_all v (peers x y) b.
Proof.
  unfold discard_all, peers. rewrite for_each_app, for_each_bind.
  rewrite <- (for_each_cells (λ c_x c_y, upd_c (discard v) c_x c_y)). done.
Qed.

Lemma write_solution_place_eq v x y b :
  Final.write_solution_place v x y b
  = discard_all v (peers x y) (upd_c clear x y (set_m x y v b)).
Proof. unfold Final.write_solution_place. cbv zeta. apply placement_loops. Qed.

Lemma pencil_in_eq v x y b :
  Old.pencil_in v x y b
  = discard_all v (peers x y)
      (upd_c clear x y
         (add_s_grid (x / 3) (y / 3) v (add_col x v (add_row y v (set_m x y v b))))).
Proof. unfold Old.pencil_in. cbv zeta. apply placement_loops. Qed.

Lemma placed_c_grid v x y g :
  gmap2 (λ qx qy s, if decide ((qx, qy) ∈ peers x y) then discard v s else s)
    (gupd clear x y g)
  = gmap2 (placed_cand v x y) g.
Proof.
  rewrite gupd_gmap2, gmap2_gmap2. apply gmap2_ext. intros qx qy s.
  unfold placed_cand, clear. cbv zeta. by repeat case_decide.
Qed.

Lemma c_grid_write_solution_place v x y b :
  c_grid (Final.write_solution_place v x y b) = gmap2 (placed_cand v x y) (c_grid b).
Proof. rewrite write_solution_place_eq, discard_all_eq. apply placed_c_grid. Qed.

Lemma c_grid_pencil_in v x y b :
  c_grid (Old.pencil_in v x y b) = gmap2 (placed_cand v x y) (c_grid b).
Proof. rewrite pencil_in_eq, discard_all_eq. apply placed_c_grid. Qed.

Lemma m_grid_write_solution_place v x y b :
  m_grid (Final.write_solution_place v x y b) = gupd (λ _, v) x y (m_grid b).
Proof. by rewrite write_solution_place_eq, discard_all_eq. Qed.

Lemma m_grid_pencil_in v x y b :
  m_grid (Old.pencil_in v x y b) = gupd (λ _, v) x y (m_grid b).
Proof. by rewrite pencil_in_eq, discard_all_eq. Qed.

Lemma div_block a x q :
  0 < a → (x / a * a ≤ q ∧ q < x / a * a + a) ↔ q / a = x / a.
Proof.
  intros Ha. split.
  - intros [Hlo Hhi]. symmetry.
    apply (Nat.div_unique q a (x / a) (q - x / a * a)); lia.
  - intros Hq. pose proof (Nat.div_mod_eq q a) as Hdm.
    pose proof (Nat.mod_upper_bound q a) as Hub. rewrite <- Hq. lia.
Qed.

Lemma elem_of_peers x y qx qy :
  (qx, qy) ∈ peers x y ↔
    (qx / sub_l = x / sub_l ∧ qy / sub_h = y / sub_h)
    ∨ (qx = x ∧ qy < grid_l) ∨ (qy = y ∧ qx < grid_l).
Proof.
  unfold peers. rewrite elem_of_app, elem_of_cells, list_elem_of_bind.
  cbn [fst snd]. rewrite !div_block by (unfold sub_l, sub_h; lia). split.
  - intros [?|(i & Hq & Hi)]; [by left|]. right.
    apply elem_of_range in Hi.
    apply elem_of_cons in Hq as [Hq|Hq]; [|apply list_elem_of_singleton in Hq];
      simplify_eq; [left | right]; split; (done || lia).
  - intros [?|[[-> Hq]|[-> Hq]]]; [by left| |]; right.
    + exists qy. rewrite elem_of_range. split; [left | lia].
    + exists qx. rewrite elem_of_range. split; [right; left | lia].
Qed.

Lemma range_split a b i :
  a ≤ i < b → range a b = range a i ++ i :: range (S i) b.
Proof.
  intros Hi. unfold range. replace (b - a) with ((i - a) + S (b - S i)) by lia.
  rewrite seq_app. replace (a + (i - a)) with i by lia. done.
Qed.

Lemma placed_at_preserved v x y b b' :
  placed_at v x y b → shrinks b b' → mval b' x y = mval b x y →
  placed_at v x y b'.
Proof.
  intros (Hm & Hc & Hp) Hsh Hm'. split_and!.
  - congruence.
  - apply (anti_symm (⊆)); [|apply empty_subseteq]. rewrite <- Hc. apply Hsh.
  - intros qx qy Hqx Hqy Hq Hin. apply (Hp qx qy Hqx Hqy Hq). by apply Hsh.
Qed.

Section Placement.
(** A function that places a value as the source does. *)
Variable place : nat → nat → nat → board → board.
Hypothesis place_c_grid : ∀ v x y b,
  c_grid (place v x y b) = gmap2 (placed_cand v x y) (c_grid b).
Hypothesis place_m_grid : ∀ v x y b,
  m_grid (place v x y b) = gupd (λ _, v) x y (m_grid b).

Lemma cand_place v x y b qx qy :
  cand (place v x y b) qx qy
  = match c_grid b !! qx ≫= λ col, col !! qy with
    | Some s => placed_cand v x y qx qy s
    | None => ∅
    end.
Proof using place_c_grid. unfold cand. rewrite place_c_grid. apply gget_gmap2. Qed.

Lemma cand_place_self v x y b : cand (place v x y b) x y = ∅.
Proof using place_c_grid.
  clear place_m_grid.
  rewrite cand_place. destruct (c_grid b !! x ≫= _); [|done].
  unfold placed_cand. cbv zeta.
  rewrite (decide_True (P := (x, y) = (x, y))) by done.
  case_decide; [|done]. unfold discard. set_solver.
Qed.

Lemma cand_place_peer v x y b qx qy :
  (qx, qy) ∈ peers x y → v ∉ cand (place v x y b) qx qy.
Proof using place_c_grid.
  clear place_m_grid.
  intros Hq. rewrite cand_place. destruct (c_grid b !! qx ≫= _); [|set_solver].
  unfold placed_cand. cbv zeta. rewrite (decide_True (P := _ ∈ _)) by done.
  unfold discard. set_solver.
Qed.

Lemma cand_place_frame v x y b qx qy :
  (qx, qy) ≠ (x, y) → (qx, qy) ∉ peers x y →
  cand (place v x y b) qx qy = cand b qx qy.
Proof using place_c_grid.
  intros Hne Hq. rewrite cand_place. unfold cand, gget.
  destruct (c_grid b !! qx ≫= _); [|done]. simpl.
  unfold placed_cand. cbv zeta.
  rewrite (decide_False (P := (qx, qy) = (x, y))) by done.
  by rewrite decide_False.
Qed.

Lemma mval_place_self v x y b :
  dims (m_grid b) → x < grid_l → y < grid_l → mval (place v x y b) x y = v.
Proof using place_m_grid.
  intros Hd Hx Hy. unfold mval. rewrite place_m_grid.
  by rewrite gget_gupd_dims.
Qed.

Lemma mval_place_frame v x y b qx qy :
  (qx, qy) ≠ (x, y) → mval (place v x y b) qx qy = mval b qx qy.
Proof using place_m_grid.
  intros Hne. unfold mval. rewrite place_m_grid.
  by rewrite gget_gupd_ne.
Qed.

Lemma placed_at_place v x y b :
  dims (m_grid b) → x < grid_l → y < grid_l → placed_at v x y (place v x y b).
Proof using place_c_grid place_m_grid.
  intros Hd Hx Hy. split_and!.
  - by apply mval_place_self.
  - apply cand_place_self.
  - intros qx qy Hqx Hqy Hq. apply cand_place_peer, elem_of_peers.
    destruct Hq as [->|[->|?]]; [right; left | right; right | left]; done.
Qed.

End Placement.

(** ** Placement: propagation, frame, idempotence *)

Lemma alter_add_twice v i (l : list (gset nat)) :
  alter (λ s, {[v]} ∪ s) i (alter (λ s, {[v]} ∪ s) i l)
  = alter (λ s, {[v]} ∪ s) i l.
Proof.
  rewrite list_alter_alter_eq. apply list_alter_ext; [|done].
  intros s _. simpl. set_solver.
Qed.

Lemma gupd_add_twice v i j (g : list (list (gset nat))) :
  gupd (λ s, {[v]} ∪ s) i j (gupd (λ s, {[v]} ∪ s) i j g)
  = gupd (λ s, {[v]} ∪ s) i j g.
Proof.
  rewrite !gupd_gmap2, gmap2_gmap2. apply gmap2_ext. intros qx qy s.
  case_decide; [set_solver | done].
Qed.

Lemma placed_cand_twice v x y (g : list (list (gset nat))) :
  gmap2 (placed_cand v x y) (gmap2 (placed_cand v x y) g)
  = gmap2 (placed_cand v x y) g.
Proof.
  rewrite gmap2_gmap2. apply gmap2_ext. intros qx qy s.
  unfold placed_cand, discard. cbv zeta. repeat case_decide; set_solver.
Qed.

Lemma gupd_const_twice {A} (v : A) x y (g : list (list A)) :
  gupd (λ _, v) x y (gupd (λ _, v) x y g) = gupd (λ _, v) x y g.
Proof.
  rewrite !gupd_gmap2, gmap2_gmap2. apply gmap2_ext.
  intros qx qy a. by repeat case_decide.
Qed.

Lemma pencil_in_board v x y b :
  Old.pencil_in v x y b
  = {| m_grid := gupd (λ _, v) x y (m_grid b);
       c_grid := gmap2 (placed_cand v x y) (c_grid b);
       col_set := alter (λ s, {[v]} ∪ s) x (col_set b);
       row_set := alter (λ s, {[v]} ∪ s) y (row_set b);
       s_grid_set := gupd (λ s, {[v]} ∪ s) (x / 3) (y / 3) (s_grid_set b) |}.
Proof.
  rewrite pencil_in_eq, discard_all_eq. simpl. f_equal. apply placed_c_grid.
Qed.

Lemma write_solution_place_board v x y b :
  Final.write_solution_place v x y b
  = {| m_grid := gupd (λ _, v) x y (m_grid b);
       c_grid := gmap2 (placed_cand v x y) (c_grid b);
       col_set := col_set b;
       row_set := row_set b;
       s_grid_set := s_grid_set b |}.
Proof.
  rewrite write_solution_place_eq, discard_all_eq. simpl. f_equal.
  apply placed_c_grid.
Qed.

(** The body of [write_solution] on a square with the single candidate [v]. *)
Lemma write_solution_body_single y x v b :
  cand b x y = {[v]} →
  Final.write_solution_body y x b
  = Final.write_solution_place v x y (upd_c (discard v) x y b).
Proof.
  intros Hc. unfold Final.write_solution_body.
  rewrite Hc, size_singleton, elements_singleton. done.
Qed.

Lemma mval_write_solution_body_ne y x b qx qy :
  (qx, qy) ≠ (x, y) → mval (Final.write_solution_body y x b) qx qy = mval b qx qy.
Proof.
  intros Hne. unfold Final.write_solution_body.
  case_bool_decide; [|done]. destruct (elements _) as [|v ?]; [done|].
  by rewrite (mval_place_frame _ m_grid_write_solution_place).
Qed.

Lemma placed_at_write_solution v x y b :
  dims (m_grid b) → x < grid_l → y < grid_l →
  cand (for_each (range 0 x) (Final.write_solution_body y) b) x y = {[v]} →
  placed_at v x y (Final.write_solution y b).
Proof.
  intros Hd Hx Hy Hc. unfold Final.write_solution.
  rewrite (range_split 0 grid_l x), for_each_app, for_each_cons by lia.
  set (b1 := for_each (range 0 x) (Final.write_solution_body y) b) in *.
  assert (dims (m_grid b1)) as Hd1.
  { subst b1. apply (for_each_inv (λ b, dims (m_grid b))); [|done].
    intros i s _ Hs. unfold Final.write_solution_body.
    case_bool_decide; [|done]. destruct (elements _); [done|].
    rewrite m_grid_write_solution_place. by apply dims_gupd. }
  apply (for_each_inv (placed_at v x y)).
  - intros i s Hi Hs. apply elem_of_range in Hi.
    apply (placed_at_preserved _ _ _ s); [done| |].
    + apply shrinks_write_solution_body.
    + apply mval_write_solution_body_ne. intros [= ->]. lia.
  - rewrite (write_solution_body_single _ _ v) by done.
    by apply (placed_at_place _ c_grid_write_solution_place
                m_grid_write_solution_place).
Qed.

(** C4. A placement of [v] at [(x, y)] leaves the square holding [v], with
    no candidate, and [v] a candidate of no square of row [y], of column [x]
    or of the sub-grid of [(x, y)]: for [pencil_in], for the placement
    inside [write_solution], and at the end of the whole call
    [write_solution(y)] for every square [x] of the row that has the single
    candidate [v] when the loop reaches it. *)
Theorem placement_propagates (v x y : nat) (b : board) :
  dims (m_grid b) → x < grid_l → y < grid_l →
  placed_at v x y (Old.pencil_in v x y b)
  ∧ placed_at v x y (Final.write_solution_place v x y b)
  ∧ (cand (for_each (range 0 x) (Final.write_solution_body y) b) x y = {[v]} →
     placed_at v x y (Final.write_solution y b)).
Proof.
  intros Hd Hx Hy. split_and!.
  - by apply (placed_at_place _ c_grid_pencil_in m_grid_pencil_in).
  - by apply (placed_at_place _ c_grid_write_solution_place
                m_grid_write_solution_place).
  - by apply placed_at_write_solution.
Qed.

Lemma write_solution_body_twice y x b :
  Final.write_solution_body y x (Final.write_solution_body y x b)
  = Final.write_solution_body y x b.
Proof.
  destruct (decide (size (cand b x y) = 1)) as [Hone|Hone].
  - destruct (elements (cand b x y)) as [|v k] eqn:E.
    + assert (Final.write_solution_body y x b = b) as Hb.
      { unfold Final.write_solution_body.
        by rewrite E, bool_decide_eq_true_2. }
      by rewrite !Hb.
    + assert (Final.write_solution_body y x b
              = Final.write_solution_place v x y (upd_c (discard v) x y b))
        as Hb.
      { unfold Final.write_solution_body.
        by rewrite E, bool_decide_eq_true_2. }
      rewrite Hb. unfold Final.write_solution_body.
      rewrite (cand_place_self _ c_grid_write_solution_place), size_empty.
      by rewrite bool_decide_eq_false_2.
  - assert (Final.write_solution_body y x b = b) as Hb.
    { unfold Final.write_solution_body. by rewrite bool_decide_eq_false_2. }
    by rewrite !Hb.
Qed.

(** C9. Placing the same value in the same square twice in succession
    gives the state that one placement gives: the grid, the candidate sets
    and the sets of placed values are the same.  So it is for [pencil_in],
    for the placement inside [write_solution], and for the body of the loop
    of [write_solution] (the test for a single candidate, the pop and the
    placement) on one square. *)
Theorem place_idempotent (v x y : nat) (b : board) :
  Old.pencil_in v x y (Old.pencil_in v x y b) = Old.pencil_in v x y b
  ∧ Final.write_solution_place v x y (Final.write_solution_place v x y b)
    = Final.write_solution_place v x y b
  ∧ Final.write_solution_body y x (Final.write_solution_body y x b)
    = Final.write_solution_body y x b.
Proof.
  split; [|split].
  - rewrite (pencil_in_board v x y b), pencil_in_board. simpl.
    by rewrite gupd_const_twice, placed_cand_twice, !alter_add_twice,
      gupd_add_twice.
  - rewrite (write_solution_place_board v x y b), write_solution_place_board.
    simpl. by rewrite gupd_const_twice, placed_cand_twice.
  - apply write_solution_body_twice.
Qed.

(** C10. A placement at [(x, y)] leaves the candidate set of a square that
    is neither in row [y], nor in column [x], nor in the sub-grid of
    [(x, y)] as it was, and leaves the value of every other square of the
    grid as it was. *)
Theorem placement_frame (v x y : nat) (b : board) (qx qy : nat) :
  (qx, qy) ≠ (x, y) →
  mval (Old.pencil_in v x y b) qx qy = mval b qx qy
  ∧ mval (Final.write_solution_place v x y b) qx qy = mval b qx qy
  ∧ (qx ≠ x → qy ≠ y → ¬ (qx / sub_l = x / sub_l ∧ qy / sub_h = y / sub_h) →
     cand (Old.pencil_in v x y b) qx qy = cand b qx qy
     ∧ cand (Final.write_solution_place v x y b) qx qy = cand b qx qy).
Proof.
  intros Hne. split_and!.
  - by apply (mval_place_frame _ m_grid_pencil_in).
  - by apply (mval_place_frame _ m_grid_write_solution_place).
  - intros Hx Hy Hsub.
    assert ((qx, qy) ∉ peers x y) as Hp by (rewrite elem_of_peers; tauto).
    split.
    + by apply (cand_place_frame _ c_grid_pencil_in).
    + by apply (cand_place_frame _ c_grid_write_solution_place).
Qed.

(** ** Monotonicity of the techniques *)

(** C2. Every technique leaves each candidate set included in what it was
    before the call: the naked singles ([write_solution],
    [single_candidate_square]), the hidden singles, the claiming of a row
    or column by a sub-grid, and the elimination of disjoint subsets; so
    from one round of the driver to the next no candidate set grows. *)
Theorem techniques_monotone
  (iter_nat : gset nat → list nat) (iter_sets : gset (gset nat) → list (gset nat))
  (b : board) (x y : nat) :
  (∀ i, cand (Final.write_solution i b) x y ⊆ cand b x y)
  ∧ (∀ xr yr n, cand (Final.disjoint_subsets iter_sets xr yr n b) x y ⊆ cand b x y)
  ∧ (∀ v i j, cand (Old.pencil_in v i j b) x y ⊆ cand b x y)
  ∧ (∀ i, cand (Old.single_candidate_square i b) x y ⊆ cand b x y)
  ∧ (∀ i, cand (Old.single_sq_candidate_row iter_nat i b) x y ⊆ cand b x y)
  ∧ (∀ i, cand (Old.single_sq_candidate_col iter_nat i b) x y ⊆ cand b x y)
  ∧ (∀ i j, cand (Old.single_sq_candidate_subgrid iter_nat i j b) x y ⊆ cand b x y)
  ∧ (∀ i j, cand (Old.number_claiming_row iter_nat i j b) x y ⊆ cand b x y)
  ∧ (∀ i j, cand (Old.number_claiming_col iter_nat i j b) x y ⊆ cand b x y)
  ∧ (∀ i n, cand (Old.disjoint_subsets_row iter_sets i n b) x y ⊆ cand b x y)
  ∧ (∀ i n, cand (Old.disjoint_subsets_col iter_sets i n b) x y ⊆ cand b x y)
  ∧ (∀ i j n, cand (Old.disjoint_subsets_subgrid iter_sets i j n b) x y ⊆ cand b x y)
  ∧ size (cand (Final.round iter_sets b) x y) ≤ size (cand b x y)
  ∧ size (cand (Old.round iter_nat iter_sets b) x y) ≤ size (cand b x y).
Proof.
  split; [intros; apply shrinks_write_solution|].
  split; [intros; apply shrinks_disjoint_subsets|].
  split; [intros; apply shrinks_pencil_in|].
  split; [intros; apply shrinks_single_candidate_square|].
  split; [intros; apply shrinks_single_sq_candidate_row|].
  split; [intros; apply shrinks_single_sq_candidate_col|].
  split; [intros; apply shrinks_single_sq_candidate_subgrid|].
  split; [intros; apply shrinks_number_claiming_row|].
  split; [intros; apply shrinks_number_claiming_col|].
  split; [intros; apply shrinks_disjoint_subsets_row|].
  split; [intros; apply shrinks_disjoint_subsets_col|].
  split; [intros; apply shrinks_disjoint_subsets_subgrid|].
  split; apply subseteq_size.
  - apply shrinks_final_round.
  - apply shrinks_old_round.
Qed.

(** ** The driver *)

Lemma rounds_until_spec round is_solved k b :
  ∃ j, j ≤ k
    ∧ (rounds_until round is_solved k b).2 = Nat.iter j round b
    ∧ (∀ i, 1 ≤ i < j → is_solved (Nat.iter i round b) = false)
    ∧ match (rounds_until round is_solved k b).1 with
      | Solved => 1 ≤ j ∧ is_solved (Nat.iter j round b) = true
      | Stalled => j = k ∧ (1 ≤ k → is_solved (Nat.iter k round b) = false)
      end.
Proof.
  revert b. induction k as [|k IH]; intros b.
  - exists 0. split; [lia|]. split; [done|]. split; [intros; lia|].
    cbn. split; [done | lia].
  - assert (∀ n, Nat.iter (S n) round b = Nat.iter n round (round b)) as Hit
      by (intros; apply Nat.iter_succ_r).
    cbn [rounds_until]. destruct (is_solved (round b)) eqn:Hs.
    + exists 1. split; [lia|]. split; [done|]. split; [intros; lia|].
      cbn. split; [lia | done].
    + destruct (IH (round b)) as (j & Hj & Hres & Hbefore & Hend).
      exists (S j). rewrite Hit. split_and!; [lia | done | |].
      * intros i Hi. destruct i as [|i]; [lia|]. rewrite Hit.
        destruct i as [|i]; [done|]. apply Hbefore. lia.
      * destruct (rounds_until round is_solved k (round b)).1.
        -- split; [lia | apply Hend].
        -- destruct Hend as [-> Hend]. split; [done|]. intros _. rewrite Hit.
           destruct k as [|k]; [done|]. apply Hend. lia.
Qed.

(** C8. The loop of the driver ends after at most a hundred rounds, on any
    state: it stops at the first round after which [is_solved()] holds,
    with the verdict [Solved]; after a hundred rounds without that it ends
    with the verdict [Stalled], which is an ordinary end and not an error. *)
Theorem driver_terminates
  (iter_nat : gset nat → list nat) (iter_sets : gset (gset nat) → list (gset nat))
  (b : board) :
  (∃ j, j ≤ 100
     ∧ (Final.main_loop iter_sets b).2 = Nat.iter j (Final.round iter_sets) b
     ∧ (∀ i, 1 ≤ i < j →
          Final.is_solved (Nat.iter i (Final.round iter_sets) b) = false)
     ∧ match (Final.main_loop iter_sets b).1 with
       | Solved =>
           1 ≤ j ∧ Final.is_solved (Nat.iter j (Final.round iter_sets) b) = true
       | Stalled =>
           j = 100
           ∧ Final.is_solved (Nat.iter 100 (Final.round iter_sets) b) = false
       end)
  ∧ (∃ j, j ≤ 100
     ∧ (Old.solve iter_nat iter_sets b).2
       = Nat.iter j (Old.round iter_nat iter_sets) b
     ∧ (∀ i, 1 ≤ i < j →
          Old.is_solved (Nat.iter i (Old.round iter_nat iter_sets) b) = false)
     ∧ match (Old.solve iter_nat iter_sets b).1 with
       | Solved =>
           1 ≤ j
           ∧ Old.is_solved (Nat.iter j (Old.round iter_nat iter_sets) b) = true
       | Stalled =>
           j = 100
           ∧ Old.is_solved (Nat.iter 100 (Old.round iter_nat iter_sets) b) = false
       end).
Proof.
  split.
  - unfold Final.main_loop.
    destruct (rounds_until_spec (Final.round iter_sets) Final.is_solved 100 b)
      as (j & Hj & Hres & Hbefore & Hend).
    exists j. split; [exact Hj|]. split; [exact Hres|]. split; [exact Hbefore|].
    destruct (rounds_until _ _ _ _).1; [exact Hend|].
    destruct Hend as [Hj' Hend]. split; [exact Hj'|]. apply Hend.
    apply Nat.lt_0_succ.
  - unfold Old.solve.
    destruct (rounds_until_spec (Old.round iter_nat iter_sets) Old.is_solved 100 b)
      as (j & Hj & Hres & Hbefore & Hend).
    exists j. split; [exact Hj|]. split; [exact Hres|]. split; [exact Hbefore|].
    destruct (rounds_until _ _ _ _).1; [exact Hend|].
    destruct Hend as [Hj' Hend]. split; [exact Hj'|]. apply Hend.
    apply Nat.lt_0_succ.
Qed.

(** ** Reading the puzzle *)

Lemma for_raise_inv {I} (P : board → Prop) (body : I → board → outcome) l :
  (∀ i b, i ∈ l → P b → P (state_of (body i b))) →
  ∀ b, P b → P (state_of (for_raise l body b)).
Proof.
  induction l as [|i l IH]; intros Hbody b Hb; [done|]. simpl.
  pose proof (Hbody i b (list_elem_of_here _ _) Hb) as Hi.
  destruct (body i b) as [b'|e b']; [|done].
  apply IH; [|done]. intros j s Hj. apply Hbody. by right.
Qed.

Lemma for_raise_done {I} (body : I → board → outcome) l :
  (∀ i b, i ∈ l → ∃ b', body i b = Done b') →
  ∀ b, ∃ b', for_raise l body b = Done b'.
Proof.
  induction l as [|i l IH]; intros Hbody b; [by eexists|]. simpl.
  destruct (Hbody i b (list_elem_of_here _ _)) as [b' ->].
  apply IH. intros j s Hj. apply Hbody. by right.
Qed.

Lemma for_raise_done_inv {I} (body : I → board → outcome) l b b' :
  for_raise l body b = Done b' →
  ∀ i, i ∈ l → ∃ b1 b2, body i b1 = Done b2.
Proof.
  revert b. induction l as [|i l IH]; intros b Hdone j Hj.
  - by apply not_elem_of_nil in Hj.
  - simpl in Hdone. destruct (body i b) as [b1|e b1] eqn:E; [|done].
    apply elem_of_cons in Hj as [->|Hj]; [by eauto|]. by eapply IH.
Qed.

Lemma init_read_done line y x b :
  (∃ b', init_read line y x b = Done b')
  ↔ ∃ ch v, line !! x = Some ch ∧ int_of_char ch = Some v.
Proof.
  unfold init_read. split.
  - intros [b' Hb']. destruct (line !! x) as [ch|]; [|done].
    destruct (int_of_char ch) as [v|] eqn:E; [|done]. by exists ch, v.
  - intros (ch & v & -> & ->). case_bool_decide; by eexists.
Qed.

Lemma init_done puzzle : (∃ b, init puzzle = Done b) ↔ digits_text puzzle.
Proof.
  unfold init. split.
  - intros [b Hb] y x Hy Hx.
    destruct (init_grid puzzle) as [b1|e b1] eqn:E; [|discriminate Hb].
    unfold init_grid in E.
    destruct (for_raise_done_inv _ _ _ _ E y) as (b2 & b3 & Hrow).
    { apply elem_of_range. lia. }
    destruct (for_raise_done_inv _ _ _ _ Hrow x) as (b4 & b5 & Hread).
    { apply elem_of_range. lia. }
    apply (init_read_done _ y x b4). by eexists.
  - intros Htext.
    assert (∃ b1, init_grid puzzle = Done b1) as [b1 ->]; [|by eexists].
    unfold init_grid. apply for_raise_done. intros y b Hy.
    apply for_raise_done. intros x b' Hx.
    apply elem_of_range in Hx, Hy. apply init_read_done, Htext; lia.
Qed.

(** ** States of a run of [sudoku_final.py] *)

Lemma filled_no_cand_shrinks b b' :
  filled_no_cand b → shrinks b b' → m_grid b' = m_grid b → filled_no_cand b'.
Proof.
  intros Hb Hsh Hm x y Hxy. apply (anti_symm (⊆)); [|apply empty_subseteq].
  rewrite <- (Hb x y); [apply Hsh|]. unfold mval in *. by rewrite <- Hm.
Qed.

Lemma c_grid_init_read line y x b :
  c_grid (state_of (init_read line y x b)) = c_grid b.
Proof.
  unfold init_read. destruct (line !! x) as [ch|]; [|done].
  destruct (int_of_char ch) as [v|]; [|done]. by case_bool_decide.
Qed.

Lemma c_grid_init_grid puzzle :
  c_grid (state_of (init_grid puzzle)) = c_grid board0.
Proof.
  unfold init_grid.
  apply (for_raise_inv (λ b, c_grid b = c_grid board0)); [|reflexivity].
  intros y b _ Hb.
  apply (for_raise_inv (λ b, c_grid b = c_grid board0)); [|exact Hb].
  intros x b' _ Hb'. by rewrite c_grid_init_read.
Qed.

Lemma cand_board0 x y : cand board0 x y = ∅.
Proof.
  unfold cand, gget, board0. cbn [c_grid].
  destruct (replicate grid_l (replicate grid_l ∅) !! x) as [col|] eqn:Ex;
    [|reflexivity].
  apply lookup_replicate in Ex as [-> _]. cbn [mbind option_bind].
  destruct (replicate grid_l (∅ : gset nat) !! y) as [s|] eqn:Ey; [|reflexivity].
  by apply lookup_replicate in Ey as [-> _].
Qed.

Lemma filled_no_cand_init_candidates y x b :
  filled_no_cand b → filled_no_cand (init_candidates y x b).
Proof.
  intros Hb. unfold init_candidates. case_bool_decide as Hm; [|exact Hb].
  intros qx qy Hq. destruct (decide ((x, y) = (qx, qy))) as [[= <- <-]|Hne].
  - contradiction.
  - rewrite cand_upd_c_ne by exact Hne. by apply Hb.
Qed.

Lemma filled_no_cand_init puzzle b : init puzzle = Done b → filled_no_cand b.
Proof.
  unfold init. intros Hinit. pose proof (c_grid_init_grid puzzle) as Hc.
  destruct (init_grid puzzle) as [b1|e b1]; [|discriminate Hinit].
  assert (b = init_candidate_sets b1) as -> by congruence.
  unfold init_candidate_sets. apply (for_each_inv filled_no_cand).
  - intros y s _ Hs. apply (for_each_inv filled_no_cand); [|exact Hs].
    intros x s' _. apply filled_no_cand_init_candidates.
  - intros x y _. unfold cand. cbn [state_of] in Hc. rewrite Hc.
    apply cand_board0.
Qed.






Lemma forallb_range (f : nat → bool) a b :
  forallb f (range a b) = true ↔ ∀ i, a ≤ i < b → f i = true.
Proof.
  rewrite forallb_forall. setoid_rewrite <- list_elem_of_In.
  by setoid_rewrite elem_of_range.
Qed.


Lemma old_is_solved_iff b :
  Old.is_solved b = true ↔ ∀ y, y < 9 → size (sget (row_set b) y) = 9.
Proof.
  unfold Old.is_solved. rewrite forallb_range. split.
  - intros Hall y Hy. eapply bool_decide_eq_true_1, Hall. lia.
  - intros Hall y Hy. apply bool_decide_eq_true_2, Hall. lia.
Qed.

(** ** Evaluation on the example puzzles *)

(** A conjunction of closed equations, each settled by evaluation. *)
Ltac by_computation :=
  repeat lazymatch goal with |- _ ∧ _ => split end; vm_compute; reflexivity.

(** Case analysis on a natural number below nine. *)
Ltac below_nine x H tac :=
  unfold grid_l in H;
  do 9 (destruct x as [|x]; [tac|]);
  exfalso; lia.

(** ** [is_solved] *)




(** ** Elimination of disjoint subsets *)

Lemma elem_of_enumeration {A} `{Countable A} (iter : gset A → list A) X a :
  enumeration iter → a ∈ iter X ↔ a ∈ X.
Proof. intros Hiter. by rewrite (Hiter X), elem_of_elements. Qed.

Lemma cand_remove_subset d x y b qx qy :
  cand (remove_subset d x y b) qx qy
  = if decide ((qx, qy) = (x, y)) then elim1 d (cand b qx qy) else cand b qx qy.
Proof.
  unfold remove_subset, elim1. case_decide as Hq.
  - injection Hq as -> ->. case_bool_decide as Hsub; [done|].
    rewrite cand_upd_c_eq. unfold cand, gget in *.
    destruct (c_grid b !! x ≫= _); [done|]. exfalso. apply Hsub. set_solver.
  - case_bool_decide; [done|]. apply cand_upd_c_ne. congruence.
Qed.

Lemma cand_remove_subset_cells d l b qx qy :
  NoDup l →
  cand (for_each l (λ p, remove_subset d p.1 p.2) b) qx qy
  = if decide ((qx, qy) ∈ l) then elim1 d (cand b qx qy) else cand b qx qy.
Proof.
  revert b. induction l as [|[px py] l IH]; intros b Hnd.
  - rewrite for_each_nil. by rewrite decide_False by apply not_elem_of_nil.
  - apply NoDup_cons in Hnd as [Hp Hnd]. rewrite for_each_cons, IH by done.
    cbn [fst snd]. rewrite cand_remove_subset.
    destruct (decide ((qx, qy) = (px, py))) as [[= -> ->]|Hne].
    + rewrite decide_False by done. rewrite decide_True by left. done.
    + destruct (decide ((qx, qy) ∈ l)) as [Hin|Hnin].
      * rewrite decide_True by (by right). done.
      * rewrite decide_False; [done|]. rewrite elem_of_cons. tauto.
Qed.

Lemma cand_eliminate_cells ds l b qx qy :
  NoDup l →
  cand (for_each ds (λ d, for_each l (λ p, remove_subset d p.1 p.2)) b) qx qy
  = if decide ((qx, qy) ∈ l) then eliminate ds (cand b qx qy) else cand b qx qy.
Proof.
  intros Hnd. unfold eliminate. revert b.
  induction ds as [|d ds IH]; intros b.
  - rewrite !for_each_nil. by case_decide.
  - rewrite !for_each_cons, IH, cand_remove_subset_cells by done.
    by case_decide.
Qed.

(** The candidate sets after [disjoint_subsets]: outside the unit they are
    as before; in the unit each is what the subsets found in the state
    before the call, taken in the order of the enumeration, make of it. *)
Lemma cand_disjoint_subsets iter_sets xr yr n b qx qy :
  cand (Final.disjoint_subsets iter_sets xr yr n b) qx qy
  = if decide ((qx, qy) ∈ cells xr yr)
    then eliminate (iter_sets (Final.d_subsets xr yr n b)) (cand b qx qy)
    else cand b qx qy.
Proof.
  unfold Final.disjoint_subsets.
  rewrite (for_each_ext _
             (λ d, for_each (cells xr yr) (λ p, remove_subset d p.1 p.2))).
  - apply cand_eliminate_cells, NoDup_cells.
  - intros d s _. apply (for_each_cells (λ x y, remove_subset d x y)).
Qed.

(** *** The effect of a list of subsets on one candidate set *)

Lemma eliminate_nil s : eliminate [] s = s.
Proof. done. Qed.

Lemma eliminate_cons d ds s : eliminate (d :: ds) s = eliminate ds (elim1 d s).
Proof. done. Qed.

Lemma eliminate_empty ds : eliminate ds ∅ = ∅.
Proof.
  induction ds as [|d ds IH]; [done|]. rewrite eliminate_cons.
  unfold elim1. rewrite bool_decide_eq_true_2; [done | apply empty_subseteq].
Qed.

(** A candidate set that each subset contains or misses altogether stays. *)
Lemma eliminate_unaffected ds s :
  (∀ d, d ∈ ds → s ⊆ d ∨ s ## d) → eliminate ds s = s.
Proof.
  induction ds as [|d ds IH]; intros Hds; [done|]. rewrite eliminate_cons.
  assert (elim1 d s = s) as ->.
  { unfold elim1. case_bool_decide as Hsub; [done|].
    destruct (Hds d) as [?|Hdisj]; [left | done |]. set_solver. }
  apply IH. intros d' Hd'. apply Hds. by right.
Qed.

Lemma eliminate_settled_aux ds s s' v :
  v ∈ s' → s' ⊆ s → (∀ d, d ∈ ds → s ⊆ d ∨ v ∉ d) →
  ∀ a, a ∈ eliminate ds s' ↔ a ∈ s' ∧ ∀ d, d ∈ ds → ¬ s ⊆ d → a ∉ d.
Proof.
  revert s'. induction ds as [|d ds IH]; intros s' Hv Hs' Hds a.
  - rewrite eliminate_nil. split; [|tauto]. intros Ha. split; [done|].
    intros d Hd. by apply not_elem_of_nil in Hd.
  - rewrite eliminate_cons. unfold elim1.
    assert (∀ d', d' ∈ ds → s ⊆ d' ∨ v ∉ d') as Hds'
      by (intros d' Hd'; apply Hds; by right).
    destruct (Hds d (list_elem_of_here _ _)) as [Hsub|Hvd].
    + rewrite bool_decide_eq_true_2 by set_solver.
      rewrite (IH s' Hv Hs' Hds'). split.
      * intros [Ha Hall]. split; [done|]. intros d' Hd' Hnsub.
        apply elem_of_cons in Hd' as [->|Hd']; [done | by apply Hall].
      * intros [Ha Hall]. split; [done|]. intros d' Hd'. apply Hall. by right.
    + rewrite bool_decide_eq_false_2 by set_solver.
      rewrite (IH (s' ∖ d)); [|set_solver..|done]. split.
      * intros [Ha Hall]. split; [set_solver|]. intros d' Hd' Hnsub.
        apply elem_of_cons in Hd' as [->|Hd']; [set_solver | by apply Hall].
      * intros [Ha Hall]. split.
        -- apply elem_of_difference. split; [done|]. apply Hall; [left|].
           intros Hsub. apply Hvd, Hsub, Hs', Hv.
        -- intros d' Hd'. apply Hall. by right.
Qed.

(** A settled candidate set loses exactly the members of the subsets that
    do not contain it, whatever their order. *)
Lemma eliminate_settled ds s a :
  settled s ds →
  a ∈ eliminate ds s ↔ a ∈ s ∧ ∀ d, d ∈ ds → ¬ s ⊆ d → a ∉ d.
Proof. intros (v & Hv & Hds). by apply (eliminate_settled_aux ds s s v). Qed.

Lemma eliminate_settled_perm ds1 ds2 s :
  ds1 ≡ₚ ds2 → s = ∅ ∨ settled s ds1 → eliminate ds1 s = eliminate ds2 s.
Proof.
  intros Hperm [->|Hs]; [by rewrite !eliminate_empty|].
  assert (settled s ds2) as Hs2.
  { destruct Hs as (v & Hv & Hds). exists v. split; [done|].
    intros d Hd. apply Hds. by rewrite Hperm. }
  apply set_eq. intros a. rewrite !eliminate_settled by done.
  by setoid_rewrite Hperm.
Qed.

(** *** The subsets found *)

Lemma for_each_collect {A B} (P : A → Prop) `{!∀ a, Decision (P a)}
    (f : A → B) l acc :
  for_each l (λ a acc, if bool_decide (P a) then acc ++ [f a] else acc) acc
  = acc ++ (f <$> filter P l).
Proof.
  revert acc. induction l as [|a l IH]; intros acc.
  - by rewrite for_each_nil, app_nil_r.
  - rewrite for_each_cons, IH, filter_cons. case_bool_decide.
    + rewrite decide_True by done. by rewrite <- app_assoc.
    + by rewrite decide_False by done.
Qed.

Lemma small_sets_eq xr yr n b :
  Final.small_sets xr yr n b
  = (λ p, cand b p.1 p.2) <$> filter (small n b) (cells xr yr).
Proof.
  unfold Final.small_sets.
  rewrite (for_each_cells
             (λ x y sets,
                if bool_decide (1 < size (cand b x y) ∧ size (cand b x y) ≤ n)
                then sets ++ [cand b x y] else sets)).
  etrans;
    [apply (for_each_collect
              (λ p, 1 < size (cand b p.1 p.2) ∧ size (cand b p.1 p.2) ≤ n)
              (λ p, cand b p.1 p.2))|].
  done.
Qed.

Lemma superset_union_list (combination : list (gset nat)) acc :
  for_each combination (λ c superset, superset ∪ c) acc = acc ∪ ⋃ combination.
Proof.
  revert acc. induction combination as [|c l IH]; intros acc.
  - rewrite for_each_nil. set_solver.
  - rewrite for_each_cons, IH. set_solver.
Qed.

Lemma elem_of_get_disjoint_subsets sets n D :
  D ∈ get_disjoint_subsets sets n ↔
  ∃ combination, combination ∈ combinations n sets
                 ∧ ⋃ combination = D ∧ size D = n.
Proof.
  unfold get_disjoint_subsets.
  assert (∀ l (acc : gset (gset nat)),
    D ∈ for_each l
          (λ combination disjoint_subsets,
             let superset := for_each combination (λ c superset, superset ∪ c) ∅ in
             if bool_decide (size superset = n)
             then disjoint_subsets ∪ {[superset]} else disjoint_subsets) acc
    ↔ D ∈ acc ∨ ∃ combination, combination ∈ l
                                ∧ ⋃ combination = D ∧ size D = n) as Hgen.
  { induction l as [|c l IH]; intros acc.
    - rewrite for_each_nil. split; [by left|].
      intros [?|(c & Hc & _)]; [done | by apply not_elem_of_nil in Hc].
    - rewrite for_each_cons, IH. cbv zeta.
      rewrite superset_union_list, (left_id_L ∅ (∪)). split.
      + intros [Hacc|(c' & Hc' & Hu)].
        * case_bool_decide as Hsz; [|by left].
          apply elem_of_union in Hacc as [?|Heq]; [by left|].
          apply elem_of_singleton in Heq as ->. right. exists c.
          split; [left | done].
        * right. exists c'. split; [by right | done].
      + intros [Hacc|(c' & Hc' & Hu & Hsz)].
        * left. case_bool_decide; [set_solver | done].
        * apply elem_of_cons in Hc' as [->|Hc'].
          -- left. rewrite Hu, bool_decide_eq_true_2 by done. set_solver.
          -- right. by exists c'. }
  rewrite Hgen. split; [|by right]. intros [Hin|?]; [set_solver | done].
Qed.

Lemma elem_of_combinations {A} (k l : list A) n :
  k `sublist_of` l → length k = n → k ∈ combinations n l.
Proof.
  intros Hsub <-. revert Hsub.
  revert k. induction l as [|a l IH]; intros k Hsub.
  - apply sublist_nil_r in Hsub as ->. simpl. left.
  - apply sublist_cons_r in Hsub as [Hsub|(k' & -> & Hsub)].
    + destruct k as [|a' k']; [simpl; left|].
      cbn [length combinations]. apply elem_of_app. right. by apply (IH (a' :: k')).
    + cbn [length combinations]. apply elem_of_app. left.
      apply list_elem_of_fmap. exists k'. split; [done | by apply IH].
Qed.

(** [n] distinct small squares of a unit whose candidates are [n] values in
    all make a disjoint subset that the technique finds. *)
Lemma d_subsets_found xr yr n b (ps : list (nat * nat)) :
  NoDup ps → length ps = n →
  (∀ p, p ∈ ps → p ∈ cells xr yr ∧ small n b p) →
  size (⋃ ((λ p, cand b p.1 p.2) <$> ps)) = n →
  ⋃ ((λ p, cand b p.1 p.2) <$> ps) ∈ Final.d_subsets xr yr n b.
Proof.
  intros Hnd Hlen Hps Hsize. unfold Final.d_subsets.
  apply elem_of_get_disjoint_subsets.
  set (ps' := filter (.∈ ps) (cells xr yr)).
  assert (ps' ≡ₚ ps) as Hperm.
  { apply NoDup_Permutation; [apply NoDup_filter, NoDup_cells | done |].
    intros p. unfold ps'. rewrite list_elem_of_filter. naive_solver. }
  exists ((λ p, cand b p.1 p.2) <$> ps'). split_and!.
  - apply elem_of_combinations; [|by rewrite length_fmap, Hperm].
    rewrite small_sets_eq. apply fmap_sublist. unfold ps'.
    assert (filter (.∈ ps) (cells xr yr)
            = filter (.∈ ps) (filter (small n b) (cells xr yr))) as ->.
    { rewrite list_filter_filter. apply list_filter_iff. intros p.
      split; [|tauto]. intros Hp. split; [done | by apply Hps]. }
    apply sublist_filter.
  - by rewrite Hperm.
  - done.
Qed.

Lemma settled_perm s ds1 ds2 : ds1 ≡ₚ ds2 → settled s ds1 → settled s ds2.
Proof.
  intros Hperm (v & Hv & Hds). exists v. split; [done|].
  intros d Hd. apply Hds. by rewrite Hperm.
Qed.

(** The three functions of the older file are [disjoint_subsets] on a row,
    on a column and on a sub-grid. *)
Lemma range_single i : range i (i + 1) = [i].
Proof. unfold range. by replace (i + 1 - i) with 1 by lia. Qed.

Lemma for_each_single {I S} (body : I → S → S) i s :
  for_each [i] body s = body i s.
Proof. reflexivity. Qed.

Lemma disjoint_subsets_row_eq iter_sets y n b :
  Old.disjoint_subsets_row iter_sets y n b
  = Final.disjoint_subsets iter_sets (0, 9) (y, y + 1) n b.
Proof.
  unfold Old.disjoint_subsets_row, Final.disjoint_subsets, Final.d_subsets,
    Final.small_sets.
  cbn [fst snd]. rewrite (range_single y), for_each_single.
  apply for_each_ext. intros d s _. by rewrite for_each_single.
Qed.

Lemma disjoint_subsets_col_eq iter_sets x n b :
  Old.disjoint_subsets_col iter_sets x n b
  = Final.disjoint_subsets iter_sets (x, x + 1) (0, 9) n b.
Proof.
  unfold Old.disjoint_subsets_col, Final.disjoint_subsets, Final.d_subsets,
    Final.small_sets.
  cbn [fst snd]. rewrite (range_single x).
  assert (∀ acc,
    for_each (range 0 9)
      (λ y sets,
         if bool_decide (1 < size (cand b x y) ∧ size (cand b x y) ≤ n)
         then sets ++ [cand b x y] else sets) acc
    = for_each (range 0 9)
        (λ y, for_each [x]
                (λ x0 sets,
                   if bool_decide (1 < size (cand b x0 y) ∧ size (cand b x0 y) ≤ n)
                   then sets ++ [cand b x0 y] else sets)) acc) as ->.
  { intros acc. apply for_each_ext. intros y s _.
    by rewrite for_each_single. }
  apply for_each_ext. intros d s _. apply for_each_ext. intros y s' _.
  by rewrite for_each_single.
Qed.

Lemma disjoint_subsets_subgrid_eq iter_sets sx sy n b :
  Old.disjoint_subsets_subgrid iter_sets sx sy n b
  = Final.disjoint_subsets iter_sets
      (sx * 3, sx * 3 + 3) (sy * 3, sy * 3 + 3) n b.
Proof.
  unfold Old.disjoint_subsets_subgrid, Final.disjoint_subsets,
    Final.d_subsets, Final.small_sets.
  cbn [fst snd]. reflexivity.
Qed.

(** C1, as the code has it.  [n] distinct squares of a unit, each with more
    than one and at most [n] candidates, whose candidates are [n] values
    [D] in all: [D] is one of the subsets the call finds.  After the call, a
    square of the unit whose candidate set is not included in [D] and has a
    member outside every found subset that does not contain the whole set
    has lost all of [D]; a square of the unit whose candidate set each found
    subset contains or misses altogether is as before.  When [D] is the only
    subset found, every square of the unit not included in [D] has lost
    exactly [D], and the [n] squares are as before. *)
Theorem disjoint_subset_elimination
  (iter_sets : gset (gset nat) → list (gset nat)) (b : board)
  (xr yr : nat * nat) (n : nat) (ps : list (nat * nat)) :
  enumeration iter_sets →
  NoDup ps → length ps = n →
  (∀ p, p ∈ ps →
     p ∈ cells xr yr ∧ 1 < size (cand b p.1 p.2) ∧ size (cand b p.1 p.2) ≤ n) →
  size (⋃ ((λ p, cand b p.1 p.2) <$> ps)) = n →
  let D := ⋃ ((λ p, cand b p.1 p.2) <$> ps) in
  let ds := iter_sets (Final.d_subsets xr yr n b) in
  let b' := Final.disjoint_subsets iter_sets xr yr n b in
  D ∈ ds
  ∧ (∀ x y, (x, y) ∈ cells xr yr →
       cand b x y ⊈ D → settled (cand b x y) ds → cand b' x y ## D)
  ∧ (∀ x y, (x, y) ∈ cells xr yr →
       (∀ d, d ∈ ds → cand b x y ⊆ d ∨ cand b x y ## d) →
       cand b' x y = cand b x y)
  ∧ ((∀ d, d ∈ ds → d = D) →
     (∀ x y, (x, y) ∈ cells xr yr →
        cand b x y ⊈ D → cand b' x y = cand b x y ∖ D)
     ∧ (∀ p, p ∈ ps → cand b' p.1 p.2 = cand b p.1 p.2)).
Proof.
  intros Hiter Hnd Hlen Hps Hsize D ds b'.
  assert (D ∈ ds) as HD.
  { apply elem_of_enumeration; [done|]. by apply d_subsets_found. }
  assert (∀ x y, (x, y) ∈ cells xr yr → cand b' x y = eliminate ds (cand b x y))
    as Hcand.
  { intros x y Hxy. unfold b'. rewrite cand_disjoint_subsets.
    by rewrite decide_True. }
  split; [done|]. split_and!.
  - intros x y Hxy Hsub Hset. rewrite Hcand by done.
    intros a Ha HaD. apply eliminate_settled in Ha as [_ Hall]; [|done].
    by apply (Hall D).
  - intros x y Hxy Hds. rewrite Hcand by done. by apply eliminate_unaffected.
  - intros Hone. split.
    + intros x y Hxy Hsub. rewrite Hcand by done.
      assert (∃ v, v ∈ cand b x y ∧ v ∉ D) as (v & Hv & HvD).
      { destruct (set_choose_or_empty (cand b x y ∖ D)) as [[v Hv]|Hempty].
        - exists v. set_solver.
        - exfalso. apply Hsub. set_solver. }
      apply set_eq. intros a. rewrite eliminate_settled.
      * rewrite elem_of_difference. split.
        -- intros [Ha Hall]. split; [done|]. by apply Hall.
        -- intros [Ha HaD]. split; [done|]. intros d Hd _.
           by rewrite (Hone d Hd).
      * exists v. split; [done|]. intros d Hd. right. by rewrite (Hone d Hd).
    + intros p Hp. destruct p as [x y]. cbn [fst snd].
      rewrite Hcand by apply Hps, Hp. apply eliminate_unaffected.
      intros d Hd. left. rewrite (Hone d Hd). unfold D.
      intros a Ha. apply elem_of_union_list. exists (cand b x y).
      split; [|done]. apply list_elem_of_fmap. by exists (x, y).
Qed.

(** C6, as the code has it.  The subsets are all found in the state before
    the call; the eliminations are then made one subset after the other,
    each on the candidate sets as the subsets before it have left them.  A
    candidate set that is empty, or that has a member outside every found
    subset that does not contain the whole set, ends the same whatever the
    order in which the subsets are taken. *)
Theorem elimination_order
  (iter1 iter2 : gset (gset nat) → list (gset nat)) (b : board)
  (xr yr : nat * nat) (n : nat) :
  enumeration iter1 → enumeration iter2 →
  let found := Final.d_subsets xr yr n b in
  let b1 := Final.disjoint_subsets iter1 xr yr n b in
  let b2 := Final.disjoint_subsets iter2 xr yr n b in
  (∀ x y, (x, y) ∈ cells xr yr →
     cand b1 x y = eliminate (iter1 found) (cand b x y))
  ∧ (∀ x y, (x, y) ∉ cells xr yr →
       cand b1 x y = cand b x y ∧ cand b2 x y = cand b x y)
  ∧ (∀ x y, cand b x y = ∅ ∨ settled (cand b x y) (elements found) →
       cand b1 x y = cand b2 x y).
Proof.
  intros Hiter1 Hiter2 found b1 b2. unfold b1, b2. split_and!.
  - intros x y Hxy. rewrite cand_disjoint_subsets. by rewrite decide_True.
  - intros x y Hxy. rewrite !cand_disjoint_subsets. by rewrite !decide_False.
  - intros x y Hs. rewrite !cand_disjoint_subsets. case_decide; [|done].
    apply eliminate_settled_perm.
    + by rewrite (Hiter1 _), (Hiter2 _).
    + destruct Hs as [->|Hs]; [by left | right].
      eapply settled_perm; [|done]. symmetry. apply Hiter1.
Qed.

Lemma enumeration_elements {A} `{Countable A} : enumeration (elements (C := gset A)).
Proof. by intros X. Qed.

Lemma enumeration_reversed_elements : enumeration reversed_elements.
Proof. intros X. unfold reversed_elements. apply reverse_Permutation. Qed.

(** A decidable proposition that evaluates to true. *)
Ltac by_decision :=
  lazymatch goal with
  | |- ?P => let H := constr:(bool_decide_unpack P) in
             apply H; vm_compute; exact I
  end.

Lemma disjoint_subset_elimination_witness :
  ⋃ ((λ p, cand crossed_board p.1 p.2) <$> [(0, 0); (1, 0)])
    ∈ elements (Final.d_subsets (0, 9) (0, 1) 2 crossed_board)
  ∧ cand (Final.disjoint_subsets elements (0, 9) (0, 1) 2 crossed_board) 0 0
    = cand crossed_board 0 0.
Proof.
  destruct (disjoint_subset_elimination elements crossed_board (0, 9) (0, 1) 2
              [(0, 0); (1, 0)]) as (Hfound & _ & Hsame & _).
  - apply enumeration_elements.
  - by_decision.
  - reflexivity.
  - apply Forall_forall. by_decision.
  - vm_compute. reflexivity.
  - split; [exact Hfound|]. apply Hsame.
    + by_decision.
    + apply Forall_forall. by_decision.
Defined.

(** C1 as stated fails, in two ways.

    In the first row of [shared_pair_board] the squares 0, 1 and 2 hold
    {2,3}, {2,3} and {1,2}: with [n = 3] they make the disjoint subset
    {1,2,3}.  The squares 0, 1 and 3 ({3,4}) make another, {2,3,4}, which
    does not contain {1,2}: the square 2, one of the three squares of the
    first subset, loses 2, in either order.

    In the first row of [crossed_board] the squares 0 and 1 hold {1,2} and
    the squares 2 and 3 hold {3,4}: with [n = 2] both are disjoint subsets.
    The square 4 holds {1,2,3}, included in neither, and yet keeps 3 when
    {1,2} is taken first (what is left, {3}, is included in {3,4}) and
    keeps 1 and 2 when {3,4} is taken first. *)
Lemma disjoint_subset_claim_fails :
  (cand shared_pair_board 0 0 = {[2; 3]} ∧ cand shared_pair_board 1 0 = {[2; 3]}
   ∧ cand shared_pair_board 2 0 = {[1; 2]}
   ∧ cand shared_pair_board 3 0 = {[3; 4]}
   ∧ cand (Final.disjoint_subsets elements (0, 9) (0, 1) 3 shared_pair_board)
       2 0
     = {[1]}
   ∧ cand (Final.disjoint_subsets reversed_elements (0, 9) (0, 1) 3
             shared_pair_board) 2 0
     = {[1]})
  ∧ (cand crossed_board 0 0 = {[1; 2]} ∧ cand crossed_board 1 0 = {[1; 2]}
     ∧ cand crossed_board 2 0 = {[3; 4]} ∧ cand crossed_board 3 0 = {[3; 4]}
     ∧ cand crossed_board 4 0 = {[1; 2; 3]}
     ∧ elements (Final.d_subsets (0, 9) (0, 1) 2 crossed_board)
       = [{[1; 2]}; {[3; 4]}]
     ∧ cand (Final.disjoint_subsets elements (0, 9) (0, 1) 2 crossed_board) 4 0
       = {[3]}
     ∧ cand (Final.disjoint_subsets reversed_elements (0, 9) (0, 1) 2
               crossed_board) 4 0
       = {[1; 2]}).
Proof. by_computation. Qed.

Lemma elimination_order_witness :
  cand (Final.disjoint_subsets elements (0, 9) (0, 1) 2 crossed_board) 0 0
  = cand (Final.disjoint_subsets reversed_elements (0, 9) (0, 1) 2 crossed_board)
      0 0.
Proof.
  destruct (elimination_order elements reversed_elements crossed_board
              (0, 9) (0, 1) 2) as (_ & _ & Hsame).
  - apply enumeration_elements.
  - apply enumeration_reversed_elements.
  - apply Hsame. right. exists 1. split; [by_decision|].
    apply Forall_forall. by_decision.
Defined.

(** C6 as stated fails: on the first row of [crossed_board], with [n = 2],
    the two orders in which the subsets {1,2} and {3,4} can be taken leave
    different candidate sets in the square 4. *)
Lemma elimination_depends_on_order :
  enumeration reversed_elements
  ∧ cand (Final.disjoint_subsets elements (0, 9) (0, 1) 2 crossed_board) 4 0
    ≠ cand (Final.disjoint_subsets reversed_elements (0, 9) (0, 1) 2
              crossed_board) 4 0.
Proof.
  split; [apply enumeration_reversed_elements|].
  lazymatch goal with
  | |- ¬ ?P => let H := constr:(bool_decide_eq_false_1 P) in apply H
  end.
  vm_compute. reflexivity.
Qed.

(** ** Placements on an example *)

Lemma placement_propagates_witness :
  placed_at 1 0 0 (Old.pencil_in 1 0 0 one_blank_board)
  ∧ placed_at 1 0 0 (Final.write_solution_place 1 0 0 one_blank_board)
  ∧ placed_at 1 0 0 (Final.write_solution 0 one_blank_board).
Proof.
  destruct (placement_propagates 1 0 0 one_blank_board) as (Hold & Hnew & Hrow).
  - by_decision.
  - unfold grid_l. lia.
  - unfold grid_l. lia.
  - split; [exact Hold|]. split; [exact Hnew|]. apply Hrow.
    vm_compute. reflexivity.
Defined.

Lemma placement_frame_witness :
  mval (Old.pencil_in 5 0 0 crossed_board) 4 4 = mval crossed_board 4 4
  ∧ mval (Final.write_solution_place 5 0 0 crossed_board) 4 4
    = mval crossed_board 4 4
  ∧ cand (Old.pencil_in 5 0 0 crossed_board) 4 4 = cand crossed_board 4 4
  ∧ cand (Final.write_solution_place 5 0 0 crossed_board) 4 4
    = cand crossed_board 4 4.
Proof.
  destruct (placement_frame 5 0 0 crossed_board 4 4) as (Hold & Hnew & Hcand).
  - discriminate.
  - split; [exact Hold|]. split; [exact Hnew|]. apply Hcand.
    + discriminate.
    + discriminate.
    + vm_compute. intros [Hx _]. discriminate Hx.
Defined.

(** ** Hidden singles *)

Lemma NoDup_split_eq {A} (l1 l2 k1 k2 : list A) a :
  NoDup (l1 ++ a :: k1) → l1 ++ a :: k1 = l2 ++ a :: k2 → l1 = l2.
Proof.
  revert l2. induction l1 as [|c l1 IH]; intros [|d l2] Hnd Heq.
  - done.
  - exfalso. injection Heq as <- ->. apply NoDup_cons in Hnd as [Hn _].
    apply Hn. set_solver.
  - exfalso. injection Heq as -> _. apply NoDup_cons in Hnd as [Hn _].
    apply Hn. set_solver.
  - injection Heq as -> Heq. f_equal. apply NoDup_cons in Hnd as [_ Hnd].
    by apply IH.
Qed.

Lemma NoDup_enumeration {A} `{Countable A} (iter : gset A → list A) X :
  enumeration iter → NoDup (iter X).
Proof. intros Hiter. rewrite (Hiter X). apply NoDup_elements. Qed.

(** The counting loop of the three functions: the number of the members of
    [l] that satisfy [P], and the last of them. *)
Lemma scan_count {I} (P : I → Prop) `{!∀ i, Decision (P i)} (l : list I) c0 p0 :
  for_each l
    (λ i '(count, prev), if bool_decide (P i) then (count + 1, i) else (count, prev))
    (c0, p0)
  = (c0 + length (filter P l), default p0 (last (filter P l))).
Proof.
  revert c0 p0. induction l as [|i l IH]; intros c0 p0.
  - rewrite for_each_nil. simpl. f_equal. lia.
  - rewrite for_each_cons, filter_cons. case_bool_decide.
    + rewrite decide_True by done. rewrite IH. cbn [length].
      f_equal; [lia|]. rewrite last_cons. by destruct (last (filter P l)).
    + rewrite decide_False by done. apply IH.
Qed.

Section HiddenSingle.
Context {I : Type} (cell : I → nat * nat) (l : list I).

Lemma hidden_single_step_scan w b (p0 : I) :
  (let '(count, prev) :=
     for_each l
       (λ i '(count, prev),
          if bool_decide (w ∈ cand b (cell i).1 (cell i).2)
          then (count + 1, i) else (count, prev))
       (0, p0) in
   if bool_decide (count = 1) then Old.pencil_in w (cell prev).1 (cell prev).2 b
   else b)
  = hidden_single_step cell l w b.
Proof.
  rewrite (scan_count (λ i, w ∈ cand b (cell i).1 (cell i).2)).
  unfold hidden_single_step, holders.
  by destruct (filter _ l) as [|i [|j k]].
Qed.

Lemma hidden_single_step_skip w b :
  length (holders cell l w b) ≠ 1 → hidden_single_step cell l w b = b.
Proof.
  unfold hidden_single_step. by destruct (holders cell l w b) as [|i [|j k]].
Qed.

Lemma placed_at_hidden_single_step v x y w b :
  placed_at v x y b → placed_at v x y (hidden_single_step cell l w b).
Proof.
  intros Hp. unfold hidden_single_step.
  destruct (holders cell l w b) as [|i [|j k]] eqn:E; try done.
  assert (w ∈ cand b (cell i).1 (cell i).2) as Hw.
  { assert (i ∈ holders cell l w b) as Hi by (rewrite E; left).
    unfold holders in Hi. by apply list_elem_of_filter in Hi as [? _]. }
  apply (placed_at_preserved _ _ _ b); [done | apply shrinks_pencil_in |].
  apply (mval_place_frame _ m_grid_pencil_in). intros Heq.
  destruct Hp as (_ & Hc & _). destruct (cell i) as [qx qy].
  cbn [fst snd] in *. injection Heq as -> ->. rewrite Hc in Hw.
  by apply not_elem_of_empty in Hw.
Qed.

Lemma shrinks_hidden_single_step w b : shrinks b (hidden_single_step cell l w b).
Proof.
  unfold hidden_single_step.
  destruct (holders cell l w b) as [|i [|j k]];
    [apply shrinks_refl | apply shrinks_pencil_in | apply shrinks_refl].
Qed.

Lemma dims_hidden_single_step w b :
  dims (m_grid b) → dims (m_grid (hidden_single_step cell l w b)).
Proof.
  intros Hd. unfold hidden_single_step.
  destruct (holders cell l w b) as [|i [|j k]]; try done.
  rewrite m_grid_pencil_in. by apply dims_gupd.
Qed.

(** The only square of a value is still its only square in a later state in
    which it is a candidate there. *)
Lemma holders_shrinks v i0 b s :
  shrinks b s → holders cell l v b = [i0] →
  v ∈ cand s (cell i0).1 (cell i0).2 → holders cell l v s = [i0].
Proof.
  intros Hsh Hlone Hv. unfold holders in *.
  rewrite <- (list_filter_filter_l
                (λ i, v ∈ cand s (cell i).1 (cell i).2)
                (λ i, v ∈ cand b (cell i).1 (cell i).2)).
  - rewrite Hlone, filter_cons, decide_True by done. done.
  - intros i. apply Hsh.
Qed.

(** The state when the loop comes to [v]: either [v] is still a candidate of
    its square, or a value taken before it has been placed there. *)
Lemma hidden_single_prefix pre v i0 b :
  dims (m_grid b) → (cell i0).1 < grid_l → (cell i0).2 < grid_l →
  v ∉ pre → v ∈ cand b (cell i0).1 (cell i0).2 →
  shrinks b (for_each pre (hidden_single_step cell l) b)
  ∧ dims (m_grid (for_each pre (hidden_single_step cell l) b))
  ∧ (v ∈ cand (for_each pre (hidden_single_step cell l) b) (cell i0).1 (cell i0).2
     ∨ ∃ w, w ∈ pre ∧ w ∈ cand b (cell i0).1 (cell i0).2
            ∧ placed_at w (cell i0).1 (cell i0).2
                (for_each pre (hidden_single_step cell l) b)).
Proof.
  intros Hd Hx Hy Hpre Hv. induction pre as [|w pre IH] using rev_ind.
  - rewrite for_each_nil. split; [apply shrinks_refl|]. split; [done|]. by left.
  - rewrite for_each_app, for_each_cons, for_each_nil.
    destruct IH as (Hsh & Hds & Hcase); [set_solver|].
    set (s := for_each pre (hidden_single_step cell l) b) in *.
    split; [|split].
    + eapply shrinks_trans; [exact Hsh | apply shrinks_hidden_single_step].
    + by apply dims_hidden_single_step.
    + destruct Hcase as [Hvs|(w0 & Hw0 & Hw0b & Hplaced)].
      2:{ right. exists w0. split; [set_solver|]. split; [done|].
          by apply placed_at_hidden_single_step. }
      unfold hidden_single_step.
      destruct (holders cell l w s) as [|i [|j k]] eqn:E; [by left| |by left].
      assert (w ∈ cand s (cell i).1 (cell i).2) as Hw.
      { assert (i ∈ holders cell l w s) as Hi by (rewrite E; left).
        unfold holders in Hi. by apply list_elem_of_filter in Hi as [? _]. }
      destruct (decide (cell i = cell i0)) as [Heq|Hne].
      * right. exists w. rewrite Heq in *. split; [set_solver|].
        split; [by apply Hsh|].
        by apply (placed_at_place _ c_grid_pencil_in m_grid_pencil_in).
      * left. rewrite (cand_place _ c_grid_pencil_in).
        unfold cand, gget in Hvs.
        destruct (c_grid s !! (cell i0).1 ≫= _) as [s0|]; [|set_solver].
        cbn [default] in Hvs. unfold placed_cand. cbv zeta.
        rewrite (decide_False (P := _ = _)).
        2:{ intros Heq. apply Hne. destruct (cell i), (cell i0).
            cbn [fst snd] in Heq. congruence. }
        assert (v ≠ w) by set_solver.
        case_decide; [|done]. unfold discard. set_solver.
Qed.

Lemma before_split pre post v w :
  NoDup (pre ++ v :: post) → before w v (pre ++ v :: post) ↔ w ∈ pre.
Proof.
  intros Hnd. split.
  - intros (pre' & post' & Heq & Hw).
    by rewrite (NoDup_split_eq _ _ _ _ _ Hnd Heq).
  - intros Hw. by exists pre, post.
Qed.

Lemma hidden_single_placed vs v i0 b :
  dims (m_grid b) → (cell i0).1 < grid_l → (cell i0).2 < grid_l →
  v ∈ vs →
  (∀ w, before w v vs → length (holders cell l w b) ≠ 1) →
  holders cell l v b = [i0] →
  placed_at v (cell i0).1 (cell i0).2 (for_each vs (hidden_single_step cell l) b).
Proof.
  intros Hd Hx Hy Hv Hfirst Hlone.
  apply list_elem_of_split in Hv as (pre & post & ->).
  assert (∀ w, w ∈ pre → length (holders cell l w b) ≠ 1) as Hpre.
  { intros w Hw. apply Hfirst. by exists pre, post. }
  clear Hfirst. rewrite for_each_app, for_each_cons.
  assert (for_each pre (hidden_single_step cell l) b = b) as ->.
  { clear Hlone. induction pre as [|w pre IH]; [done|].
    rewrite for_each_cons, hidden_single_step_skip.
    - apply IH. intros w' Hw'. apply Hpre. by right.
    - apply Hpre. left. }
  apply (for_each_inv (placed_at v (cell i0).1 (cell i0).2)).
  - intros w s _. apply placed_at_hidden_single_step.
  - unfold hidden_single_step. rewrite Hlone.
    by apply (placed_at_place _ c_grid_pencil_in m_grid_pencil_in).
Qed.

(** The loop over the values [vs] and the value [v] whose only square in the
    unit is the square of [i0]. *)
Lemma hidden_single_loop vs v i0 b :
  dims (m_grid b) → (cell i0).1 < grid_l → (cell i0).2 < grid_l →
  NoDup vs → v ∈ vs → holders cell l v b = [i0] →
  hidden_single_outcome cell l vs v i0 b
    (for_each vs (hidden_single_step cell l) b).
Proof.
  intros Hd Hx Hy Hnd Hv Hlone.
  assert (placed_at v (cell i0).1 (cell i0).2
            (for_each vs (hidden_single_step cell l) b)
          ∨ ∃ w, before w v vs ∧ w ∈ cand b (cell i0).1 (cell i0).2
                 ∧ placed_at w (cell i0).1 (cell i0).2
                     (for_each vs (hidden_single_step cell l) b)) as Hcase.
  { pose proof Hv as (pre & post & ->)%list_elem_of_split.
    assert (v ∉ pre) as Hpre.
    { apply NoDup_app in Hnd as (_ & Hdisj & _). intros Hin.
      apply (Hdisj v Hin). left. }
    assert (v ∈ cand b (cell i0).1 (cell i0).2) as Hvb.
    { assert (i0 ∈ holders cell l v b) as Hi by (rewrite Hlone; left).
      unfold holders in Hi. by apply list_elem_of_filter in Hi as [? _]. }
    destruct (hidden_single_prefix pre v i0 b Hd Hx Hy Hpre Hvb)
      as (Hsh & Hds & Hs).
    rewrite for_each_app.
    set (s := for_each pre (hidden_single_step cell l) b) in *.
    destruct Hs as [Hvs|(w & Hw & Hwb & Hplaced)].
    - left. rewrite for_each_cons.
      apply (for_each_inv (placed_at v (cell i0).1 (cell i0).2)).
      + intros w s' _. apply placed_at_hidden_single_step.
      + unfold hidden_single_step.
        rewrite (holders_shrinks v i0 b s Hsh Hlone Hvs).
        by apply (placed_at_place _ c_grid_pencil_in m_grid_pencil_in).
    - right. exists w. split; [by apply before_split|]. split; [done|].
      apply (for_each_inv (placed_at w (cell i0).1 (cell i0).2)); [|done].
      intros w' s' _. apply placed_at_hidden_single_step. }
  unfold hidden_single_outcome. split; [exact Hcase|]. split.
  - intros Hno. destruct Hcase as [?|(w & Hw & Hwb & _)]; [done|].
    by destruct (Hno w Hw).
  - intros Hfirst. by apply hidden_single_placed.
Qed.

End HiddenSingle.

(** The three functions of the source, each as the loop of
    [hidden_single_step] over its unit. *)
Lemma single_sq_candidate_row_eq iter_nat y b :
  Old.single_sq_candidate_row iter_nat y b
  = for_each (iter_nat (full_set ∖ sget (row_set b) y))
      (hidden_single_step (λ x, (x, y)) (range 0 9)) b.
Proof.
  unfold Old.single_sq_candidate_row. apply for_each_ext. intros w s _.
  apply (hidden_single_step_scan (λ x, (x, y)) (range 0 9) w s 0).
Qed.

Lemma single_sq_candidate_col_eq iter_nat x b :
  Old.single_sq_candidate_col iter_nat x b
  = for_each (iter_nat (full_set ∖ sget (col_set b) x))
      (hidden_single_step (λ y, (x, y)) (range 0 9)) b.
Proof.
  unfold Old.single_sq_candidate_col. apply for_each_ext. intros w s _.
  apply (hidden_single_step_scan (λ y, (x, y)) (range 0 9) w s 0).
Qed.

Lemma single_sq_candidate_subgrid_eq iter_nat sx sy b :
  Old.single_sq_candidate_subgrid iter_nat sx sy b
  = for_each (iter_nat (full_set ∖ gget ∅ (s_grid_set b) sx sy))
      (hidden_single_step (λ p, p)
         (cells (sx * 3, sx * 3 + 3) (sy * 3, sy * 3 + 3))) b.
Proof.
  unfold Old.single_sq_candidate_subgrid. apply for_each_ext. intros w s _.
  rewrite <- (hidden_single_step_scan (λ p, p) _ w s (0, 0)).
  rewrite (for_each_cells
             (λ x y '(count, prev_coords),
                if bool_decide (w ∈ cand s x y)
                then (count + 1, (x, y)) else (count, prev_coords))
             (sx * 3, sx * 3 + 3) (sy * 3, sy * 3 + 3)).
  rewrite (for_each_ext
             (λ p '(count, prev_coords),
                if bool_decide (w ∈ cand s p.1 p.2)
                then (count + 1, (p.1, p.2)) else (count, prev_coords))
             (λ p '(count, prev),
                if bool_decide (w ∈ cand s p.1 p.2)
                then (count + 1, p) else (count, prev))).
  - done.
  - intros [px py] [c q] _. done.
Qed.

(** C5, as the code has it.  In a row, a column or a sub-grid, let [v] be a
    value not yet placed in the unit that exactly one square of the unit has
    as a candidate.  After the call that square is filled and has no
    candidate: it holds [v], or it holds a value that the loop took before
    [v] and that was a candidate of the same square; the value it holds is
    a candidate of no square of its row, of its column or of its sub-grid.
    The square holds [v] when no value taken before [v] is a candidate of
    it, and also when no value taken before [v] has exactly one square in
    the unit. *)
Theorem hidden_single_correct
  (iter_nat : gset nat → list nat) (b : board) (v : nat) :
  enumeration iter_nat → dims (m_grid b) → v ∈ full_set →
  (∀ y x0, y < 9 → v ∉ sget (row_set b) y →
     holders (λ x, (x, y)) (range 0 9) v b = [x0] →
     hidden_single_outcome (λ x, (x, y)) (range 0 9)
       (iter_nat (full_set ∖ sget (row_set b) y)) v x0 b
       (Old.single_sq_candidate_row iter_nat y b))
  ∧ (∀ x y0, x < 9 → v ∉ sget (col_set b) x →
       holders (λ y, (x, y)) (range 0 9) v b = [y0] →
       hidden_single_outcome (λ y, (x, y)) (range 0 9)
         (iter_nat (full_set ∖ sget (col_set b) x)) v y0 b
         (Old.single_sq_candidate_col iter_nat x b))
  ∧ (∀ sx sy p0, sx < 3 → sy < 3 → v ∉ gget ∅ (s_grid_set b) sx sy →
       holders (λ p, p) (cells (sx * 3, sx * 3 + 3) (sy * 3, sy * 3 + 3)) v b
       = [p0] →
       hidden_single_outcome (λ p, p)
         (cells (sx * 3, sx * 3 + 3) (sy * 3, sy * 3 + 3))
         (iter_nat (full_set ∖ gget ∅ (s_grid_set b) sx sy)) v p0 b
         (Old.single_sq_candidate_subgrid iter_nat sx sy b)).
Proof.
  intros Hiter Hd Hv. split_and!.
  - intros y x0 Hy Hrow Hlone. rewrite single_sq_candidate_row_eq.
    assert (x0 ∈ range 0 9) as Hx0.
    { assert (x0 ∈ holders (λ x, (x, y)) (range 0 9) v b) as Hin
        by (rewrite Hlone; left).
      unfold holders in Hin. by apply list_elem_of_filter in Hin as [_ ?]. }
    apply elem_of_range in Hx0.
    apply (hidden_single_loop (λ x, (x, y)) (range 0 9)); try done.
    + unfold grid_l. cbn [fst]. lia.
    + by apply NoDup_enumeration.
    + apply elem_of_enumeration; [done|]. set_solver.
  - intros x y0 Hx Hcol Hlone. rewrite single_sq_candidate_col_eq.
    assert (y0 ∈ range 0 9) as Hy0.
    { assert (y0 ∈ holders (λ y, (x, y)) (range 0 9) v b) as Hin
        by (rewrite Hlone; left).
      unfold holders in Hin. by apply list_elem_of_filter in Hin as [_ ?]. }
    apply elem_of_range in Hy0.
    apply (hidden_single_loop (λ y, (x, y)) (range 0 9)); try done.
    + unfold grid_l. cbn [snd]. lia.
    + by apply NoDup_enumeration.
    + apply elem_of_enumeration; [done|]. set_solver.
  - intros sx sy [x0 y0] Hsx Hsy Hsub Hlone.
    rewrite single_sq_candidate_subgrid_eq.
    assert ((x0, y0) ∈ cells (sx * 3, sx * 3 + 3) (sy * 3, sy * 3 + 3)) as Hp0.
    { assert ((x0, y0) ∈ holders (λ p, p)
                (cells (sx * 3, sx * 3 + 3) (sy * 3, sy * 3 + 3)) v b) as Hin
        by (rewrite Hlone; left).
      unfold holders in Hin. by apply list_elem_of_filter in Hin as [_ ?]. }
    apply elem_of_cells in Hp0. cbn [fst snd] in Hp0.
    apply (hidden_single_loop (λ p, p)
             (cells (sx * 3, sx * 3 + 3) (sy * 3, sy * 3 + 3)) _ v (x0, y0));
      try done.
    + unfold grid_l. cbn [fst]. lia.
    + unfold grid_l. cbn [snd]. lia.
    + by apply NoDup_enumeration.
    + apply elem_of_enumeration; [done|]. set_solver.
Qed.

Lemma before_irrefl v vs : NoDup vs → ¬ before v v vs.
Proof.
  intros Hnd (pre & post & -> & Hv).
  apply NoDup_app in Hnd as (_ & Hdisj & _). apply (Hdisj v Hv). left.
Qed.

(** In the first row of [two_singles_board] the value 1 has the square 0
    only and the value 2 has the square 1 only: both are placed by the one
    call, whichever of the two the loop takes first. *)
Lemma hidden_single_correct_witness :
  placed_at 2 1 0 (Old.single_sq_candidate_row elements 0 two_singles_board)
  ∧ placed_at 1 0 0 (Old.single_sq_candidate_row elements 0 two_singles_board)
  ∧ placed_at 1 0 0 (Old.single_sq_candidate_col elements 0 two_singles_board)
  ∧ placed_at 1 0 0
      (Old.single_sq_candidate_subgrid elements 0 0 two_singles_board).
Proof.
  destruct (hidden_single_correct elements two_singles_board 2)
    as (Hrow2 & _).
  { apply enumeration_elements. }
  { by_decision. }
  { by_decision. }
  destruct (hidden_single_correct elements two_singles_board 1)
    as (Hrow & Hcol & Hsub).
  { apply enumeration_elements. }
  { by_decision. }
  { by_decision. }
  split; [|split; [|split]].
  - destruct (Hrow2 0 1) as ([Hp|(w & Hbefore & _ & Hw & _)] & _).
    + lia.
    + by_decision.
    + vm_compute. reflexivity.
    + exact Hp.
    + exfalso. vm_compute in Hw. subst w.
      exact (before_irrefl _ _ (NoDup_elements _) Hbefore).
  - destruct (Hrow 0 0) as ([Hp|(w & Hbefore & _ & Hw & _)] & _).
    + lia.
    + by_decision.
    + vm_compute. reflexivity.
    + exact Hp.
    + exfalso. vm_compute in Hw. subst w.
      exact (before_irrefl _ _ (NoDup_elements _) Hbefore).
  - destruct (Hcol 0 0) as ([Hp|(w & Hbefore & _ & Hw & _)] & _).
    + lia.
    + by_decision.
    + vm_compute. reflexivity.
    + exact Hp.
    + exfalso. vm_compute in Hw. subst w.
      exact (before_irrefl _ _ (NoDup_elements _) Hbefore).
  - destruct (Hsub 0 0 (0, 0)) as ([Hp|(w & Hbefore & _ & Hw & _)] & _).
    + lia.
    + lia.
    + by_decision.
    + vm_compute. reflexivity.
    + exact Hp.
    + exfalso. vm_compute in Hw. subst w.
      exact (before_irrefl _ _ (NoDup_elements _) Hbefore).
Defined.

(** C5 as stated fails.  In the first row of [two_in_one_board] the square 0
    is the only one that has 1 as a candidate and the only one that has 2;
    neither value is placed in the row.  The call places the one of the two
    values that the loop takes first and, the square having no candidate
    left, passes over the other. *)
Lemma hidden_single_not_placed :
  holders (λ x, (x, 0)) (range 0 9) 1 two_in_one_board = [0]
  ∧ holders (λ x, (x, 0)) (range 0 9) 2 two_in_one_board = [0]
  ∧ sget (row_set two_in_one_board) 0 = ∅
  ∧ mval (Old.single_sq_candidate_row elements 0 two_in_one_board) 0 0 = 2
  ∧ mval (Old.single_sq_candidate_row reversed_values 0 two_in_one_board) 0 0
    = 1.
Proof. by_computation. Qed.

(** * Further properties *)

(** ** What the elimination of disjoint subsets never does *)

Lemma elim1_empty_iff d s : elim1 d s = ∅ ↔ s = ∅.
Proof.
  unfold elim1. case_bool_decide as Hsub; [done|]. split.
  - intros Hempty. exfalso. apply Hsub. set_solver.
  - intros ->. set_solver.
Qed.

Lemma eliminate_empty_iff ds s : eliminate ds s = ∅ ↔ s = ∅.
Proof.
  revert s. induction ds as [|d ds IH]; intros s; [done|].
  by rewrite eliminate_cons, IH, elim1_empty_iff.
Qed.

Lemma elim1_few d s : size s ≤ 1 → elim1 d s = s.
Proof.
  intros Hsize. unfold elim1. case_bool_decide as Hsub; [done|].
  destruct (set_choose_or_empty s) as [[a Ha]|Hempty]; [|set_solver].
  assert (s = {[a]}) as ->.
  { apply set_eq. intros c. rewrite elem_of_singleton. split; [|by intros ->].
    intros Hc. apply (size_singleton_inv s); [|done..].
    destruct (size s) as [|[|k]] eqn:E; [|done|lia].
    apply size_empty_iff in E. set_solver. }
  apply set_eq. intros c. rewrite elem_of_difference, elem_of_singleton.
  split; [tauto|]. intros ->. split; [done|]. intros Hd. apply Hsub.
  set_solver.
Qed.

Lemma eliminate_few ds s : size s ≤ 1 → eliminate ds s = s.
Proof.
  induction ds as [|d ds IH]; intros Hs; [done|].
  rewrite eliminate_cons, elim1_few by done. by apply IH.
Qed.

(** X1. The elimination of disjoint subsets never takes the last candidate
    of a square away (a candidate set is empty after the call only if it
    was empty before), and it leaves a candidate set of fewer than two
    members as it is. *)
Theorem disjoint_subsets_keeps_last_candidate
  (iter_sets : gset (gset nat) → list (gset nat)) (b : board)
  (xr yr : nat * nat) (n x y : nat) :
  (cand (Final.disjoint_subsets iter_sets xr yr n b) x y = ∅ ↔ cand b x y = ∅)
  ∧ (size (cand b x y) ≤ 1 →
     cand (Final.disjoint_subsets iter_sets xr yr n b) x y = cand b x y).
Proof.
  rewrite cand_disjoint_subsets. case_decide; [|done]. split.
  - apply eliminate_empty_iff.
  - apply eliminate_few.
Qed.

Lemma disjoint_subsets_keeps_last_candidate_witness :
  cand (Final.disjoint_subsets elements (0, 9) (0, 1) 2 one_blank_board) 0 0
  = cand one_blank_board 0 0.
Proof.
  apply (proj2 (disjoint_subsets_keeps_last_candidate elements one_blank_board
                  (0, 9) (0, 1) 2 0 0)).
  by_decision.
Defined.

(** ** What the techniques leave alone *)

Lemma keeps_for_each {I A} (f : board → A) (body : I → board → board) l b :
  (∀ i s, f (body i s) = f s) → f (for_each l body b) = f b.
Proof.
  intros Hbody. apply (for_each_rel (λ s s', f s' = f s)); [done| |done].
  intros s1 s2 s3 H12 H23. congruence.
Qed.

(** A field of the state that an elimination does not write to: the loops
    are peeled off, and what is left is an update of one candidate set. *)
Ltac keeps_field :=
  cbv zeta;
  repeat lazymatch goal with
    | |- ?f (for_each _ _ _) = ?f _ => apply (keeps_for_each f); intros
    | |- _ (remove_subset _ _ _ _) = _ => unfold remove_subset
    | |- _ (if bool_decide _ then _ else _) = _ => case_bool_decide
    | |- _ => reflexivity
    end.

Lemma only_cands_disjoint_subsets iter_sets xr yr n b :
  only_cands b (Final.disjoint_subsets iter_sets xr yr n b).
Proof.
  unfold only_cands, Final.disjoint_subsets. repeat split; keeps_field.
Qed.

Lemma only_cands_disjoint_subsets_row iter_sets y n b :
  only_cands b (Old.disjoint_subsets_row iter_sets y n b).
Proof.
  unfold only_cands, Old.disjoint_subsets_row. repeat split; keeps_field.
Qed.

Lemma only_cands_disjoint_subsets_col iter_sets x n b :
  only_cands b (Old.disjoint_subsets_col iter_sets x n b).
Proof.
  unfold only_cands, Old.disjoint_subsets_col. repeat split; keeps_field.
Qed.

Lemma only_cands_disjoint_subsets_subgrid iter_sets sx sy n b :
  only_cands b (Old.disjoint_subsets_subgrid iter_sets sx sy n b).
Proof.
  unfold only_cands, Old.disjoint_subsets_subgrid. repeat split; keeps_field.
Qed.

Lemma only_cands_number_claiming_row iter_nat sx sy b :
  only_cands b (Old.number_claiming_row iter_nat sx sy b).
Proof.
  unfold only_cands, Old.number_claiming_row. repeat split; keeps_field.
Qed.

Lemma only_cands_number_claiming_col iter_nat sx sy b :
  only_cands b (Old.number_claiming_col iter_nat sx sy b).
Proof.
  unfold only_cands, Old.number_claiming_col. repeat split; keeps_field.
Qed.

(** X2. The eliminations write to candidate sets only: the disjoint subsets
    of both files and the claiming of a row or column leave the puzzle grid
    and the three families of placed-value sets as they are. *)
Theorem eliminations_write_candidates_only
  (iter_nat : gset nat → list nat) (iter_sets : gset (gset nat) → list (gset nat))
  (b : board) :
  (∀ xr yr n, only_cands b (Final.disjoint_subsets iter_sets xr yr n b))
  ∧ (∀ y n, only_cands b (Old.disjoint_subsets_row iter_sets y n b))
  ∧ (∀ x n, only_cands b (Old.disjoint_subsets_col iter_sets x n b))
  ∧ (∀ sx sy n, only_cands b (Old.disjoint_subsets_subgrid iter_sets sx sy n b))
  ∧ (∀ sx sy, only_cands b (Old.number_claiming_row iter_nat sx sy b))
  ∧ (∀ sx sy, only_cands b (Old.number_claiming_col iter_nat sx sy b)).
Proof.
  split_and!; intros.
  - apply only_cands_disjoint_subsets.
  - apply only_cands_disjoint_subsets_row.
  - apply only_cands_disjoint_subsets_col.
  - apply only_cands_disjoint_subsets_subgrid.
  - apply only_cands_number_claiming_row.
  - apply only_cands_number_claiming_col.
Qed.

Lemma write_solution_keeps_sets y b :
  col_set (Final.write_solution y b) = col_set b
  ∧ row_set (Final.write_solution y b) = row_set b
  ∧ s_grid_set (Final.write_solution y b) = s_grid_set b.
Proof.
  unfold Final.write_solution.
  repeat split;
    (lazymatch goal with
     | |- ?f (for_each _ _ _) = ?f _ => apply (keeps_for_each f)
     end;
     intros x s; unfold Final.write_solution_body;
     case_bool_decide; [|reflexivity];
     destruct (elements _); [reflexivity|];
     by rewrite write_solution_place_board).
Qed.

(** X3. The newer file never updates the sets of placed values once [init]
    has filled them: a whole round of its driver, placements included,
    leaves [col_set], [row_set] and [s_grid_set] as they were. *)
Theorem final_round_keeps_placed_sets
  (iter_sets : gset (gset nat) → list (gset nat)) (b : board) :
  col_set (Final.round iter_sets b) = col_set b
  ∧ row_set (Final.round iter_sets b) = row_set b
  ∧ s_grid_set (Final.round iter_sets b) = s_grid_set b.
Proof.
  assert (∀ (f : board → list (gset nat)),
            (∀ y s, f (Final.write_solution y s) = f s) →
            (∀ xr yr n s, f (Final.disjoint_subsets iter_sets xr yr n s) = f s) →
            f (Final.round iter_sets b) = f b) as Hlist.
  { intros f Hws Hds. unfold Final.round, Final.iterator. cbv zeta.
    repeat lazymatch goal with
      | |- ?g (for_each ?l ?body ?s) = _ =>
          transitivity (g s); [apply (keeps_for_each g); intros|]
      end; try reflexivity; try apply Hws; try apply Hds.
    by rewrite !Hds. }
  assert (∀ (f : board → list (list (gset nat))),
            (∀ y s, f (Final.write_solution y s) = f s) →
            (∀ xr yr n s, f (Final.disjoint_subsets iter_sets xr yr n s) = f s) →
            f (Final.round iter_sets b) = f b) as Hgrid.
  { intros f Hws Hds. unfold Final.round, Final.iterator. cbv zeta.
    repeat lazymatch goal with
      | |- ?g (for_each ?l ?body ?s) = _ =>
          transitivity (g s); [apply (keeps_for_each g); intros|]
      end; try reflexivity; try apply Hws; try apply Hds.
    by rewrite !Hds. }
  split; [|split].
  - apply Hlist; intros.
    + apply write_solution_keeps_sets.
    + apply only_cands_disjoint_subsets.
  - apply Hlist; intros.
    + apply write_solution_keeps_sets.
    + apply only_cands_disjoint_subsets.
  - apply Hgrid; intros.
    + apply write_solution_keeps_sets.
    + apply only_cands_disjoint_subsets.
Qed.

(** ** When there is nothing to deduce *)

Lemma for_each_fixed {I S} (body : I → S → S) l s :
  (∀ i, i ∈ l → body i s = s) → for_each l body s = s.
Proof.
  induction l as [|i l IH]; intros Hbody; [done|].
  rewrite for_each_cons, Hbody by left. apply IH.
  intros j Hj. apply Hbody. by right.
Qed.

Lemma combinations_short {A} n (l : list A) :
  length l < n → combinations n l = [].
Proof.
  revert n. induction l as [|a l IH]; intros n Hn.
  - destruct n; [simpl in Hn; lia | done].
  - destruct n as [|n]; [lia|]. cbn [combinations length] in *.
    rewrite (IH n), (IH (S n)) by lia. done.
Qed.

Lemma enumeration_empty {A} `{Countable A} (iter : gset A → list A) :
  enumeration iter → iter ∅ = [].
Proof.
  intros Hiter. apply Permutation_nil_r. rewrite (Hiter ∅).
  by rewrite elements_empty.
Qed.

(** X4. When fewer than [n] squares of the unit have more than one and at
    most [n] candidates, there is no combination to try: no disjoint subset
    is found and the call changes nothing. *)
Theorem disjoint_subsets_nothing_to_combine
  (iter_sets : gset (gset nat) → list (gset nat)) (b : board)
  (xr yr : nat * nat) (n : nat) :
  enumeration iter_sets →
  length (Final.small_sets xr yr n b) < n →
  Final.d_subsets xr yr n b = ∅
  ∧ Final.disjoint_subsets iter_sets xr yr n b = b.
Proof.
  intros Hiter Hlen.
  assert (Final.d_subsets xr yr n b = ∅) as Hnone.
  { unfold Final.d_subsets, get_disjoint_subsets.
    by rewrite combinations_short. }
  split; [done|]. unfold Final.disjoint_subsets.
  by rewrite Hnone, enumeration_empty.
Qed.

Lemma disjoint_subsets_nothing_to_combine_witness :
  Final.d_subsets (0, 9) (0, 1) 2 one_blank_board = ∅
  ∧ Final.disjoint_subsets elements (0, 9) (0, 1) 2 one_blank_board
    = one_blank_board.
Proof.
  apply (disjoint_subsets_nothing_to_combine elements one_blank_board
           (0, 9) (0, 1) 2).
  - apply enumeration_elements.
  - vm_compute. lia.
Defined.

Lemma filter_none {A} (P : A → Prop) `{!∀ a, Decision (P a)} (l : list A) :
  (∀ a, a ∈ l → ¬ P a) → filter P l = [].
Proof.
  induction l as [|a l IH]; intros Hl; [done|].
  rewrite filter_cons_False by (apply Hl; left). apply IH.
  intros a' Ha'. apply Hl. by right.
Qed.

Section NothingLeft.
Variable iter_nat : gset nat → list nat.
Variable iter_sets : gset (gset nat) → list (gset nat).
Hypothesis iter_nat_enum : enumeration iter_nat.
Hypothesis iter_sets_enum : enumeration iter_sets.
Variable b : board.
Hypothesis no_candidate : ∀ x y, x < 9 → y < 9 → cand b x y = ∅.

Lemma write_solution_nothing y : y < 9 → Final.write_solution y b = b.
Proof using no_candidate.
  intros Hy. unfold Final.write_solution. apply for_each_fixed. intros x Hx.
  apply elem_of_range in Hx. unfold grid_l in Hx.
  unfold Final.write_solution_body.
  rewrite bool_decide_eq_false_2; [done|]. rewrite no_candidate by lia.
  by rewrite size_empty.
Qed.

Lemma single_candidate_square_nothing y :
  y < 9 → Old.single_candidate_square y b = b.
Proof using no_candidate.
  intros Hy. unfold Old.single_candidate_square. apply for_each_fixed.
  intros x Hx. apply elem_of_range in Hx.
  rewrite bool_decide_eq_false_2; [done|]. rewrite no_candidate by lia.
  by rewrite size_empty.
Qed.

Lemma disjoint_subsets_nothing xr yr n :
  xr.2 ≤ 9 → yr.2 ≤ 9 → 0 < n →
  Final.disjoint_subsets iter_sets xr yr n b = b.
Proof using no_candidate iter_sets_enum.
  intros Hxr Hyr Hn.
  assert (Final.small_sets xr yr n b = []) as Hsmall.
  { rewrite small_sets_eq.
    assert (filter (small n b) (cells xr yr) = []) as ->; [|done].
    apply filter_none. intros [x y] Hp Hsmall.
    apply elem_of_cells in Hp. destruct Hsmall as [Hsize _].
    cbn [fst snd] in Hsize. rewrite no_candidate, size_empty in Hsize; lia. }
  unfold Final.disjoint_subsets, Final.d_subsets, get_disjoint_subsets.
  rewrite Hsmall, combinations_short by (simpl; lia).
  by rewrite for_each_nil, enumeration_empty.
Qed.

Lemma hidden_single_nothing {I} (cell : I → nat * nat) (l : list I) vs :
  (∀ i, i ∈ l → (cell i).1 < 9 ∧ (cell i).2 < 9) →
  for_each vs (hidden_single_step cell l) b = b.
Proof using no_candidate.
  intros Hl. apply for_each_fixed. intros w _.
  apply hidden_single_step_skip.
  assert (holders cell l w b = []) as ->; [|done].
  apply filter_none. intros i Hi Hw.
  destruct (Hl i Hi) as [Hx Hy]. rewrite no_candidate in Hw by done.
  by apply not_elem_of_empty in Hw.
Qed.

Lemma subsets_all_empty (l : list nat) (f : nat → nat) (g : nat → gset nat) :
  (∀ i, i ∈ l → g i = ∅) →
  ∀ sets : list (gset nat), (∀ k, sget sets k = ∅) →
  ∀ k, sget (for_each l (λ i sets, <[f i := sget sets (f i) ∪ g i]> sets) sets) k
       = ∅.
Proof.
  intros Hg. induction l as [|i l IH]; intros sets Hsets k; [apply Hsets|].
  rewrite for_each_cons. apply IH.
  - intros j Hj. apply Hg. by right.
  - intros k'. rewrite Hg by left. rewrite Hsets, (left_id_L ∅ (∪)).
    unfold sget. destruct (decide (f i = k')) as [<-|Hne].
    + destruct (decide (f i < length sets)).
      * by rewrite list_lookup_insert_eq.
      * rewrite list_insert_ge by lia. apply Hsets.
    + rewrite list_lookup_insert_ne by done. apply Hsets.
Qed.

Lemma sget_three_empty k : sget [∅; ∅; ∅] k = ∅.
Proof. by destruct k as [|[|[|k]]]. Qed.

Lemma number_claiming_row_nothing sx sy :
  sx < 3 → sy < 3 → Old.number_claiming_row iter_nat sx sy b = b.
Proof using no_candidate iter_nat_enum.
  intros Hsx Hsy. unfold Old.number_claiming_row. cbv zeta.
  set (subrow_sets := for_each _ _ [∅; ∅; ∅]).
  assert (∀ k, sget subrow_sets k = ∅) as Hempty.
  { unfold subrow_sets.
    apply (for_each_inv (λ sets : list (gset nat), ∀ k, sget sets k = ∅));
      [|apply sget_three_empty].
    intros y sets Hy Hsets. apply elem_of_range in Hy.
    apply (subsets_all_empty _ (λ _, y mod 3) (λ x, cand b x y)); [|done].
    intros x Hx. apply elem_of_range in Hx. apply no_candidate; lia. }
  rewrite !Hempty. apply for_each_fixed. intros sub_row Hsub.
  apply elem_of_range in Hsub.
  assert (sget ([Old.difference2 ∅ ∅ ∅] ++ [Old.difference2 ∅ ∅ ∅]
                  ++ [Old.difference2 ∅ ∅ ∅]) sub_row = ∅) as ->.
  { by destruct sub_row as [|[|[|k]]]. }
  by rewrite enumeration_empty.
Qed.

Lemma number_claiming_col_nothing sx sy :
  sx < 3 → sy < 3 → Old.number_claiming_col iter_nat sx sy b = b.
Proof using no_candidate iter_nat_enum.
  intros Hsx Hsy. unfold Old.number_claiming_col. cbv zeta.
  set (subcol_sets := for_each _ _ [∅; ∅; ∅]).
  assert (∀ k, sget subcol_sets k = ∅) as Hempty.
  { unfold subcol_sets.
    apply (for_each_inv (λ sets : list (gset nat), ∀ k, sget sets k = ∅));
      [|apply sget_three_empty].
    intros x sets Hx Hsets. apply elem_of_range in Hx.
    apply (subsets_all_empty _ (λ _, x mod 3) (λ y, cand b x y)); [|done].
    intros y Hy. apply elem_of_range in Hy. apply no_candidate; lia. }
  rewrite !Hempty. apply for_each_fixed. intros sub_col Hsub.
  apply elem_of_range in Hsub.
  assert (sget ([Old.difference2 ∅ ∅ ∅] ++ [Old.difference2 ∅ ∅ ∅]
                  ++ [Old.difference2 ∅ ∅ ∅]) sub_col = ∅) as ->.
  { by destruct sub_col as [|[|[|k]]]. }
  by rewrite enumeration_empty.
Qed.

Lemma final_round_nothing : Final.round iter_sets b = b.
Proof using no_candidate iter_sets_enum.
  unfold Final.round. cbv zeta.
  assert (for_each (range 0 grid_l) Final.write_solution b = b) as ->.
  { apply for_each_fixed. intros y Hy. apply elem_of_range in Hy.
    apply write_solution_nothing. unfold grid_l in Hy. lia. }
  apply for_each_fixed. intros n Hn. apply elem_of_range in Hn.
  unfold Final.iterator, grid_l, sub_l, sub_h.
  assert (for_each (range 0 9)
            (λ sq s,
               Final.disjoint_subsets iter_sets (sq, sq + 1) (0, 9) n
                 (Final.disjoint_subsets iter_sets (0, 9) (sq, sq + 1) n s)) b
          = b) as ->.
  { apply for_each_fixed. intros sq Hsq. apply elem_of_range in Hsq.
    rewrite !disjoint_subsets_nothing; cbn [fst snd]; (done || lia). }
  apply for_each_fixed. intros sy Hsy. apply elem_of_range in Hsy.
  apply for_each_fixed. intros sx Hsx. apply elem_of_range in Hsx.
  apply disjoint_subsets_nothing; cbn [fst snd]; lia.
Qed.

Lemma old_round_nothing : Old.round iter_nat iter_sets b = b.
Proof using no_candidate iter_nat_enum iter_sets_enum.
  unfold Old.round, Old.iter_over_line, Old.iter_over_subgrids. cbv zeta.
  assert (for_each (range 0 9) Old.single_candidate_square b = b) as ->.
  { apply for_each_fixed. intros y Hy. apply elem_of_range in Hy.
    apply single_candidate_square_nothing. lia. }
  assert (for_each (range 0 9) (Old.single_sq_candidate_row iter_nat) b = b)
    as ->.
  { apply for_each_fixed. intros y Hy. apply elem_of_range in Hy.
    rewrite single_sq_candidate_row_eq. apply hidden_single_nothing.
    intros x Hx. apply elem_of_range in Hx. cbn [fst snd]. lia. }
  assert (for_each (range 0 9) (Old.single_sq_candidate_col iter_nat) b = b)
    as ->.
  { apply for_each_fixed. intros x Hx. apply elem_of_range in Hx.
    rewrite single_sq_candidate_col_eq. apply hidden_single_nothing.
    intros y Hy. apply elem_of_range in Hy. cbn [fst snd]. lia. }
  assert (for_each (range 0 3)
            (λ sy, for_each (range 0 3)
                     (λ sx, Old.single_sq_candidate_subgrid iter_nat sx sy)) b
          = b) as ->.
  { apply for_each_fixed. intros sy Hsy. apply elem_of_range in Hsy.
    apply for_each_fixed. intros sx Hsx. apply elem_of_range in Hsx.
    rewrite single_sq_candidate_subgrid_eq. apply hidden_single_nothing.
    intros [x y] Hp. apply elem_of_cells in Hp. cbn [fst snd] in *. lia. }
  assert (for_each (range 0 3)
            (λ sy, for_each (range 0 3)
                     (λ sx, Old.number_claiming_row iter_nat sx sy)) b
          = b) as ->.
  { apply for_each_fixed. intros sy Hsy. apply elem_of_range in Hsy.
    apply for_each_fixed. intros sx Hsx. apply elem_of_range in Hsx.
    apply number_claiming_row_nothing; lia. }
  assert (for_each (range 0 3)
            (λ sy, for_each (range 0 3)
                     (λ sx, Old.number_claiming_col iter_nat sx sy)) b
          = b) as ->.
  { apply for_each_fixed. intros sy Hsy. apply elem_of_range in Hsy.
    apply for_each_fixed. intros sx Hsx. apply elem_of_range in Hsx.
    apply number_claiming_col_nothing; lia. }
  apply for_each_fixed. intros n Hn. apply elem_of_range in Hn.
  assert (for_each (range 0 9) (λ y, Old.disjoint_subsets_row iter_sets y n) b
          = b) as ->.
  { apply for_each_fixed. intros y Hy. apply elem_of_range in Hy.
    rewrite disjoint_subsets_row_eq.
    apply disjoint_subsets_nothing; cbn [fst snd]; lia. }
  assert (for_each (range 0 9) (λ x, Old.disjoint_subsets_col iter_sets x n) b
          = b) as ->.
  { apply for_each_fixed. intros x Hx. apply elem_of_range in Hx.
    rewrite disjoint_subsets_col_eq.
    apply disjoint_subsets_nothing; cbn [fst snd]; lia. }
  apply for_each_fixed. intros sy Hsy. apply elem_of_range in Hsy.
  apply for_each_fixed. intros sx Hsx. apply elem_of_range in Hsx.
  rewrite disjoint_subsets_subgrid_eq.
  apply disjoint_subsets_nothing; cbn [fst snd]; lia.
Qed.

End NothingLeft.

(** X5. When no square has a candidate left, a whole round of either driver
    changes nothing: no technique places a value or touches a set. *)
Theorem round_without_candidates
  (iter_nat : gset nat → list nat) (iter_sets : gset (gset nat) → list (gset nat))
  (b : board) :
  enumeration iter_nat → enumeration iter_sets →
  (∀ x y, x < 9 → y < 9 → cand b x y = ∅) →
  Final.round iter_sets b = b ∧ Old.round iter_nat iter_sets b = b.
Proof.
  intros Hnat Hsets Hempty. split.
  - by apply final_round_nothing.
  - by apply old_round_nothing.
Qed.

Lemma round_without_candidates_witness :
  Final.round elements (state_of (init stuck_puzzle)) = state_of (init stuck_puzzle)
  ∧ Old.round elements elements (state_of (init stuck_puzzle))
    = state_of (init stuck_puzzle).
Proof.
  apply (round_without_candidates elements elements).
  - apply enumeration_elements.
  - apply enumeration_elements.
  - intros x y Hx Hy.
    below_nine x Hx ltac:(below_nine y Hy ltac:(vm_compute; reflexivity)).
Defined.

(** ** The two versions of the naked singles *)

Lemma for_each_rel2 {I S1 S2} (R : S1 → S2 → Prop)
    (body1 : I → S1 → S1) (body2 : I → S2 → S2) l :
  (∀ i s1 s2, R s1 s2 → R (body1 i s1) (body2 i s2)) →
  ∀ s1 s2, R s1 s2 → R (for_each l body1 s1) (for_each l body2 s2).
Proof.
  intros Hbody. induction l as [|i l IH]; intros s1 s2 Hs; [done|].
  rewrite !for_each_cons. by apply IH, Hbody.
Qed.

(** X6. [single_candidate_square] of the older file and [write_solution] of
    the newer one make the same grid and the same candidate sets of a state
    (the older one records the values in the placed-value sets besides). *)
Theorem naked_singles_agree (y : nat) (b : board) :
  m_grid (Old.single_candidate_square y b) = m_grid (Final.write_solution y b)
  ∧ c_grid (Old.single_candidate_square y b) = c_grid (Final.write_solution y b).
Proof.
  unfold Old.single_candidate_square, Final.write_solution, grid_l.
  apply (for_each_rel2 (λ s1 s2, m_grid s1 = m_grid s2 ∧ c_grid s1 = c_grid s2));
    [|done].
  intros x s1 s2 [Hm Hc]. unfold Final.write_solution_body, cand.
  rewrite Hc. case_bool_decide; [|done].
  destruct (elements _) as [|v k]; [done|].
  rewrite m_grid_pencil_in, c_grid_pencil_in, m_grid_write_solution_place,
    c_grid_write_solution_place.
  cbn [m_grid c_grid upd_c]. by rewrite Hm, Hc.
Qed.

(** X7. The three disjoint-subset functions of the older file are the one
    function of the newer file on the ranges of a row, of a column and of a
    sub-grid. *)
Theorem older_disjoint_subsets_are_newer
  (iter_sets : gset (gset nat) → list (gset nat)) (n : nat) (b : board) :
  (∀ y, Old.disjoint_subsets_row iter_sets y n b
        = Final.disjoint_subsets iter_sets (0, 9) (y, y + 1) n b)
  ∧ (∀ x, Old.disjoint_subsets_col iter_sets x n b
          = Final.disjoint_subsets iter_sets (x, x + 1) (0, 9) n b)
  ∧ (∀ sx sy, Old.disjoint_subsets_subgrid iter_sets sx sy n b
              = Final.disjoint_subsets iter_sets
                  (sx * 3, sx * 3 + 3) (sy * 3, sy * 3 + 3) n b).
Proof.
  split; [|split]; intros.
  - apply disjoint_subsets_row_eq.
  - apply disjoint_subsets_col_eq.
  - apply disjoint_subsets_subgrid_eq.
Qed.

(** ** Claiming *)

Lemma in_block s q : s * 3 ≤ q < s * 3 + 3 ↔ q / 3 = s.
Proof.
  pose proof (Nat.div_mod_eq q 3). pose proof (Nat.mod_upper_bound q 3). lia.
Qed.

Lemma mod_block s q k : k < 3 → (s * 3 ≤ q < s * 3 + 3 ∧ q mod 3 = k) ↔ q = s * 3 + k.
Proof.
  intros Hk. rewrite in_block.
  pose proof (Nat.div_mod_eq q 3). pose proof (Nat.mod_upper_bound q 3).
  split.
  - intros [<- <-]. lia.
  - intros ->. assert (k = (s * 3 + k) mod 3) as Hm.
    { apply (Nat.mod_unique _ 3 s); lia. }
    lia.
Qed.

Lemma elem_of_cand_discard c x y b qx qy a :
  a ∈ cand (upd_c (discard c) x y b) qx qy
  ↔ a ∈ cand b qx qy ∧ ¬ (a = c ∧ (x, y) = (qx, qy)).
Proof.
  destruct (decide ((x, y) = (qx, qy))) as [[= <- <-]|Hne].
  - rewrite cand_upd_c_eq. unfold cand, gget, discard.
    destruct (c_grid b !! x ≫= _); simpl; set_solver.
  - rewrite cand_upd_c_ne by done. naive_solver.
Qed.

Lemma for_each_removed {I} (body : I → board → board) l a qx qy :
  (∀ i b, shrinks b (body i b)) →
  (∃ i, i ∈ l ∧ ∀ b, a ∉ cand (body i b) qx qy) →
  ∀ b, a ∉ cand (for_each l body b) qx qy.
Proof.
  intros Hshr (i & Hi & Hrem) b.
  apply list_elem_of_split in Hi as (l1 & l2 & ->).
  rewrite for_each_app, for_each_cons.
  intros Ha. apply (shrinks_for_each body l2 Hshr) in Ha. by apply Hrem in Ha.
Qed.

Lemma subsets_accumulate {I} (f : I → nat) (g : I → gset nat) l sets k a :
  k < length sets →
  a ∈ sget (for_each l (λ i sets, <[f i := sget sets (f i) ∪ g i]> sets) sets) k
  ↔ a ∈ sget sets k ∨ ∃ i, i ∈ l ∧ f i = k ∧ a ∈ g i.
Proof.
  revert sets. induction l as [|i l IH]; intros sets Hk.
  - rewrite for_each_nil. set_solver.
  - rewrite for_each_cons, IH by by rewrite length_insert.
    assert (a ∈ sget (<[f i := sget sets (f i) ∪ g i]> sets) k
            ↔ a ∈ sget sets k ∨ (f i = k ∧ a ∈ g i)) as ->.
    { unfold sget at 1. destruct (decide (f i = k)) as [->|Hne].
      - rewrite list_lookup_insert_eq by done. simpl. set_solver.
      - rewrite list_lookup_insert_ne by done. naive_solver. }
    set_solver.
Qed.

(** The removal loops of [number_claiming_row], for a list [claimed]. *)
Lemma claiming_row_removes iter_nat b sx sy (claimed : list (gset nat)) x y a :
  enumeration iter_nat →
  a ∈ cand
        (for_each (range 0 3)
           (λ sub_row,
              for_each (iter_nat (sget claimed sub_row))
                (λ claimant,
                   for_each (range 0 9)
                     (λ x b,
                        if bool_decide (x / 3 ≠ sx)
                        then upd_c (discard claimant) x (sy * 3 + sub_row) b
                        else b))) b) x y
  ↔ a ∈ cand b x y
    ∧ ¬ (x < 9 ∧ x / 3 ≠ sx ∧ ∃ k, k < 3 ∧ y = sy * 3 + k ∧ a ∈ sget claimed k).
Proof.
  intros iter_nat_enum. split.
  - intros Ha. split.
    + revert Ha. apply (shrinks_for_each _ _); intros; shrink.
    + intros (Hx & Hsx & k & Hk & -> & Hcl). revert Ha.
      apply for_each_removed; [intros; shrink|].
      exists k. split; [apply elem_of_range; lia|]. intros b1.
      apply for_each_removed; [intros; shrink|].
      exists a. split; [by apply elem_of_enumeration|]. intros b2.
      apply for_each_removed; [intros; shrink|].
      exists x. split; [apply elem_of_range; lia|]. intros b3.
      rewrite bool_decide_eq_true_2 by done. rewrite elem_of_cand_discard.
      naive_solver.
  - intros [Ha Hno]. revert Ha.
    apply (for_each_inv (λ s, a ∈ cand s x y)). intros k s1 Hk%elem_of_range.
    apply (for_each_inv (λ s, a ∈ cand s x y)).
    intros c s2 Hc%elem_of_enumeration; [|done].
    apply (for_each_inv (λ s, a ∈ cand s x y)). intros x' s3 Hx'%elem_of_range Ha.
    case_bool_decide; [|done]. rewrite elem_of_cand_discard. split; [done|].
    intros [-> [= Ex Ey]]. subst x y. apply Hno. split; [lia|]. split; [done|].
    exists k. split; [lia|]. done.
Qed.

Lemma subrow_sets_spec b sx sy k a :
  k < 3 →
  a ∈ sget
        (for_each (range (sy * 3) (sy * 3 + 3))
           (λ y, for_each (range (sx * 3) (sx * 3 + 3))
                   (λ x subrow_sets,
                      <[y mod 3 := sget subrow_sets (y mod 3) ∪ cand b x y]>
                        subrow_sets))
           [∅; ∅; ∅]) k
  ↔ in_sub_row b sx (sy * 3 + k) a.
Proof.
  intros Hk.
  rewrite (for_each_cells
             (λ x y subrow_sets,
                <[y mod 3 := sget subrow_sets (y mod 3) ∪ cand b x y]> subrow_sets)
             (sx * 3, sx * 3 + 3) (sy * 3, sy * 3 + 3)).
  rewrite (subsets_accumulate (λ p, p.2 mod 3) (λ p, cand b p.1 p.2))
    by (simpl; lia).
  unfold in_sub_row. split.
  - intros [Hin|([x y] & Hin%elem_of_cells & Hm & Ha)].
    { destruct k as [|[|[|k]]]; set_solver. }
    simpl in Hin, Hm, Ha. destruct Hin as [Hx Hy]. exists x. split; [by apply in_block|].
    assert (y = sy * 3 + k) as <-; [|done]. by apply mod_block.
  - intros (x & Hx%in_block & Ha). right. exists (x, sy * 3 + k).
    split; [apply elem_of_cells; simpl; lia|]. split; [|done].
    simpl. by apply (mod_block sy).
Qed.

(** The list [claimed] of [number_claiming_row]. *)
Lemma claimed_spec (sets : list (gset nat)) k a :
  k < 3 →
  a ∈ sget ([Old.difference2 (sget sets 0) (sget sets 1) (sget sets 2)]
            ++ [Old.difference2 (sget sets 1) (sget sets 0) (sget sets 2)]
            ++ [Old.difference2 (sget sets 2) (sget sets 0) (sget sets 1)]) k
  ↔ a ∈ sget sets k ∧ ∀ j, j < 3 → j ≠ k → a ∉ sget sets j.
Proof.
  intros Hk. unfold Old.difference2. destruct k as [|[|[|k]]]; [| | |lia].
  - change (sget _ 0) with (sget sets 0 ∖ sget sets 1 ∖ sget sets 2) at 1.
    split.
    + intros Ha. split; [set_solver|]. intros [|[|[|j]]] ??; [done| | |lia]; set_solver.
    + intros [Ha Hj]. pose proof (Hj 1). pose proof (Hj 2). set_solver by lia.
  - change (sget _ 1) with (sget sets 1 ∖ sget sets 0 ∖ sget sets 2) at 1.
    split.
    + intros Ha. split; [set_solver|]. intros [|[|[|j]]] ??; [|done| |lia]; set_solver.
    + intros [Ha Hj]. pose proof (Hj 0). pose proof (Hj 2). set_solver by lia.
  - change (sget _ 2) with (sget sets 2 ∖ sget sets 0 ∖ sget sets 1) at 1.
    split.
    + intros Ha. split; [set_solver|]. intros [|[|[|j]]] ??; [| |done|lia]; set_solver.
    + intros [Ha Hj]. pose proof (Hj 0). pose proof (Hj 1). set_solver by lia.
Qed.


(** X8. [number_claiming_row] removes a value from a square exactly when the
    square lies outside the sub-grid, in one of its three rows, and the
    value is a candidate within the sub-grid in that row and in neither of
    the other two; every other candidate stays. *)
Theorem number_claiming_row_correct iter_nat (b : board) (sx sy x y a : nat) :
  enumeration iter_nat →
  a ∈ cand (Old.number_claiming_row iter_nat sx sy b) x y
  ↔ a ∈ cand b x y
    ∧ ¬ (x < 9 ∧ x / 3 ≠ sx ∧ y / 3 = sy ∧ in_sub_row b sx y a
         ∧ ∀ y', y' / 3 = sy → y' ≠ y → ¬ in_sub_row b sx y' a).
Proof.
  intros Henum. unfold Old.number_claiming_row. cbv zeta.
  rewrite claiming_row_removes by done.
  apply and_iff_compat_l, not_iff_compat, and_iff_compat_l, and_iff_compat_l.
  split.
  - intros (k & Hk & -> & Hcl). apply claimed_spec in Hcl as [Hin Hout]; [|done].
    split; [apply in_block; lia|]. split; [by apply subrow_sets_spec|].
    intros y' Hy' Hne Hin'. apply in_block in Hy'.
    apply (Hout (y' - sy * 3)); [lia..|].
    apply subrow_sets_spec; [lia|]. by replace (sy * 3 + (y' - sy * 3)) with y' by lia.
  - intros (Hy%in_block & Hin & Hout). exists (y - sy * 3).
    split; [lia|]. split; [lia|]. apply claimed_spec; [lia|]. split.
    + apply subrow_sets_spec; [lia|]. by replace (sy * 3 + (y - sy * 3)) with y by lia.
    + intros j Hj Hne Hin'%subrow_sets_spec; [|done].
      apply (Hout (sy * 3 + j)); [apply in_block; lia|lia|done].
Qed.

Lemma number_claiming_row_correct_witness :
  2 ∈ cand (Old.number_claiming_row elements 2 0 shared_pair_board) 1 1
  ↔ 2 ∈ cand shared_pair_board 1 1
    ∧ ¬ (1 < 9 ∧ 1 / 3 ≠ 2 ∧ 1 / 3 = 0 ∧ in_sub_row shared_pair_board 2 1 2
         ∧ ∀ y', y' / 3 = 0 → y' ≠ 1 → ¬ in_sub_row shared_pair_board 2 y' 2).
Proof.
  apply (number_claiming_row_correct elements shared_pair_board 2 0 1 1 2).
  apply enumeration_elements.
Defined.

(** The removal loops of [number_claiming_col], for a list [claimed]. *)
Lemma claiming_col_removes iter_nat b sx sy (claimed : list (gset nat)) x y a :
  enumeration iter_nat →
  a ∈ cand
        (for_each (range 0 3)
           (λ sub_col,
              for_each (iter_nat (sget claimed sub_col))
                (λ claimant,
                   for_each (range 0 9)
                     (λ y b,
                        if bool_decide (y / 3 ≠ sy)
                        then upd_c (discard claimant) (sx * 3 + sub_col) y b
                        else b))) b) x y
  ↔ a ∈ cand b x y
    ∧ ¬ (y < 9 ∧ y / 3 ≠ sy ∧ ∃ k, k < 3 ∧ x = sx * 3 + k ∧ a ∈ sget claimed k).
Proof.
  intros iter_nat_enum. split.
  - intros Ha. split.
    + revert Ha. apply (shrinks_for_each _ _); intros; shrink.
    + intros (Hy & Hsy & k & Hk & -> & Hcl). revert Ha.
      apply for_each_removed; [intros; shrink|].
      exists k. split; [apply elem_of_range; lia|]. intros b1.
      apply for_each_removed; [intros; shrink|].
      exists a. split; [by apply elem_of_enumeration|]. intros b2.
      apply for_each_removed; [intros; shrink|].
      exists y. split; [apply elem_of_range; lia|]. intros b3.
      rewrite bool_decide_eq_true_2 by done. rewrite elem_of_cand_discard.
      naive_solver.
  - intros [Ha Hno]. revert Ha.
    apply (for_each_inv (λ s, a ∈ cand s x y)). intros k s1 Hk%elem_of_range.
    apply (for_each_inv (λ s, a ∈ cand s x y)).
    intros c s2 Hc%elem_of_enumeration; [|done].
    apply (for_each_inv (λ s, a ∈ cand s x y)). intros y' s3 Hy'%elem_of_range Ha.
    case_bool_decide; [|done]. rewrite elem_of_cand_discard. split; [done|].
    intros [-> [= Ex Ey]]. subst x y. apply Hno. split; [lia|]. split; [done|].
    exists k. split; [lia|]. done.
Qed.

Lemma subcol_sets_spec b sx sy k a :
  k < 3 →
  a ∈ sget
        (for_each (range (sx * 3) (sx * 3 + 3))
           (λ x, for_each (range (sy * 3) (sy * 3 + 3))
                   (λ y subcol_sets,
                      <[x mod 3 := sget subcol_sets (x mod 3) ∪ cand b x y]>
                        subcol_sets))
           [∅; ∅; ∅]) k
  ↔ in_sub_col b (sx * 3 + k) sy a.
Proof.
  intros Hk.
  rewrite (for_each_cells
             (λ y x subcol_sets,
                <[x mod 3 := sget subcol_sets (x mod 3) ∪ cand b x y]> subcol_sets)
             (sy * 3, sy * 3 + 3) (sx * 3, sx * 3 + 3)).
  rewrite (subsets_accumulate (λ p, p.2 mod 3) (λ p, cand b p.2 p.1))
    by (simpl; lia).
  unfold in_sub_col. split.
  - intros [Hin|([y x] & Hin%elem_of_cells & Hm & Ha)].
    { destruct k as [|[|[|k]]]; set_solver. }
    simpl in Hin, Hm, Ha. destruct Hin as [Hy Hx]. exists y.
    split; [by apply in_block|].
    assert (x = sx * 3 + k) as <-; [|done]. by apply mod_block.
  - intros (y & Hy%in_block & Ha). right. exists (y, sx * 3 + k).
    split; [apply elem_of_cells; simpl; lia|]. split; [|done].
    simpl. by apply (mod_block sx).
Qed.

(** X9. [number_claiming_col] removes a value from a square exactly when the
    square lies outside the sub-grid, in one of its three columns, and the
    value is a candidate within the sub-grid in that column and in neither
    of the other two; every other candidate stays. *)
Theorem number_claiming_col_correct iter_nat (b : board) (sx sy x y a : nat) :
  enumeration iter_nat →
  a ∈ cand (Old.number_claiming_col iter_nat sx sy b) x y
  ↔ a ∈ cand b x y
    ∧ ¬ (y < 9 ∧ y / 3 ≠ sy ∧ x / 3 = sx ∧ in_sub_col b x sy a
         ∧ ∀ x', x' / 3 = sx → x' ≠ x → ¬ in_sub_col b x' sy a).
Proof.
  intros Henum. unfold Old.number_claiming_col. cbv zeta.
  rewrite claiming_col_removes by done.
  apply and_iff_compat_l, not_iff_compat, and_iff_compat_l, and_iff_compat_l.
  split.
  - intros (k & Hk & -> & Hcl). apply claimed_spec in Hcl as [Hin Hout]; [|done].
    split; [apply in_block; lia|]. split; [by apply subcol_sets_spec|].
    intros x' Hx' Hne Hin'. apply in_block in Hx'.
    apply (Hout (x' - sx * 3)); [lia..|].
    apply subcol_sets_spec; [lia|]. by replace (sx * 3 + (x' - sx * 3)) with x' by lia.
  - intros (Hx%in_block & Hin & Hout). exists (x - sx * 3).
    split; [lia|]. split; [lia|]. apply claimed_spec; [lia|]. split.
    + apply subcol_sets_spec; [lia|]. by replace (sx * 3 + (x - sx * 3)) with x by lia.
    + intros j Hj Hne Hin'%subcol_sets_spec; [|done].
      apply (Hout (sx * 3 + j)); [apply in_block; lia|lia|done].
Qed.

Lemma number_claiming_col_correct_witness :
  2 ∈ cand (Old.number_claiming_col elements 0 2 shared_pair_board) 1 1
  ↔ 2 ∈ cand shared_pair_board 1 1
    ∧ ¬ (1 < 9 ∧ 1 / 3 ≠ 2 ∧ 1 / 3 = 0 ∧ in_sub_col shared_pair_board 1 2 2
         ∧ ∀ x', x' / 3 = 0 → x' ≠ 1 → ¬ in_sub_col shared_pair_board x' 2 2).
Proof.
  apply (number_claiming_col_correct elements shared_pair_board 0 2 1 1 2).
  apply enumeration_elements.
Defined.

(** ** What [init] computes *)

Lemma int_of_char_le ch v : int_of_char ch = Some v → v ≤ 9.
Proof.
  unfold int_of_char.
  destruct (filter _ decimal_zeros) as [|z k] eqn:E; [done|]. intros [= <-].
  assert (z ∈ filter (λ z, (z ≤ ch ∧ ch < z + 10)%N) decimal_zeros) as Hz
    by (rewrite E; left).
  apply list_elem_of_filter in Hz as [[Hlo Hhi] _]. lia.
Qed.

Lemma int_of_char_zero_char : int_of_char zero_char = Some 0.
Proof. vm_compute. reflexivity. Qed.

Lemma glyph_zero puzzle x y :
  glyph puzzle x y = zero_char → digit puzzle x y = 0.
Proof.
  unfold glyph, digit. destruct (readline puzzle y !! x) as [ch|]; [|done].
  simpl. intros ->. by rewrite int_of_char_zero_char.
Qed.

Lemma digit_le puzzle x y : digit puzzle x y ≤ 9.
Proof.
  unfold digit. destruct (readline puzzle y !! x) as [ch|]; simpl; [|lia].
  destruct (int_of_char ch) as [v|] eqn:E; simpl; [|lia].
  by eapply int_of_char_le.
Qed.

Lemma init_read_ok puzzle y x ch v b :
  readline puzzle y !! x = Some ch → int_of_char ch = Some v →
  init_read (readline puzzle y) y x b
  = Done (read_digit (glyph puzzle x y) (digit puzzle x y) y x b).
Proof.
  intros Hch Hv. unfold init_read, read_digit, glyph, digit.
  rewrite Hch. simpl. rewrite Hv. simpl. by case_bool_decide.
Qed.

Lemma for_raise_for_each {I} (body : I → board → outcome)
    (body' : I → board → board) l :
  (∀ i b, i ∈ l → body i b = Done (body' i b)) →
  ∀ b, for_raise l body b = Done (for_each l body' b).
Proof.
  induction l as [|i l IH]; intros Hbody b; [done|]. cbn [for_raise].
  rewrite Hbody by left. rewrite for_each_cons. apply IH.
  intros j s Hj. apply Hbody. by right.
Qed.

(** A loop whose body raises at [i], after the passes of [l1]. *)
Lemma for_raise_raised {I} (body : I → board → outcome)
    (body' : I → board → board) (g : board → board) l1 i l2 e :
  (∀ j b, j ∈ l1 → body j b = Done (body' j b)) →
  (∀ b, body i b = Raised e (g b)) →
  ∀ b, for_raise (l1 ++ i :: l2) body b = Raised e (g (for_each l1 body' b)).
Proof.
  intros Hdone Hraise. induction l1 as [|j l1 IH]; intros b.
  - cbn [app for_raise]. by rewrite Hraise.
  - cbn [app for_raise]. rewrite Hdone by left. rewrite for_each_cons.
    apply IH. intros k s Hk. apply Hdone. by right.
Qed.

Lemma for_each_fmap {I J S} (f : I → J) (body : J → S → S) l s :
  for_each (f <$> l) body s = for_each l (λ i, body (f i)) s.
Proof.
  revert s. induction l as [|i l IH]; intros s; [done|].
  rewrite fmap_cons, !for_each_cons. apply IH.
Qed.

Lemma elem_of_cells_before x y x' y' :
  x ≤ grid_l → (x', y') ∈ cells_before x y ↔ earlier x' y' x y.
Proof.
  intros Hx. unfold cells_before, earlier.
  rewrite elem_of_app, elem_of_cells, list_elem_of_fmap. cbn [fst snd]. split.
  - intros [?|(i & [= -> ->] & Hi%elem_of_range)]; lia.
  - intros [Hx' [Hy'|[-> Hlt]]]; [left; lia|].
    right. exists x'. split; [done|]. apply elem_of_range. lia.
Qed.

(** The first pair of loops of [init] on a text whose places before the
    place [x] of line [y] hold digits, when the body raises there. *)
Lemma init_grid_raised puzzle x y e :
  x < grid_l → y < grid_l →
  (∀ x' y', earlier x' y' x y →
     ∃ ch v, readline puzzle y' !! x' = Some ch ∧ int_of_char ch = Some v) →
  (∀ b, init_read (readline puzzle y) y x b = Raised e b) →
  init_grid puzzle = Raised e (read_prefix puzzle (cells_before x y)).
Proof.
  intros Hx Hy Hbefore Hraise. unfold init_grid.
  rewrite (range_split 0 grid_l y) at 1 by lia.
  rewrite (for_raise_raised _
             (λ y', for_each (range 0 grid_l)
                      (λ x', read_digit (glyph puzzle x' y') (digit puzzle x' y')
                               y' x'))
             (for_each (range 0 x)
                (λ x', read_digit (glyph puzzle x' y) (digit puzzle x' y) y x'))
             _ _ _ e).
  - f_equal. unfold read_prefix, cells_before.
    rewrite for_each_app, for_each_fmap. f_equal.
    by rewrite <- (for_each_cells
                     (λ x' y', read_digit (glyph puzzle x' y') (digit puzzle x' y')
                                 y' x') (0, grid_l) (0, y)).
  - intros y' b Hy'%elem_of_range. apply for_raise_for_each.
    intros x' s Hx'%elem_of_range.
    destruct (Hbefore x' y') as (ch & v & Hch & Hv); [unfold earlier; lia|].
    by eapply init_read_ok.
  - intros b. rewrite (range_split 0 grid_l x) at 1 by lia.
    apply (for_raise_raised _
             (λ x', read_digit (glyph puzzle x' y) (digit puzzle x' y) y x')
             (λ s, s)); [|done].
    intros x' s Hx'%elem_of_range.
    destruct (Hbefore x' y) as (ch & v & Hch & Hv); [unfold earlier; lia|].
    by eapply init_read_ok.
Qed.

Lemma init_grid_digits puzzle :
  digits_text puzzle → init_grid puzzle = Done (read_all puzzle).
Proof.
  intros Htext. unfold init_grid, read_all, read_prefix.
  rewrite <- (for_each_cells
                (λ x y, read_digit (glyph puzzle x y) (digit puzzle x y) y x)).
  apply for_raise_for_each. intros y b Hy%elem_of_range.
  apply for_raise_for_each. intros x b' Hx%elem_of_range.
  cbn [fst snd] in Hx, Hy.
  destruct (Htext y x) as (ch & v & Hch & Hv); [lia..|]. by eapply init_read_ok.
Qed.

Lemma for_each_field {I A} (f : board → A) (body : I → board → board)
    (g : I → A → A) l :
  (∀ i s, f (body i s) = g i (f s)) →
  ∀ s, f (for_each l body s) = for_each l g (f s).
Proof.
  intros Hbody. induction l as [|i l IH]; intros s; [done|].
  rewrite !for_each_cons, IH. by rewrite Hbody.
Qed.

(** The columns of the grid after the appends of a list of squares. *)
Lemma columns_appended {I} (d f : I → nat) l (g : list (list nat)) x :
  for_each l (λ p g, alter (λ col, col ++ [d p]) (f p) g) g !! x
  = (λ col, col ++ (d <$> filter (λ p, f p = x) l)) <$> (g !! x).
Proof.
  revert g. induction l as [|p l IH]; intros g.
  - rewrite for_each_nil. destruct (g !! x) as [col|]; [|done]. simpl.
    by rewrite app_nil_r.
  - rewrite for_each_cons, IH. destruct (decide (f p = x)) as [<-|Hne].
    + rewrite list_lookup_alter_eq, filter_cons_True by done.
      destruct (g !! f p) as [col|]; [|done]. simpl.
      by rewrite <- app_assoc.
    + by rewrite list_lookup_alter_ne, filter_cons_False by done.
Qed.

(** The members of a slot of a list of sets after the adds of a list of
    squares: the square [p] adds [d p] to the slot [f p] when [c p]. *)
Lemma sets_added {I} (c : I → Prop) `{!∀ p, Decision (c p)} (d f : I → nat)
    l (sets : list (gset nat)) k a :
  a ∈ sget (for_each l
              (λ p sets,
                 if bool_decide (c p)
                 then alter (λ s, {[d p]} ∪ s) (f p) sets else sets) sets) k
  ↔ a ∈ sget sets k
    ∨ (k < length sets ∧ ∃ p, p ∈ l ∧ c p ∧ f p = k ∧ d p = a).
Proof.
  revert sets. induction l as [|p l IH]; intros sets.
  - rewrite for_each_nil. set_solver.
  - rewrite for_each_cons, IH.
    assert (a ∈ sget (if bool_decide (c p)
                      then alter (λ s, {[d p]} ∪ s) (f p) sets else sets) k
            ↔ a ∈ sget sets k
              ∨ (k < length sets ∧ c p ∧ f p = k ∧ d p = a)) as ->.
    { case_bool_decide as Hd; [|naive_solver]. unfold sget.
      destruct (decide (f p = k)) as [<-|Hne].
      - rewrite list_lookup_alter_eq.
        destruct (sets !! f p) as [s|] eqn:E; simpl.
        + apply lookup_lt_Some in E. set_solver.
        + apply lookup_ge_None in E. set_solver by lia.
      - rewrite list_lookup_alter_ne by done. naive_solver. }
    assert (length (if bool_decide (c p)
                    then alter (λ s, {[d p]} ∪ s) (f p) sets else sets)
            = length sets) as ->.
    { case_bool_decide; [apply length_alter | done]. }
    set_solver.
Qed.

Lemma lookup2_gmap2 {A} (h : nat → nat → A → A) (g : list (list A)) x y :
  (gmap2 h g !! x ≫= λ col, col !! y) = h x y <$> (g !! x ≫= λ col, col !! y).
Proof.
  unfold gmap2. rewrite list_lookup_imap.
  destruct (g !! x) as [col|]; [|done]. simpl. by rewrite list_lookup_imap.
Qed.

(** The members of an entry of a grid of sets after the adds of a list of
    squares. *)
Lemma grid_added {I} (c : I → Prop) `{!∀ p, Decision (c p)} (d f h : I → nat)
    l (g : list (list (gset nat))) i j a :
  a ∈ gget ∅ (for_each l
                (λ p g,
                   if bool_decide (c p)
                   then gupd (λ s, {[d p]} ∪ s) (f p) (h p) g else g) g) i j
  ↔ a ∈ gget ∅ g i j
    ∨ (is_Some (g !! i ≫= λ col, col !! j)
       ∧ ∃ p, p ∈ l ∧ c p ∧ f p = i ∧ h p = j ∧ d p = a).
Proof.
  revert g. induction l as [|p l IH]; intros g.
  - rewrite for_each_nil. set_solver.
  - rewrite for_each_cons, IH.
    assert (a ∈ gget ∅ (if bool_decide (c p)
                        then gupd (λ s, {[d p]} ∪ s) (f p) (h p) g else g) i j
            ↔ a ∈ gget ∅ g i j
              ∨ (is_Some (g !! i ≫= λ col, col !! j)
                 ∧ c p ∧ f p = i ∧ h p = j ∧ d p = a)) as ->.
    { case_bool_decide as Hd; [|naive_solver].
      rewrite gupd_gmap2, gget_gmap2. unfold gget.
      destruct (g !! i ≫= _) as [s|] eqn:E; simpl.
      - case_decide as Hq; [|naive_solver]. injection Hq as <- <-.
        rewrite elem_of_union, elem_of_singleton. naive_solver.
      - split; [set_solver|]. intros [?|[[? [=]] _]]. done. }
    assert (is_Some ((if bool_decide (c p)
                      then gupd (λ s, {[d p]} ∪ s) (f p) (h p) g else g) !! i
                     ≫= λ col, col !! j)
            ↔ is_Some (g !! i ≫= λ col, col !! j)) as ->.
    { case_bool_decide; [|done]. rewrite gupd_gmap2, lookup2_gmap2.
      apply fmap_is_Some. }
    set_solver.
Qed.

(** *** The state after the first pair of loops *)

Lemma m_grid_read_prefix puzzle l x :
  x < grid_l →
  m_grid (read_prefix puzzle l) !! x
  = Some ((λ p, digit puzzle p.1 p.2) <$> filter (λ p, p.1 = x) l).
Proof.
  intros Hx. unfold read_prefix.
  rewrite (for_each_field m_grid _
             (λ p g, alter (λ col, col ++ [digit puzzle p.1 p.2]) p.1 g)).
  2:{ intros p s. unfold read_digit. cbv zeta. by case_bool_decide. }
  rewrite (columns_appended (λ p, digit puzzle p.1 p.2) fst).
  cbn [m_grid board0]. by rewrite lookup_replicate_2 by done.
Qed.

Lemma c_grid_read_prefix puzzle l : c_grid (read_prefix puzzle l) = c_grid board0.
Proof.
  unfold read_prefix. apply (for_each_inv (λ b, c_grid b = c_grid board0)); [|done].
  intros p s _ Hs. unfold read_digit. cbv zeta. by case_bool_decide.
Qed.

Lemma cand_read_prefix puzzle l x y : cand (read_prefix puzzle l) x y = ∅.
Proof. unfold cand. rewrite c_grid_read_prefix. apply cand_board0. Qed.

Lemma sets_allocated_read_prefix puzzle l : sets_allocated (read_prefix puzzle l).
Proof.
  unfold read_prefix. apply (for_each_inv sets_allocated).
  - intros p s _ (Hc & Hr & Hs). unfold read_digit. cbv zeta.
    case_bool_decide; [|done]. unfold sets_allocated.
    cbn [col_set row_set s_grid_set add_s_grid add_row add_col append_m].
    rewrite !length_alter. split; [done|]. split; [done|]. intros i j Hi Hj.
    rewrite gupd_gmap2, lookup2_gmap2. apply fmap_is_Some. by apply Hs.
  - split; [done|]. split; [done|]. intros i j Hi Hj. cbn [s_grid_set board0].
    rewrite lookup_replicate_2 by done. cbn [mbind option_bind].
    by rewrite lookup_replicate_2.
Qed.

Lemma row_set_read_prefix puzzle l y v :
  y < grid_l →
  v ∈ sget (row_set (read_prefix puzzle l)) y
  ↔ ∃ p, p ∈ l ∧ glyph puzzle p.1 p.2 ≠ zero_char ∧ p.2 = y
         ∧ digit puzzle p.1 p.2 = v.
Proof.
  intros Hy. unfold read_prefix.
  rewrite (for_each_field row_set _
             (λ p sets, if bool_decide (glyph puzzle p.1 p.2 ≠ zero_char)
                        then alter (λ s, {[digit puzzle p.1 p.2]} ∪ s) p.2 sets
                        else sets)).
  2:{ intros p s. unfold read_digit. cbv zeta. by case_bool_decide. }
  rewrite (sets_added (λ p, glyph puzzle p.1 p.2 ≠ zero_char)
             (λ p, digit puzzle p.1 p.2) snd).
  cbn [row_set board0]. rewrite length_replicate. unfold sget at 1.
  rewrite lookup_replicate_2 by done. cbn [default]. split.
  - intros [Hin|[_ Hp]]; [set_solver | done].
  - intros Hp. right. by split.
Qed.

Lemma col_set_read_prefix puzzle l x v :
  x < grid_l →
  v ∈ sget (col_set (read_prefix puzzle l)) x
  ↔ ∃ p, p ∈ l ∧ glyph puzzle p.1 p.2 ≠ zero_char ∧ p.1 = x
         ∧ digit puzzle p.1 p.2 = v.
Proof.
  intros Hx. unfold read_prefix.
  rewrite (for_each_field col_set _
             (λ p sets, if bool_decide (glyph puzzle p.1 p.2 ≠ zero_char)
                        then alter (λ s, {[digit puzzle p.1 p.2]} ∪ s) p.1 sets
                        else sets)).
  2:{ intros p s. unfold read_digit. cbv zeta. by case_bool_decide. }
  rewrite (sets_added (λ p, glyph puzzle p.1 p.2 ≠ zero_char)
             (λ p, digit puzzle p.1 p.2) fst).
  cbn [col_set board0]. rewrite length_replicate. unfold sget at 1.
  rewrite lookup_replicate_2 by done. cbn [default]. split.
  - intros [Hin|[_ Hp]]; [set_solver | done].
  - intros Hp. right. by split.
Qed.

Lemma s_grid_set_read_prefix puzzle l i j v :
  i < sub_h → j < sub_l →
  v ∈ gget ∅ (s_grid_set (read_prefix puzzle l)) i j
  ↔ ∃ p, p ∈ l ∧ glyph puzzle p.1 p.2 ≠ zero_char
         ∧ p.1 / sub_l = i ∧ p.2 / sub_h = j ∧ digit puzzle p.1 p.2 = v.
Proof.
  intros Hi Hj. unfold read_prefix.
  rewrite (for_each_field s_grid_set _
             (λ p g, if bool_decide (glyph puzzle p.1 p.2 ≠ zero_char)
                     then gupd (λ s, {[digit puzzle p.1 p.2]} ∪ s)
                            (p.1 / sub_l) (p.2 / sub_h) g
                     else g)).
  2:{ intros p s. unfold read_digit. cbv zeta. by case_bool_decide. }
  rewrite (grid_added (λ p, glyph puzzle p.1 p.2 ≠ zero_char)
             (λ p, digit puzzle p.1 p.2) (λ p, p.1 / sub_l) (λ p, p.2 / sub_h)).
  cbn [s_grid_set board0].
  assert (replicate sub_h (replicate sub_l (∅ : gset nat)) !! i
          ≫= (λ col, col !! j) = Some ∅) as Hlook.
  { rewrite lookup_replicate_2 by done. cbn [mbind option_bind].
    by rewrite lookup_replicate_2. }
  unfold gget at 1. rewrite Hlook. cbn [default]. split.
  - intros [Hin|[_ Hp]]; [set_solver | done].
  - intros Hp. right. by split.
Qed.

(** The squares of a column among the places read before [(x, y)]. *)
Lemma column_of_cells_before x y x' :
  x < grid_l → y < grid_l → x' < grid_l →
  filter (λ p : nat * nat, p.1 = x') (cells_before x y)
  = (λ y', (x', y')) <$> range 0 (if decide (x' < x) then S y else y).
Proof.
  intros Hx Hy Hx'.
  below_nine y Hy
    ltac:(below_nine x Hx ltac:(below_nine x' Hx' ltac:(vm_compute; reflexivity))).
Qed.

Lemma column_of_cells x :
  x < grid_l →
  filter (λ p : nat * nat, p.1 = x) (cells (0, grid_l) (0, grid_l))
  = (λ y, (x, y)) <$> range 0 grid_l.
Proof. intros Hx. below_nine x Hx ltac:(vm_compute; reflexivity). Qed.

Lemma lookup_column puzzle x k y :
  y < k →
  default 0 (((λ p : nat * nat, digit puzzle p.1 p.2)
              <$> ((λ y', (x, y')) <$> range 0 k)) !! y)
  = digit puzzle x y.
Proof.
  intros Hy. rewrite !list_lookup_fmap. unfold range.
  rewrite lookup_seq_lt by lia. done.
Qed.

Lemma mval_read_before puzzle x y x' y' :
  x < grid_l → y < grid_l → earlier x' y' x y →
  mval (read_prefix puzzle (cells_before x y)) x' y' = digit puzzle x' y'.
Proof.
  intros Hx Hy [Hx' Hearly]. unfold mval, gget.
  rewrite m_grid_read_prefix, column_of_cells_before by done.
  cbn [mbind option_bind]. apply lookup_column. case_decide; lia.
Qed.

Lemma mval_read_all puzzle x y :
  x < grid_l → y < grid_l → mval (read_all puzzle) x y = digit puzzle x y.
Proof.
  intros Hx Hy. unfold mval, gget, read_all.
  rewrite m_grid_read_prefix, column_of_cells by done.
  cbn [mbind option_bind]. by apply lookup_column.
Qed.

Lemma dims_m_grid_read_all puzzle : dims (m_grid (read_all puzzle)).
Proof.
  assert (length (m_grid (read_all puzzle)) = grid_l) as Hlen.
  { unfold read_all, read_prefix.
    apply (for_each_inv (λ b, length (m_grid b) = grid_l)); [|done].
    intros p s _ Hs. unfold read_digit. cbv zeta.
    case_bool_decide; cbn [m_grid add_s_grid add_row add_col append_m];
      by rewrite length_alter. }
  split; [done|]. intros x col Hcol.
  assert (x < grid_l) as Hx by (rewrite <- Hlen; by eapply lookup_lt_Some).
  unfold read_all in Hcol.
  rewrite m_grid_read_prefix, column_of_cells in Hcol by done.
  apply (inj Some) in Hcol. subst col.
  rewrite !length_fmap. unfold range. by rewrite length_seq.
Qed.

Lemma allocated_read_all puzzle : allocated (read_all puzzle).
Proof.
  split; [apply dims_m_grid_read_all|]. split.
  - unfold read_all. rewrite c_grid_read_prefix. by_decision.
  - apply sets_allocated_read_prefix.
Qed.

Lemma digit_nonzero_glyph puzzle x y :
  digit puzzle x y ≠ 0 → glyph puzzle x y ≠ zero_char.
Proof. intros Hd Hg. by apply Hd, glyph_zero. Qed.

Lemma placed_sets_exact_read_all puzzle : placed_sets_exact (read_all puzzle).
Proof.
  unfold read_all. split; [|split].
  - intros y v Hy Hv. rewrite row_set_read_prefix by done. split.
    + intros ([x y'] & Hp%elem_of_cells & _ & Hy' & Hd). cbn [fst snd] in *.
      subst y'. exists x. split; [lia|]. rewrite <- Hd. apply mval_read_all; lia.
    + intros (x & Hx & Hm). rewrite (mval_read_all puzzle) in Hm by done.
      exists (x, y). cbn [fst snd]. rewrite elem_of_cells. cbn [fst snd].
      split; [lia|]. split; [apply digit_nonzero_glyph; congruence | done].
  - intros x v Hx Hv. rewrite col_set_read_prefix by done. split.
    + intros ([x' y] & Hp%elem_of_cells & _ & Hx' & Hd). cbn [fst snd] in *.
      subst x'. exists y. split; [lia|]. rewrite <- Hd. apply mval_read_all; lia.
    + intros (y & Hy & Hm). rewrite (mval_read_all puzzle) in Hm by done.
      exists (x, y). cbn [fst snd]. rewrite elem_of_cells. cbn [fst snd].
      split; [lia|]. split; [apply digit_nonzero_glyph; congruence | done].
  - intros i j v Hi Hj Hv. rewrite s_grid_set_read_prefix by done. split.
    + intros ([x y] & Hp%elem_of_cells & _ & Hxi & Hyj & Hd). cbn [fst snd] in *.
      exists x, y. split; [lia|]. split; [lia|]. split; [done|]. split; [done|].
      rewrite <- Hd. apply mval_read_all; lia.
    + intros (x & y & Hx & Hy & Hxi & Hyj & Hm).
      rewrite (mval_read_all puzzle) in Hm by done.
      exists (x, y). cbn [fst snd]. rewrite elem_of_cells. cbn [fst snd].
      split; [lia|]. split; [apply digit_nonzero_glyph; congruence | done].
Qed.

Lemma glyph_get puzzle x y ch :
  readline puzzle y !! x = Some ch → glyph puzzle x y = ch.
Proof. intros Hch. unfold glyph. by rewrite Hch. Qed.

Lemma digit_get puzzle x y :
  digits_text puzzle → x < grid_l → y < grid_l →
  ∃ ch, readline puzzle y !! x = Some ch
        ∧ int_of_char ch = Some (digit puzzle x y).
Proof.
  intros Htext Hx Hy. destruct (Htext y x Hy Hx) as (ch & v & Hch & Hv).
  exists ch. split; [done|]. unfold digit. rewrite Hch. simpl. by rewrite Hv.
Qed.

Lemma zero_free_read_all puzzle :
  digits_text puzzle → plain_zeros puzzle → zero_free (read_all puzzle).
Proof.
  intros Htext Hplain.
  assert (∀ p, p ∈ cells (0, grid_l) (0, grid_l) →
            glyph puzzle p.1 p.2 ≠ zero_char → digit puzzle p.1 p.2 ≠ 0) as Hnz.
  { intros [x y] Hp%elem_of_cells Hg Hd. cbn [fst snd] in *.
    destruct (digit_get puzzle x y Htext) as (ch & Hch & Hv); [lia..|].
    apply Hg. rewrite (glyph_get _ _ _ _ Hch).
    apply (Hplain x y); [lia | lia | done | by rewrite Hv, Hd]. }
  unfold read_all. split; [|split].
  - intros y Hy. rewrite row_set_read_prefix by done.
    intros (p & Hp & Hg & _ & Hd). by apply (Hnz p).
  - intros x Hx. rewrite col_set_read_prefix by done.
    intros (p & Hp & Hg & _ & Hd). by apply (Hnz p).
  - intros i j Hi Hj. rewrite s_grid_set_read_prefix by done.
    intros (p & Hp & Hg & _ & _ & Hd). by apply (Hnz p).
Qed.

(** *** The second pair of loops *)

Lemma init_candidates_only_cands y x b : only_cands b (init_candidates y x b).
Proof. unfold init_candidates. by case_bool_decide. Qed.

Lemma mval_only_cands b b' x y : only_cands b b' → mval b' x y = mval b x y.
Proof. intros (Hm & _). unfold mval. by rewrite Hm. Qed.

Lemma solved_of_only_cands b b' x y :
  only_cands b b' → solved_of b' x y = solved_of b x y.
Proof. intros (_ & Hc & Hr & Hs). unfold solved_of. by rewrite Hc, Hr, Hs. Qed.

Lemma init_candidates_loop (l : list (nat * nat)) b :
  dims (c_grid b) → (∀ p, p ∈ l → p.1 < grid_l ∧ p.2 < grid_l) →
  only_cands b (for_each l (λ p, init_candidates p.2 p.1) b)
  ∧ dims (c_grid (for_each l (λ p, init_candidates p.2 p.1) b))
  ∧ ∀ x y,
      cand (for_each l (λ p, init_candidates p.2 p.1) b) x y
      = if decide ((x, y) ∈ l ∧ mval b x y = 0)
        then full_set ∖ solved_of b x y else cand b x y.
Proof.
  revert b. induction l as [|[px py] l IH]; intros b Hd Hl.
  - rewrite for_each_nil. split; [done|]. split; [done|]. intros x y.
    rewrite decide_False; [done|]. intros [Hin _]. by apply not_elem_of_nil in Hin.
  - rewrite for_each_cons. cbn [fst snd].
    pose proof (init_candidates_only_cands py px b) as Ho.
    set (b1 := init_candidates py px b) in *.
    assert (px < grid_l ∧ py < grid_l) as [Hpx Hpy] by (apply (Hl (px, py)); left).
    assert (dims (c_grid b1)) as Hd1.
    { subst b1. unfold init_candidates. case_bool_decide; [|done].
      by apply dims_gupd. }
    assert (∀ x y, cand b1 x y
                   = if decide ((x, y) = (px, py) ∧ mval b x y = 0)
                     then full_set ∖ solved_of b x y else cand b x y) as Hc1.
    { intros x y. subst b1. unfold init_candidates.
      case_bool_decide as Hm.
      - destruct (decide ((x, y) = (px, py))) as [[= -> ->]|Hne].
        + rewrite decide_True by done. by rewrite cand_upd_c_dims.
        + rewrite decide_False by tauto. rewrite cand_upd_c_ne; [done|congruence].
      - rewrite decide_False; [done|]. intros [[= -> ->] ?]. done. }
    destruct (IH b1 Hd1) as (Ho' & Hd' & Hc'). { intros p Hp. apply Hl. by right. }
    split; [|split; [done|]].
    + destruct Ho as (?&?&?&?), Ho' as (?&?&?&?). unfold only_cands.
      split_and!; congruence.
    + intros x y. rewrite Hc', Hc1.
      rewrite (mval_only_cands b b1), (solved_of_only_cands b b1) by done.
      clear Hl IH Hc' Hc1.
      repeat case_decide; try done; exfalso; set_solver.
Qed.

Lemma init_candidate_sets_spec b :
  dims (c_grid b) →
  only_cands b (init_candidate_sets b)
  ∧ dims (c_grid (init_candidate_sets b))
  ∧ ∀ x y, x < grid_l → y < grid_l →
      cand (init_candidate_sets b) x y
      = if decide (mval b x y = 0) then full_set ∖ solved_of b x y
        else cand b x y.
Proof.
  intros Hd. unfold init_candidate_sets.
  rewrite (for_each_cells (λ x y, init_candidates y x) (0, grid_l) (0, grid_l)).
  destruct (init_candidates_loop (cells (0, grid_l) (0, grid_l)) b Hd)
    as (Ho & Hd' & Hc).
  { intros [x y] Hp%elem_of_cells. simpl in *. lia. }
  split; [done|]. split; [done|]. intros x y Hx Hy. rewrite Hc.
  assert ((x, y) ∈ cells (0, grid_l) (0, grid_l)) as Hin.
  { apply elem_of_cells. simpl. lia. }
  repeat case_decide; tauto || done.
Qed.

Lemma init_spec puzzle b :
  init puzzle = Done b →
  digits_text puzzle ∧ b = init_candidate_sets (read_all puzzle).
Proof.
  intros Hinit. assert (digits_text puzzle) as Htext.
  { apply init_done. by exists b. }
  split; [exact Htext|]. unfold init in Hinit.
  rewrite (init_grid_digits puzzle Htext) in Hinit. congruence.
Qed.

Lemma elem_of_full_set v : v ∈ full_set ↔ 1 ≤ v ≤ 9.
Proof.
  unfold full_set, grid_l. rewrite elem_of_list_to_set, elem_of_seq. lia.
Qed.

Lemma elem_of_solved_of b x y v :
  placed_sets_exact b → x < grid_l → y < grid_l → v ≠ 0 →
  v ∈ solved_of b x y
  ↔ ∃ x' y', x' < grid_l ∧ y' < grid_l ∧ sees x y x' y' ∧ mval b x' y' = v.
Proof.
  intros (Hrow & Hcol & Hsub) Hx Hy Hv. unfold solved_of, sees.
  assert (x / sub_l < sub_h ∧ y / sub_h < sub_l) as [Hi Hj].
  { unfold sub_l, sub_h, grid_l in *.
    split; apply Nat.Div0.div_lt_upper_bound; lia. }
  rewrite !elem_of_union, Hrow, Hcol, Hsub by done. split.
  - intros [[(x' & Hx' & Hm)|(y' & Hy' & Hm)]
           |(x' & y' & Hx' & Hy' & Hi' & Hj' & Hm)].
    + exists x', y. tauto.
    + exists x, y'. tauto.
    + exists x', y'. tauto.
  - intros (x' & y' & Hx' & Hy' & [->|[->|[Hi' Hj']]] & Hm).
    + left. right. by exists y'.
    + left. left. by exists x'.
    + right. by exists x', y'.
Qed.

Lemma placed_sets_exact_only_cands b b' :
  only_cands b b' → placed_sets_exact b → placed_sets_exact b'.
Proof.
  intros (Hm & Hc & Hr & Hs). unfold placed_sets_exact, mval.
  by rewrite Hm, Hc, Hr, Hs.
Qed.

Lemma zero_free_only_cands b b' : only_cands b b' → zero_free b → zero_free b'.
Proof. intros (_ & Hc & Hr & Hs). unfold zero_free. by rewrite Hc, Hr, Hs. Qed.

Lemma sets_allocated_only_cands b b' :
  only_cands b b' → sets_allocated b → sets_allocated b'.
Proof. intros (_ & Hc & Hr & Hs). unfold sets_allocated. by rewrite Hc, Hr, Hs. Qed.

Lemma allocated_only_cands b b' :
  only_cands b b' → dims (c_grid b') → allocated b → allocated b'.
Proof.
  intros Ho Hd (Hdm & _ & Hrest). pose proof Ho as (Hm & _).
  split; [by rewrite Hm|]. split; [done|].
  by apply (sets_allocated_only_cands b).
Qed.

Lemma init_only_cands puzzle b :
  init puzzle = Done b →
  digits_text puzzle ∧ only_cands (read_all puzzle) b ∧ dims (c_grid b)
  ∧ ∀ x y, x < grid_l → y < grid_l →
      cand b x y
      = if decide (mval (read_all puzzle) x y = 0)
        then full_set ∖ solved_of (read_all puzzle) x y else ∅.
Proof.
  intros [Htext ->]%init_spec. split; [done|].
  destruct (init_candidate_sets_spec (read_all puzzle)) as (Ho & Hd & Hc).
  { apply allocated_read_all. }
  split; [done|]. split; [done|]. intros x y Hx Hy. rewrite Hc by done.
  case_decide; [done|]. apply cand_read_prefix.
Qed.

Lemma mval_init puzzle b x y :
  init puzzle = Done b → x < grid_l → y < grid_l → mval b x y = digit puzzle x y.
Proof.
  intros (_ & Ho & _)%init_only_cands Hx Hy.
  rewrite (mval_only_cands _ _ _ _ Ho). by apply mval_read_all.
Qed.

Lemma allocated_init puzzle b : init puzzle = Done b → allocated b.
Proof.
  intros (_ & Ho & Hd & _)%init_only_cands.
  apply (allocated_only_cands (read_all puzzle)); [done..|].
  apply allocated_read_all.
Qed.

Lemma placed_sets_exact_init puzzle b :
  init puzzle = Done b → placed_sets_exact b.
Proof.
  intros (_ & Ho & _)%init_only_cands.
  apply (placed_sets_exact_only_cands (read_all puzzle)); [done|].
  apply placed_sets_exact_read_all.
Qed.

Lemma zero_free_init puzzle b :
  init puzzle = Done b → plain_zeros puzzle → zero_free b.
Proof.
  intros (Htext & Ho & _)%init_only_cands Hplain.
  apply (zero_free_only_cands (read_all puzzle)); [done|].
  by apply zero_free_read_all.
Qed.

Lemma cand_init puzzle b x y v :
  init puzzle = Done b → x < grid_l → y < grid_l →
  v ∈ cand b x y
  ↔ mval b x y = 0 ∧ 1 ≤ v ≤ 9
    ∧ ∀ x' y', x' < grid_l → y' < grid_l → sees x y x' y' → mval b x' y' ≠ v.
Proof.
  intros Hinit Hx Hy. pose proof (placed_sets_exact_init _ _ Hinit) as Hex.
  apply init_only_cands in Hinit as (Htext & Ho & _ & Hc).
  rewrite Hc by done. rewrite <- (mval_only_cands _ _ x y Ho).
  rewrite <- (solved_of_only_cands _ _ x y Ho).
  case_decide as Hm.
  - rewrite elem_of_difference, elem_of_full_set. split.
    + intros [Hv Hno]. split; [done|]. split; [done|].
      intros x' y' Hx' Hy' Hsees Heq. apply Hno.
      apply elem_of_solved_of; [done | done | done | lia |]. by exists x', y'.
    + intros (_ & Hv & Hno). split; [done|].
      intros (x' & y' & Hx' & Hy' & Hsees & Heq)%elem_of_solved_of;
        [|done|done|done|lia].
      exact (Hno x' y' Hx' Hy' Hsees Heq).
  - split; [set_solver|]. intros [? _]. done.
Qed.

(** The characters of the text and the functions [glyph] and [digit]. *)
Lemma glyph_digit_iff puzzle x y v :
  digits_text puzzle → x < grid_l → y < grid_l →
  glyph puzzle x y ≠ zero_char ∧ digit puzzle x y = v
  ↔ ∃ ch, readline puzzle y !! x = Some ch ∧ ch ≠ zero_char
          ∧ int_of_char ch = Some v.
Proof.
  intros Htext Hx Hy. destruct (digit_get puzzle x y Htext Hx Hy) as (ch & Hch & Hv).
  rewrite (glyph_get _ _ _ _ Hch). split.
  - intros [Hg <-]. by exists ch.
  - intros (ch' & Hch' & Hg & Hv'). simplify_eq. split; [done | congruence].
Qed.

(** *** The grid, the sets and the candidates after [init] *)

(** X10. When [init] ends normally the lists of the state have their full
    sizes and the grid holds the digits of the text: [m_grid[x][y]] is the
    value of the character at place [x] of line [y]. *)
Theorem init_reads_grid (puzzle : text) (b : board) :
  init puzzle = Done b →
  allocated b
  ∧ ∀ x y, x < grid_l → y < grid_l →
      ∃ ch, readline puzzle y !! x = Some ch
            ∧ int_of_char ch = Some (mval b x y).
Proof.
  intros Hinit. split; [by eapply allocated_init|]. intros x y Hx Hy.
  rewrite (mval_init puzzle b x y Hinit Hx Hy).
  apply digit_get; [|exact Hx|exact Hy]. apply init_done. by exists b.
Qed.

Lemma init_reads_grid_witness :
  allocated one_blank_board
  ∧ ∀ x y, x < grid_l → y < grid_l →
      ∃ ch, readline one_blank y !! x = Some ch
            ∧ int_of_char ch = Some (mval one_blank_board x y).
Proof. apply (init_reads_grid one_blank). vm_compute. reflexivity. Defined.

(** X11. After [init] the sets of placed values hold the values of the
    characters other than [0]: [v] is in [row_set[y]] exactly when line [y]
    has, at one of its nine places, a character other than [0] of value
    [v]; so it is for [col_set[x]] and for [s_grid_set[i][j]].  Hence a
    value other than 0 is in the set of a unit exactly when a square of the
    unit holds it; and 0 is in no set when the blank squares are written
    with the character [0] (the digit zero of another script has the value
    0 and is added to the sets). *)
Theorem init_placed_sets (puzzle : text) (b : board) (v : nat) :
  init puzzle = Done b →
  (∀ y, y < grid_l →
     v ∈ sget (row_set b) y
     ↔ ∃ x ch, x < grid_l ∧ readline puzzle y !! x = Some ch
               ∧ ch ≠ zero_char ∧ int_of_char ch = Some v)
  ∧ (∀ x, x < grid_l →
       v ∈ sget (col_set b) x
       ↔ ∃ y ch, y < grid_l ∧ readline puzzle y !! x = Some ch
                 ∧ ch ≠ zero_char ∧ int_of_char ch = Some v)
  ∧ (∀ i j, i < sub_h → j < sub_l →
       v ∈ gget ∅ (s_grid_set b) i j
       ↔ ∃ x y ch, x < grid_l ∧ y < grid_l ∧ x / sub_l = i ∧ y / sub_h = j
                   ∧ readline puzzle y !! x = Some ch
                   ∧ ch ≠ zero_char ∧ int_of_char ch = Some v)
  ∧ placed_sets_exact b
  ∧ (plain_zeros puzzle → zero_free b).
Proof.
  intros Hinit.
  split; [|split; [|split; [|split;
    [by eapply placed_sets_exact_init | by apply zero_free_init]]]];
    apply init_only_cands in Hinit as (Htext & (_ & Hc & Hr & Hs) & _).
  - intros y Hy. rewrite Hr. unfold read_all.
    rewrite row_set_read_prefix by done. split.
    + intros ([x y'] & Hp%elem_of_cells & Hg & Hy' & Hd). cbn [fst snd] in *.
      subst y'. assert (x < grid_l) as Hx by lia.
      destruct (proj1 (glyph_digit_iff puzzle x y v Htext Hx Hy))
        as (ch & Hch); [done|].
      by exists x, ch.
    + intros (x & ch & Hx & Hch). exists (x, y). cbn [fst snd].
      rewrite elem_of_cells. cbn [fst snd]. split; [lia|].
      destruct (proj2 (glyph_digit_iff puzzle x y v Htext Hx Hy)) as [Hg Hd];
        [by exists ch | done].
  - intros x Hx. rewrite Hc. unfold read_all.
    rewrite col_set_read_prefix by done. split.
    + intros ([x' y] & Hp%elem_of_cells & Hg & Hx' & Hd). cbn [fst snd] in *.
      subst x'. assert (y < grid_l) as Hy by lia.
      destruct (proj1 (glyph_digit_iff puzzle x y v Htext Hx Hy))
        as (ch & Hch); [done|].
      by exists y, ch.
    + intros (y & ch & Hy & Hch). exists (x, y). cbn [fst snd].
      rewrite elem_of_cells. cbn [fst snd]. split; [lia|].
      destruct (proj2 (glyph_digit_iff puzzle x y v Htext Hx Hy)) as [Hg Hd];
        [by exists ch | done].
  - intros i j Hi Hj. rewrite Hs. unfold read_all.
    rewrite s_grid_set_read_prefix by done. split.
    + intros ([x y] & Hp%elem_of_cells & Hg & Hxi & Hyj & Hd).
      cbn [fst snd] in *.
      assert (x < grid_l ∧ y < grid_l) as [Hx Hy] by lia.
      destruct (proj1 (glyph_digit_iff puzzle x y v Htext Hx Hy))
        as (ch & Hch); [done|].
      exists x, y, ch. tauto.
    + intros (x & y & ch & Hx & Hy & Hxi & Hyj & Hch). exists (x, y).
      cbn [fst snd]. rewrite elem_of_cells. cbn [fst snd]. split; [lia|].
      destruct (proj2 (glyph_digit_iff puzzle x y v Htext Hx Hy)) as [Hg Hd];
        [by exists ch | done].
Qed.

Lemma init_placed_sets_witness :
  (∀ y, y < grid_l →
     0 ∈ sget (row_set (state_of (init wide_zeros))) y
     ↔ ∃ x ch, x < grid_l ∧ readline wide_zeros y !! x = Some ch
               ∧ ch ≠ zero_char ∧ int_of_char ch = Some 0)
  ∧ (∀ x, x < grid_l →
       0 ∈ sget (col_set (state_of (init wide_zeros))) x
       ↔ ∃ y ch, y < grid_l ∧ readline wide_zeros y !! x = Some ch
                 ∧ ch ≠ zero_char ∧ int_of_char ch = Some 0)
  ∧ (∀ i j, i < sub_h → j < sub_l →
       0 ∈ gget ∅ (s_grid_set (state_of (init wide_zeros))) i j
       ↔ ∃ x y ch, x < grid_l ∧ y < grid_l ∧ x / sub_l = i ∧ y / sub_h = j
                   ∧ readline wide_zeros y !! x = Some ch
                   ∧ ch ≠ zero_char ∧ int_of_char ch = Some 0)
  ∧ placed_sets_exact (state_of (init wide_zeros))
  ∧ (plain_zeros wide_zeros → zero_free (state_of (init wide_zeros))).
Proof. apply (init_placed_sets wide_zeros). vm_compute. reflexivity. Defined.

(** X12. After [init] the candidates of a blank square are the values from
    1 to 9 that no square of its row, of its column or of its sub-grid
    holds, and a filled square has no candidate. *)
Theorem init_candidates_correct (puzzle : text) (b : board) (x y : nat) :
  init puzzle = Done b → x < grid_l → y < grid_l →
  (mval b x y ≠ 0 → cand b x y = ∅)
  ∧ (mval b x y = 0 →
     ∀ v, v ∈ cand b x y
          ↔ 1 ≤ v ≤ 9
            ∧ ∀ x' y', x' < grid_l → y' < grid_l → sees x y x' y' →
                mval b x' y' ≠ v).
Proof.
  intros Hinit Hx Hy. split.
  - intros Hm. apply set_eq. intros v. rewrite (cand_init puzzle) by done.
    split; [tauto | set_solver].
  - intros Hm v. rewrite (cand_init puzzle) by done. tauto.
Qed.

Lemma init_candidates_correct_witness :
  (mval one_blank_board 0 0 ≠ 0 → cand one_blank_board 0 0 = ∅)
  ∧ (mval one_blank_board 0 0 = 0 →
     ∀ v, v ∈ cand one_blank_board 0 0
          ↔ 1 ≤ v ≤ 9
            ∧ ∀ x' y', x' < grid_l → y' < grid_l → sees 0 0 x' y' →
                mval one_blank_board x' y' ≠ v).
Proof.
  apply (init_candidates_correct one_blank); [vm_compute; reflexivity|..];
    unfold grid_l; lia.
Defined.

(** ** [init] does not validate the puzzle *)

(** A list splits at its first member that fails a decidable test. *)
Lemma first_bad_split {A} (P : A → Prop) `{!∀ a, Decision (P a)} (l : list A) :
  Forall P l ∨ ∃ pre a post, l = pre ++ a :: post ∧ Forall P pre ∧ ¬ P a.
Proof.
  induction l as [|a l IH]; [by left|].
  destruct (decide (P a)) as [Ha|Ha].
  - destruct IH as [IH|(pre & a' & post & -> & Hpre & Ha')].
    + left. by constructor.
    + right. exists (a :: pre), a', post.
      split; [done|]. split; [by constructor | done].
  - right. by exists [], a, l.
Qed.

Lemma cells_split x y :
  x < grid_l → y < grid_l →
  cells (0, grid_l) (0, grid_l)
  = cells_before x y ++ (x, y)
      :: drop (S (grid_l * y + x)) (cells (0, grid_l) (0, grid_l)).
Proof.
  intros Hx Hy.
  below_nine x Hx ltac:(below_nine y Hy ltac:(vm_compute; reflexivity)).
Qed.

(** When [init] raises, it does so at the first place, in the order of
    reading, that holds no decimal digit, and its state is what the places
    before have given. *)
Lemma init_raised puzzle e b :
  init puzzle = Raised e b →
  ∃ x y, x < grid_l ∧ y < grid_l
    ∧ (∀ x' y', earlier x' y' x y →
         ∃ ch v, readline puzzle y' !! x' = Some ch ∧ int_of_char ch = Some v)
    ∧ match readline puzzle y !! x with
      | None => e = IndexError
      | Some ch => int_of_char ch = None ∧ e = ValueError
      end
    ∧ b = read_prefix puzzle (cells_before x y).
Proof.
  intros Hinit.
  destruct (first_bad_split
              (λ p : nat * nat,
                 is_Some (readline puzzle p.2 !! p.1 ≫= int_of_char))
              (cells (0, grid_l) (0, grid_l)))
    as [Hall|(pre & [x y] & post & Hsplit & Hpre & Hbad)].
  - assert (digits_text puzzle) as Htext.
    { intros y x Hy Hx. rewrite Forall_forall in Hall.
      destruct (Hall (x, y)) as [v Hv].
      { apply elem_of_cells. cbn [fst snd]. lia. }
      cbn [fst snd] in Hv.
      destruct (readline puzzle y !! x) as [ch|]; [|done]. by exists ch, v. }
    apply init_done in Htext as [b' Hb']. congruence.
  - assert (x < grid_l ∧ y < grid_l) as [Hx Hy].
    { assert ((x, y) ∈ cells (0, grid_l) (0, grid_l)) as Hin.
      { rewrite Hsplit. set_solver. }
      apply elem_of_cells in Hin. cbn [fst snd] in Hin. lia. }
    assert (pre = cells_before x y) as ->.
    { apply (NoDup_split_eq _ _ post
               (drop (S (grid_l * y + x)) (cells (0, grid_l) (0, grid_l)))
               (x, y)).
      - rewrite <- Hsplit. apply NoDup_cells.
      - by rewrite <- Hsplit, <- cells_split. }
    assert (∀ x' y', earlier x' y' x y →
              ∃ ch v, readline puzzle y' !! x' = Some ch
                      ∧ int_of_char ch = Some v) as Hbefore.
    { intros x' y' Hearly. rewrite Forall_forall in Hpre.
      destruct (Hpre (x', y')) as [v Hv].
      { apply elem_of_cells_before; [lia | done]. }
      cbn [fst snd] in Hv.
      destruct (readline puzzle y' !! x') as [ch|]; [|done]. by exists ch, v. }
    exists x, y. split; [done|]. split; [done|]. split; [done|].
    cbn [fst snd] in Hbad. unfold init in Hinit.
    destruct (readline puzzle y !! x) as [ch|] eqn:Hch.
    + assert (int_of_char ch = None) as Hnone.
      { destruct (int_of_char ch) as [v|] eqn:Hv; [|done].
        exfalso. apply Hbad. by exists v. }
      rewrite (init_grid_raised puzzle x y ValueError Hx Hy Hbefore) in Hinit.
      * by injection Hinit as <- <-.
      * intros s. unfold init_read. by rewrite Hch, Hnone.
    + rewrite (init_grid_raised puzzle x y IndexError Hx Hy Hbefore) in Hinit.
      * by injection Hinit as <- <-.
      * intros s. unfold init_read. by rewrite Hch.
Qed.

(** C7, as the code has it.  [init] ends normally exactly when each of the
    first nine lines has a decimal digit at each of its first nine places,
    whatever the digits are.  Otherwise it raises at the first place, in the
    order of reading (line after line, each line from its first character),
    that holds no decimal digit: [IndexError] when the text has no
    character there, [ValueError] when the character is not a decimal digit
    (the line end of a short line is such a character).  The state then
    holds what the places before have given: their values in the grid and,
    for each character other than [0], its value in the sets of its row, of
    its column and of its sub-grid; and no candidate set has been
    computed. *)
Theorem init_never_validates (puzzle : text) :
  ((∃ b, init puzzle = Done b) ↔ digits_text puzzle)
  ∧ (∀ e b, init puzzle = Raised e b →
       ∃ x y, x < grid_l ∧ y < grid_l
         ∧ match readline puzzle y !! x with
           | None => e = IndexError
           | Some ch => int_of_char ch = None ∧ e = ValueError
           end
         ∧ (∀ x' y', earlier x' y' x y →
              ∃ ch v, readline puzzle y' !! x' = Some ch
                ∧ int_of_char ch = Some v
                ∧ mval b x' y' = v
                ∧ (ch ≠ zero_char →
                   v ∈ sget (row_set b) y' ∧ v ∈ sget (col_set b) x'
                   ∧ v ∈ gget ∅ (s_grid_set b) (x' / sub_l) (y' / sub_h)))
         ∧ (∀ x' y', cand b x' y' = ∅)).
Proof.
  split; [apply init_done|]. intros e b Hinit.
  destruct (init_raised puzzle e b Hinit)
    as (x & y & Hx & Hy & Hbefore & Hexn & ->).
  exists x, y. split; [done|]. split; [done|]. split; [done|].
  split; [|intros x' y'; apply cand_read_prefix].
  intros x' y' Hearly. destruct (Hbefore x' y' Hearly) as (ch & v & Hch & Hv).
  assert (digit puzzle x' y' = v) as Hd.
  { unfold digit. rewrite Hch. cbn [mbind option_bind]. by rewrite Hv. }
  assert (x' < grid_l ∧ y' < grid_l) as [Hx' Hy'].
  { unfold earlier in Hearly. lia. }
  exists ch, v. split; [done|]. split; [done|].
  split; [by rewrite mval_read_before|]. intros Hnz.
  assert ((x', y') ∈ cells_before x y) as Hin.
  { apply elem_of_cells_before; [lia | done]. }
  pose proof (glyph_get _ _ _ _ Hch) as Hg.
  split; [|split].
  - apply row_set_read_prefix; [done|]. exists (x', y'). cbn [fst snd].
    by rewrite Hg.
  - apply col_set_read_prefix; [done|]. exists (x', y'). cbn [fst snd].
    by rewrite Hg.
  - apply s_grid_set_read_prefix.
    + unfold sub_l, sub_h, grid_l in *. apply Nat.Div0.div_lt_upper_bound. lia.
    + unfold sub_l, sub_h, grid_l in *. apply Nat.Div0.div_lt_upper_bound. lia.
    + exists (x', y'). cbn [fst snd]. by rewrite Hg.
Qed.

Lemma init_never_validates_witness :
  ∃ x y, x < grid_l ∧ y < grid_l
    ∧ match readline short_row y !! x with
      | None => ValueError = IndexError
      | Some ch => int_of_char ch = None ∧ ValueError = ValueError
      end
    ∧ (∀ x' y', earlier x' y' x y →
         ∃ ch v, readline short_row y' !! x' = Some ch
           ∧ int_of_char ch = Some v
           ∧ mval (state_of (init short_row)) x' y' = v
           ∧ (ch ≠ zero_char →
              v ∈ sget (row_set (state_of (init short_row))) y'
              ∧ v ∈ sget (col_set (state_of (init short_row))) x'
              ∧ v ∈ gget ∅ (s_grid_set (state_of (init short_row)))
                      (x' / sub_l) (y' / sub_h)))
    ∧ (∀ x' y', cand (state_of (init short_row)) x' y' = ∅).
Proof.
  apply (proj2 (init_never_validates short_row) ValueError
           (state_of (init short_row))).
  vm_compute. reflexivity.
Defined.

(** C7 as stated fails.  A grid with two 5s in one row is read without any
    exception and its candidate sets are computed.  A first line of eight
    characters, in a file of nine lines, stops [init] with [ValueError] at
    the line end, when the eight values before are in the grid; a file of
    eight lines stops it with [IndexError] at the first place of the ninth
    line.  And the digit zero of another script is read as the value 0. *)
Lemma init_accepts_duplicates :
  (∃ b, init two_fives = Done b
        ∧ mval b 0 0 = 5 ∧ mval b 1 0 = 5 ∧ cand b 2 0 = full_set ∖ {[5]})
  ∧ (∃ b, init short_row = Raised ValueError b
          ∧ readline short_row 0 !! 8 = Some newline_char
          ∧ mval b 0 0 = 1 ∧ mval b 7 0 = 8)
  ∧ (∃ b, init eight_lines = Raised IndexError b
          ∧ readline eight_lines 8 !! 0 = None
          ∧ mval b 8 7 = 5)
  ∧ (∃ b, init wide_zeros = Done b
          ∧ readline wide_zeros 0 !! 0 = Some 1632%N ∧ mval b 0 0 = 0).
Proof.
  split; [|split; [|split]].
  - exists (state_of (init two_fives)). by_computation.
  - exists (state_of (init short_row)). by_computation.
  - exists (state_of (init eight_lines)). by_computation.
  - exists (state_of (init wide_zeros)). by_computation.
Qed.


(** ** What a run keeps *)

Lemma sees_sym x y x' y' : sees x y x' y' → sees x' y' x y.
Proof. unfold sees. naive_solver. Qed.

Lemma sees_peers x y qx qy :
  qx < grid_l → qy < grid_l → sees qx qy x y → (qx, qy) ∈ peers x y.
Proof. intros Hx Hy Hs. apply elem_of_peers. unfold sees in Hs. naive_solver. Qed.

Lemma placeable_cand v x y b : sound b → v ∈ cand b x y → placeable v x y b.
Proof.
  intros (_ & _ & Hfilled & Hcand) Hv.
  destruct (Hcand x y v Hv) as (Hx & Hy & Hr & Hsees).
  split; [done|]. split; [done|]. split; [done|]. split; [|done].
  destruct (decide (mval b x y = 0)) as [|Hne]; [done|].
  rewrite (Hfilled x y Hne) in Hv. set_solver.
Qed.

Lemma placeable_only_cands v x y b b' :
  only_cands b b' → placeable v x y b → placeable v x y b'.
Proof.
  intros Ho (Hx & Hy & Hv & Hm & Hsees). unfold placeable.
  rewrite (mval_only_cands b b') by done.
  repeat (split; [done|]). intros x' y' Hx' Hy' Hs. rewrite (mval_only_cands b b') by done. by apply Hsees.
Qed.

Lemma advances_refl extra b : advances extra b b.
Proof. intros Hs He. by split_and!. Qed.

Lemma advances_trans extra b1 b2 b3 :
  advances extra b1 b2 → advances extra b2 b3 → advances extra b1 b3.
Proof.
  intros H12 H23 Hs He.
  destruct (H12 Hs He) as (Hs2 & He2 & Hk12 & Hd12).
  destruct (H23 Hs2 He2) as (Hs3 & He3 & Hk23 & Hd23).
  split_and!; try done; [|tauto].
  intros x y Hm. rewrite Hk23; rewrite Hk12; done.
Qed.

Lemma advances_for_each {I} extra (body : I → board → board) l b :
  (∀ i s, advances extra s (body i s)) → advances extra b (for_each l body b).
Proof.
  intros Hbody. apply (for_each_rel (advances extra)).
  - apply advances_refl.
  - apply advances_trans.
  - intros i s _. apply Hbody.
Qed.

(** An elimination: the candidate sets shrink and nothing else changes. *)
Lemma advances_shrinks (extra : board → Prop) b b' :
  (∀ s s', only_cands s s' → extra s → extra s') →
  only_cands b b' → shrinks b b' → advances extra b b'.
Proof.
  intros Hextra Ho Hsh (Hd & Hdig & Hfilled & Hcand) He.
  pose proof Ho as (Hm & _).
  split_and!.
  - split_and!.
    + by rewrite Hm.
    + intros x y. by rewrite (mval_only_cands b b').
    + by apply (filled_no_cand_shrinks b).
    + intros x y v Hv%Hsh. destruct (Hcand x y v Hv) as (Hx & Hy & Hr & Hsees).
      repeat (split; [done|]). intros x' y' Hx' Hy' Hs.
      rewrite (mval_only_cands b b') by done. by apply Hsees.
  - by apply (Hextra b).
  - intros x y _. by apply mval_only_cands.
  - intros Hdup x y x' y' Hx Hy Hx' Hy' Hs Hne.
    rewrite !(mval_only_cands b b') by done. by apply Hdup.
Qed.

Section PlacementSound.
Variable place : nat → nat → nat → board → board.
Hypothesis place_c_grid : ∀ v x y b,
  c_grid (place v x y b) = gmap2 (placed_cand v x y) (c_grid b).
Hypothesis place_m_grid : ∀ v x y b,
  m_grid (place v x y b) = gupd (λ _, v) x y (m_grid b).

Lemma shrinks_place v x y b : shrinks b (place v x y b).
Proof using place_c_grid.
  clear place_m_grid.
  intros qx qy. rewrite (cand_place _ place_c_grid). unfold cand, gget.
  destruct (c_grid b !! qx ≫= _) as [s|]; simpl; [|done].
  unfold placed_cand, discard. cbv zeta. repeat case_decide; set_solver.
Qed.

Lemma mval_place v x y b qx qy :
  dims (m_grid b) → x < grid_l → y < grid_l →
  mval (place v x y b) qx qy
  = if decide ((qx, qy) = (x, y)) then v else mval b qx qy.
Proof using place_m_grid.
  intros Hd Hx Hy. case_decide as Hq.
  - injection Hq as -> ->. by apply (mval_place_self _ place_m_grid).
  - by apply (mval_place_frame _ place_m_grid).
Qed.

Lemma place_advances v x y b :
  sound b → placeable v x y b →
  sound (place v x y b) ∧ keeps_filled b (place v x y b)
  ∧ (no_duplicate b → no_duplicate (place v x y b)).
Proof using place_c_grid place_m_grid.
  intros (Hd & Hdig & Hfilled & Hcand) (Hx & Hy & Hv & Hm & Hsees).
  assert (∀ qx qy, mval (place v x y b) qx qy
                   = if decide ((qx, qy) = (x, y)) then v else mval b qx qy)
    as Hmval by (intros; by apply mval_place).
  split_and!.
  - split_and!.
    + rewrite place_m_grid. by apply dims_gupd.
    + intros qx qy. rewrite Hmval. case_decide; [lia | apply Hdig].
    + intros qx qy. rewrite Hmval. case_decide as Hq.
      * intros _. injection Hq as -> ->. apply (cand_place_self _ place_c_grid).
      * intros Hne. apply (anti_symm (⊆)); [|apply empty_subseteq].
        rewrite <- (Hfilled qx qy Hne). apply shrinks_place.
    + intros qx qy w Hw. pose proof (shrinks_place v x y b qx qy w Hw) as Hw0.
      destruct (Hcand qx qy w Hw0) as (Hqx & Hqy & Hr & Hs).
      repeat (split; [done|]). intros x' y' Hx' Hy' Hsee. rewrite Hmval.
      case_decide as Hq; [|by apply Hs]. injection Hq as -> ->.
      intros <-. revert Hw. apply (cand_place_peer _ place_c_grid).
      by apply sees_peers.
  - intros qx qy Hne. rewrite Hmval. case_decide as Hq; [|done].
    injection Hq as -> ->. done.
  - intros Hdup x1 y1 x2 y2 Hx1 Hy1 Hx2 Hy2 Hsee Hne. rewrite !Hmval.
    repeat case_decide; simplify_eq.
    + intros _. by apply Hsees.
    + intros Hnz Heq. apply (Hsees x1 y1); [done..| |done].
      by apply sees_sym.
    + by apply Hdup.
Qed.

(** What else a placement keeps, and what an elimination cannot break. *)
Variable extra : board → Prop.
Hypothesis extra_only_cands : ∀ s s', only_cands s s' → extra s → extra s'.
Hypothesis extra_place : ∀ v x y b,
  sound b → placeable v x y b → extra b → extra (place v x y b).

(** A candidate of a square is placed there, after an update of candidate
    sets that took nothing else away (the pop of the naked singles). *)
Lemma advances_place v x y b b1 :
  only_cands b b1 → shrinks b b1 → v ∈ cand b x y →
  advances extra b (place v x y b1).
Proof using place_c_grid place_m_grid extra_only_cands extra_place.
  intros Ho Hsh Hv Hs He.
  destruct (advances_shrinks extra b b1 extra_only_cands Ho Hsh Hs He)
    as (Hs1 & He1 & Hk1 & Hd1).
  assert (placeable v x y b1) as Hp.
  { apply (placeable_only_cands v x y b); [done|]. by apply placeable_cand. }
  destruct (place_advances v x y b1 Hs1 Hp) as (Hs2 & Hk2 & Hd2).
  split; [done|]. split; [by apply extra_place|]. split; [|tauto].
  intros qx qy Hq. rewrite Hk2; rewrite Hk1; done.
Qed.

End PlacementSound.

Lemma only_cands_upd_c f x y b : only_cands b (upd_c f x y b).
Proof. done. Qed.

Lemma only_cands_refl b : only_cands b b.
Proof. done. Qed.

Lemma elem_of_first_element (X : gset nat) v k : elements X = v :: k → v ∈ X.
Proof. intros E. apply elem_of_elements. rewrite E. left. Qed.

(** *** The newer file *)

Lemma advances_write_solution y b :
  advances (λ _, True) b (Final.write_solution y b).
Proof.
  unfold Final.write_solution. apply advances_for_each. intros x s.
  unfold Final.write_solution_body. case_bool_decide; [|apply advances_refl].
  destruct (elements (cand s x y)) as [|v k] eqn:E; [apply advances_refl|].
  apply (advances_place _ c_grid_write_solution_place m_grid_write_solution_place);
    [done | done | apply only_cands_upd_c | | by eapply elem_of_first_element].
  apply shrinks_upd_c, discard_subseteq.
Qed.

Lemma advances_disjoint_subsets iter_sets xr yr n b :
  advances (λ _, True) b (Final.disjoint_subsets iter_sets xr yr n b).
Proof.
  apply advances_shrinks; [done| |].
  - apply only_cands_disjoint_subsets.
  - apply shrinks_disjoint_subsets.
Qed.

Lemma advances_final_step iter_sets b b' :
  final_step iter_sets b b' → advances (λ _, True) b b'.
Proof.
  intros [y s|xr yr n s].
  - apply advances_write_solution.
  - apply advances_disjoint_subsets.
Qed.

(** *** The older file: the sets of placed values follow the grid *)

(** The set of a unit (the squares that satisfy [U]) after the placement of
    [v] at the blank square [(x, y)]. *)
Lemma unit_exact_place (U : nat → nat → Prop)
    (S S' : gset nat) (m m' : nat → nat → nat) v x y :
  U x y ∨ ¬ U x y →
  (∀ w, w ≠ 0 →
     w ∈ S ↔ ∃ x' y', x' < grid_l ∧ y' < grid_l ∧ U x' y' ∧ m x' y' = w) →
  (∀ x' y', m' x' y' = if decide ((x', y') = (x, y)) then v else m x' y') →
  v ≠ 0 → m x y = 0 → x < grid_l → y < grid_l →
  (U x y → S' = {[v]} ∪ S) → (¬ U x y → S' = S) →
  ∀ w, w ≠ 0 →
    w ∈ S' ↔ ∃ x' y', x' < grid_l ∧ y' < grid_l ∧ U x' y' ∧ m' x' y' = w.
Proof.
  intros [HU|HU] HS Hm' Hv Hm Hx Hy Hin Hout w Hw.
  - rewrite (Hin HU), elem_of_union, elem_of_singleton, (HS w Hw). split.
    + intros [->|(x' & y' & Hx' & Hy' & HU' & Hmw)].
      * exists x, y. rewrite Hm', decide_True by done. done.
      * exists x', y'. rewrite Hm', decide_False; [done|].
        intros [= -> ->]. congruence.
    + intros (x' & y' & Hx' & Hy' & HU' & Hmw). rewrite Hm' in Hmw.
      case_decide; [by left|]. right. by exists x', y'.
  - rewrite (Hout HU), (HS w Hw). split.
    + intros (x' & y' & Hx' & Hy' & HU' & Hmw).
      exists x', y'. rewrite Hm', decide_False; [done|]. intros [= -> ->]. done.
    + intros (x' & y' & Hx' & Hy' & HU' & Hmw).
      exists x', y'. rewrite Hm' in Hmw. case_decide as Hq; [|done].
      injection Hq as -> ->. done.
Qed.

Lemma sget_alter f i (l : list (gset nat)) k :
  i < length l →
  sget (alter f i l) k = if decide (k = i) then f (sget l i) else sget l k.
Proof.
  intros Hi. unfold sget. case_decide as Hk.
  - subst k. rewrite list_lookup_alter_eq.
    destruct (lookup_lt_is_Some_2 l i Hi) as [s ->]. done.
  - by rewrite list_lookup_alter_ne.
Qed.

Lemma gget_gupd_some {A} (d : A) f x y g i j :
  is_Some (g !! x ≫= λ col, col !! y) →
  gget d (gupd f x y g) i j
  = if decide ((i, j) = (x, y)) then f (gget d g x y) else gget d g i j.
Proof.
  intros [a Ha]. case_decide as Hq.
  - injection Hq as -> ->. rewrite gget_gupd_eq. unfold gget. by rewrite Ha.
  - rewrite gget_gupd_ne; [done|congruence].
Qed.

Lemma sets_exact_only_cands s s' : only_cands s s' → sets_exact s → sets_exact s'.
Proof.
  intros Ho [Ha He]. split; [|by apply (placed_sets_exact_only_cands s)].
  by apply (sets_allocated_only_cands s).
Qed.

Lemma sets_kept_only_cands P s s' :
  only_cands s s' → sets_kept P s → sets_kept P s'.
Proof.
  intros Ho [He Hz]. split; [by apply (sets_exact_only_cands s)|].
  intros HP. apply (zero_free_only_cands s); [done | by apply Hz].
Qed.

Lemma sets_of_pencil_in v x y b :
  col_set (Old.pencil_in v x y b) = alter (λ s, {[v]} ∪ s) x (col_set b)
  ∧ row_set (Old.pencil_in v x y b) = alter (λ s, {[v]} ∪ s) y (row_set b)
  ∧ s_grid_set (Old.pencil_in v x y b)
    = gupd (λ s, {[v]} ∪ s) (x / sub_l) (y / sub_h) (s_grid_set b).
Proof. by rewrite pencil_in_board. Qed.

Lemma sets_exact_pencil_in v x y b :
  sound b → placeable v x y b → sets_exact b → sets_exact (Old.pencil_in v x y b).
Proof.
  intros (Hd & _) (Hx & Hy & Hv & Hm & _) [(Hlc & Hlr & Hls) (Hrow & Hcol & Hsub)].
  assert (∀ x' y', mval (Old.pencil_in v x y b) x' y'
                   = if decide ((x', y') = (x, y)) then v else mval b x' y')
    as Hmval by (intros; by apply (mval_place _ m_grid_pencil_in)).
  assert (x / sub_l < sub_h ∧ y / sub_h < sub_l) as [Hi Hj].
  { unfold sub_l, sub_h, grid_l in *.
    split; apply Nat.Div0.div_lt_upper_bound; lia. }
  destruct (sets_of_pencil_in v x y b) as (Ec & Er & Es).
  set (b' := Old.pencil_in v x y b) in *. split.
  - unfold sets_allocated. rewrite Ec, Er, Es.
    rewrite !length_alter. split; [done|]. split; [done|]. intros i j Hi' Hj'.
    rewrite gupd_gmap2, lookup2_gmap2. apply fmap_is_Some. by apply Hls.
  - unfold placed_sets_exact. rewrite Ec, Er, Es. split; [|split].
    + intros y' w Hy' Hw. rewrite sget_alter by lia.
      transitivity (∃ x1 y1, x1 < grid_l ∧ y1 < grid_l ∧ y1 = y'
                             ∧ mval b' x1 y1 = w); [|naive_solver].
      apply (unit_exact_place (λ _ y1, y1 = y') (sget (row_set b) y') _
               (mval b) _ v x y); try done; try lia.
      * intros w' Hw'. rewrite Hrow by done. naive_solver.
      * intros ->. by rewrite decide_True.
      * intros Hne. rewrite decide_False; [done|congruence].
    + intros x' w Hx' Hw. rewrite sget_alter by lia.
      transitivity (∃ x1 y1, x1 < grid_l ∧ y1 < grid_l ∧ x1 = x'
                             ∧ mval b' x1 y1 = w); [|naive_solver].
      apply (unit_exact_place (λ x1 _, x1 = x') (sget (col_set b) x') _
               (mval b) _ v x y); try done; try lia.
      * intros w' Hw'. rewrite Hcol by done. naive_solver.
      * intros ->. by rewrite decide_True.
      * intros Hne. rewrite decide_False; [done|congruence].
    + intros i j w Hi' Hj' Hw. rewrite gget_gupd_some by by apply Hls.
      transitivity (∃ x1 y1, x1 < grid_l ∧ y1 < grid_l
                             ∧ (x1 / sub_l = i ∧ y1 / sub_h = j)
                             ∧ mval b' x1 y1 = w).
      2:{ split; intros (x1 & y1 & Hrest); exists x1, y1; tauto. }
      apply (unit_exact_place (λ x1 y1, x1 / sub_l = i ∧ y1 / sub_h = j)
               (gget ∅ (s_grid_set b) i j) _ (mval b) _ v x y);
        try done; try lia.
      * intros w' Hw'. rewrite Hsub by done.
        split; intros (x1 & y1 & Hrest); exists x1, y1; tauto.
      * intros [<- <-]. by rewrite decide_True.
      * intros Hne. rewrite decide_False; [done|]. intros [= -> ->]. by apply Hne.
Qed.

(** A placement adds the value placed, which is not 0, to three sets. *)
Lemma zero_free_pencil_in v x y b :
  v ≠ 0 → sets_allocated b → zero_free b → zero_free (Old.pencil_in v x y b).
Proof.
  intros Hv (Hlc & Hlr & Hls) (Hrow & Hcol & Hsub).
  destruct (sets_of_pencil_in v x y b) as (Ec & Er & Es).
  unfold zero_free. rewrite Ec, Er, Es. split; [|split].
  - intros y' Hy'. destruct (decide (y < grid_l)) as [Hy|Hy].
    + rewrite sget_alter by lia. case_decide as Hq.
      * subst y'. specialize (Hrow y Hy). set_solver.
      * by apply Hrow.
    + unfold sget. rewrite list_lookup_alter_ne by lia. by apply Hrow.
  - intros x' Hx'. destruct (decide (x < grid_l)) as [Hx|Hx].
    + rewrite sget_alter by lia. case_decide as Hq.
      * subst x'. specialize (Hcol x Hx). set_solver.
      * by apply Hcol.
    + unfold sget. rewrite list_lookup_alter_ne by lia. by apply Hcol.
  - intros i j Hi Hj.
    destruct (decide ((i, j) = (x / sub_l, y / sub_h))) as [[= -> ->]|Hq].
    + rewrite gget_gupd_some by by apply Hls. rewrite decide_True by done.
      specialize (Hsub _ _ Hi Hj). set_solver.
    + rewrite gget_gupd_ne by done. by apply Hsub.
Qed.

Lemma sets_kept_pencil_in P v x y b :
  sound b → placeable v x y b → sets_kept P b → sets_kept P (Old.pencil_in v x y b).
Proof.
  intros Hs Hp [He Hz]. split; [by apply sets_exact_pencil_in|].
  intros HP. destruct Hp as (_ & _ & Hv & _). destruct He as [Ha _].
  apply zero_free_pencil_in; [lia | done | by apply Hz].
Qed.

Lemma advances_pencil_in P v x y b b1 :
  only_cands b b1 → shrinks b b1 → v ∈ cand b x y →
  advances (sets_kept P) b (Old.pencil_in v x y b1).
Proof.
  apply (advances_place _ c_grid_pencil_in m_grid_pencil_in).
  - apply sets_kept_only_cands.
  - apply sets_kept_pencil_in.
Qed.

Lemma advances_single_candidate_square P y b :
  advances (sets_kept P) b (Old.single_candidate_square y b).
Proof.
  unfold Old.single_candidate_square. apply advances_for_each. intros x s.
  case_bool_decide; [|apply advances_refl].
  destruct (elements (cand s x y)) as [|v k] eqn:E; [apply advances_refl|].
  apply (advances_pencil_in P v x y s);
    [apply only_cands_upd_c| |by eapply elem_of_first_element].
  apply shrinks_upd_c, discard_subseteq.
Qed.

Lemma advances_hidden_single_step {I} P (cell : I → nat * nat) (l : list I) w b :
  advances (sets_kept P) b (hidden_single_step cell l w b).
Proof.
  unfold hidden_single_step.
  destruct (holders cell l w b) as [|i [|j k]] eqn:E;
    [apply advances_refl | | apply advances_refl].
  apply (advances_pencil_in P w (cell i).1 (cell i).2 b b);
    [apply only_cands_refl | apply shrinks_refl |].
  assert (i ∈ holders cell l w b) as Hi by (rewrite E; left).
  unfold holders in Hi. by apply list_elem_of_filter in Hi as [Hi _].
Qed.

Lemma advances_old_step P iter_nat iter_sets b b' :
  old_step iter_nat iter_sets b b' → advances (sets_kept P) b b'.
Proof.
  intros [y s|y s|x s|sx sy s|sx sy s|sx sy s|y n s|x n s|sx sy n s].
  - apply advances_single_candidate_square.
  - rewrite single_sq_candidate_row_eq. apply advances_for_each. intros w s'.
    apply advances_hidden_single_step.
  - rewrite single_sq_candidate_col_eq. apply advances_for_each. intros w s'.
    apply advances_hidden_single_step.
  - rewrite single_sq_candidate_subgrid_eq. apply advances_for_each. intros w s'.
    apply advances_hidden_single_step.
  - apply advances_shrinks; [apply sets_kept_only_cands| |].
    + apply only_cands_number_claiming_row.
    + apply shrinks_number_claiming_row.
  - apply advances_shrinks; [apply sets_kept_only_cands| |].
    + apply only_cands_number_claiming_col.
    + apply shrinks_number_claiming_col.
  - apply advances_shrinks; [apply sets_kept_only_cands| |].
    + apply only_cands_disjoint_subsets_row.
    + apply shrinks_disjoint_subsets_row.
  - apply advances_shrinks; [apply sets_kept_only_cands| |].
    + apply only_cands_disjoint_subsets_col.
    + apply shrinks_disjoint_subsets_col.
  - apply advances_shrinks; [apply sets_kept_only_cands| |].
    + apply only_cands_disjoint_subsets_subgrid.
    + apply shrinks_disjoint_subsets_subgrid.
Qed.

Lemma advances_rtc (step : board → board → Prop) extra b b' :
  (∀ s s', step s s' → advances extra s s') → rtc step b b' → advances extra b b'.
Proof.
  intros Hstep. induction 1 as [|s1 s2 s3 H12 _ IH]; [apply advances_refl|].
  eapply advances_trans; [by apply Hstep | done].
Qed.

(** *** The state [init] leaves *)

Lemma mval_out_of_range b x y :
  dims (m_grid b) → ¬ (x < grid_l ∧ y < grid_l) → mval b x y = 0.
Proof.
  intros [Hlen Hcols] Hout. unfold mval, gget.
  destruct (m_grid b !! x) as [col|] eqn:Ex; [|done]. simpl.
  destruct (col !! y) as [a|] eqn:Ey; [|done].
  apply lookup_lt_Some in Ey. rewrite (Hcols x col Ex) in Ey.
  apply lookup_lt_Some in Ex. rewrite Hlen in Ex. tauto.
Qed.

Lemma cand_out_of_range b x y :
  dims (c_grid b) → ¬ (x < grid_l ∧ y < grid_l) → cand b x y = ∅.
Proof.
  intros [Hlen Hcols] Hout. unfold cand, gget.
  destruct (c_grid b !! x) as [col|] eqn:Ex; [|done]. simpl.
  destruct (col !! y) as [a|] eqn:Ey; [|done].
  apply lookup_lt_Some in Ey. rewrite (Hcols x col Ex) in Ey.
  apply lookup_lt_Some in Ex. rewrite Hlen in Ex. tauto.
Qed.

Lemma sound_init puzzle b :
  init puzzle = Done b → sound b ∧ sets_kept (plain_zeros puzzle) b.
Proof.
  intros Hinit. destruct (allocated_init puzzle b Hinit) as (Hdm & Hdc & Hsets).
  split.
  2:{ split; [split; [done | by eapply placed_sets_exact_init]|].
      by apply zero_free_init. }
  split; [done|]. split; [|split].
  - intros x y. destruct (decide (x < grid_l ∧ y < grid_l)) as [[Hx Hy]|Hout].
    + rewrite (mval_init puzzle b x y Hinit Hx Hy). apply digit_le.
    + rewrite mval_out_of_range by done. lia.
  - by eapply filled_no_cand_init.
  - intros x y v Hv.
    destruct (decide (x < grid_l ∧ y < grid_l)) as [[Hx Hy]|Hout].
    + apply (cand_init puzzle b x y v Hinit Hx Hy) in Hv as (_ & Hr & Hsees).
      done.
    + rewrite cand_out_of_range in Hv by done. set_solver.
Qed.

(** *** The drivers make runs *)

Lemma run_trans (step : board → board → Prop) b1 b2 b3 :
  rtc step b1 b2 → rtc step b2 b3 → rtc step b1 b3.
Proof. intros H12 H23. by etrans. Qed.

Lemma run_for_each {I} (step : board → board → Prop) (body : I → board → board)
    l b :
  (∀ i s, rtc step s (body i s)) → rtc step b (for_each l body b).
Proof.
  intros Hbody. apply (for_each_rel (rtc step)).
  - intros s. apply rtc_refl.
  - intros s1 s2 s3. apply run_trans.
  - intros i s _. apply Hbody.
Qed.

Lemma run_for_each_from {I} (step : board → board → Prop)
    (body : I → board → board) l b s :
  rtc step b s → (∀ i s', rtc step s' (body i s')) →
  rtc step b (for_each l body s).
Proof. intros Hs Hbody. eapply run_trans; [done | by apply run_for_each]. Qed.

Lemma final_round_run iter_sets b :
  rtc (final_step iter_sets) b (Final.round iter_sets b).
Proof.
  unfold Final.round, Final.iterator. cbv zeta.
  apply run_for_each_from.
  - apply run_for_each. intros y s. apply rtc_once, step_write_solution.
  - intros n s. apply run_for_each_from.
    + apply run_for_each. intros sq s'.
      eapply run_trans; apply rtc_once, step_disjoint_subsets.
    + intros sy s'. apply run_for_each. intros sx s''.
      apply rtc_once, step_disjoint_subsets.
Qed.

Lemma old_round_run iter_nat iter_sets b :
  rtc (old_step iter_nat iter_sets) b (Old.round iter_nat iter_sets b).
Proof.
  assert (∀ f s0 s, rtc (old_step iter_nat iter_sets) s0 s →
            (∀ i s', old_step iter_nat iter_sets s' (f i s')) →
            rtc (old_step iter_nat iter_sets) s0 (Old.iter_over_line f s))
    as Hline.
  { intros f s0 s Hs Hf. apply run_for_each_from; [done|].
    intros. by apply rtc_once. }
  assert (∀ f s0 s, rtc (old_step iter_nat iter_sets) s0 s →
            (∀ i j s', old_step iter_nat iter_sets s' (f i j s')) →
            rtc (old_step iter_nat iter_sets) s0 (Old.iter_over_subgrids f s))
    as Hsub.
  { intros f s0 s Hs Hf. apply run_for_each_from; [done|].
    intros. apply run_for_each. intros. by apply rtc_once. }
  unfold Old.round. cbv zeta. apply run_for_each_from.
  - apply Hsub; [|intros; apply step_number_claiming_col].
    apply Hsub; [|intros; apply step_number_claiming_row].
    apply Hsub; [|intros; apply step_single_sq_candidate_subgrid].
    apply Hline; [|intros; apply step_single_sq_candidate_col].
    apply Hline; [|intros; apply step_single_sq_candidate_row].
    apply Hline; [|intros; apply step_single_candidate_square].
    apply rtc_refl.
  - intros n s. apply Hsub; [|intros; apply step_disjoint_subsets_subgrid].
    apply Hline; [|intros; apply step_disjoint_subsets_col].
    apply Hline; [|intros; apply step_disjoint_subsets_row].
    apply rtc_refl.
Qed.

Lemma iter_run (step : board → board → Prop) (round : board → board) j b :
  (∀ s, rtc step s (round s)) → rtc step b (Nat.iter j round b).
Proof.
  intros Hround. induction j as [|j IH]; [apply rtc_refl|].
  cbn [Nat.iter]. eapply run_trans; [apply IH | apply Hround].
Qed.

Lemma rounds_until_run (step : board → board → Prop) round is_solved k b :
  (∀ s, rtc step s (round s)) → rtc step b (rounds_until round is_solved k b).2.
Proof.
  intros Hround.
  destruct (rounds_until_spec round is_solved k b) as (j & _ & -> & _).
  by apply iter_run.
Qed.

Lemma rounds_until_solved round is_solved k b b' :
  rounds_until round is_solved k b = (Solved, b') → is_solved b' = true.
Proof.
  revert b. induction k as [|k IH]; intros b; [done|]. cbn [rounds_until].
  destruct (is_solved (round b)) eqn:E; [|apply IH]. by intros [= <-].
Qed.

(** *** What every state of a run satisfies *)

Lemma no_duplicateb_true b : no_duplicateb b = true → no_duplicate b.
Proof.
  unfold no_duplicateb. rewrite forallb_forall. intros Hall x y x' y' Hx Hy Hx' Hy'.
  assert ((x, y) ∈ cells (0, grid_l) (0, grid_l)) as Hp
    by (apply elem_of_cells; simpl; lia).
  assert ((x', y') ∈ cells (0, grid_l) (0, grid_l)) as Hq
    by (apply elem_of_cells; simpl; lia).
  apply list_elem_of_In, Hall in Hp. rewrite forallb_forall in Hp.
  apply list_elem_of_In, Hp in Hq. by apply bool_decide_eq_true_1 in Hq.
Qed.

Lemma final_run_advances iter_sets puzzle b0 b :
  init puzzle = Done b0 → rtc (final_step iter_sets) b0 b →
  sound b ∧ keeps_filled b0 b ∧ (no_duplicate b0 → no_duplicate b).
Proof.
  intros [Hs _]%sound_init Hrun.
  destruct (advances_rtc _ (λ _, True) b0 b (advances_final_step iter_sets) Hrun Hs I)
    as (? & _ & ? & ?).
  done.
Qed.

Lemma plain_zerosb_true puzzle : plain_zerosb puzzle = true → plain_zeros puzzle.
Proof.
  unfold plain_zerosb. rewrite forallb_forall. intros Hall x y ch Hx Hy Hch Hv.
  assert ((x, y) ∈ cells (0, grid_l) (0, grid_l)) as Hp
    by (apply elem_of_cells; simpl; lia).
  apply list_elem_of_In, Hall in Hp. cbn [fst snd] in Hp. rewrite Hch in Hp.
  by apply bool_decide_eq_true_1 in Hp; apply Hp.
Qed.

Lemma old_run_advances iter_nat iter_sets puzzle b0 b :
  init puzzle = Done b0 → rtc (old_step iter_nat iter_sets) b0 b →
  sound b ∧ sets_kept (plain_zeros puzzle) b ∧ keeps_filled b0 b
  ∧ (no_duplicate b0 → no_duplicate b).
Proof.
  intros [Hs He]%sound_init Hrun.
  by apply (advances_rtc _ (sets_kept (plain_zeros puzzle)) b0 b
              (advances_old_step (plain_zeros puzzle) iter_nat iter_sets)).
Qed.

Lemma run_keeps_filled (step : board → board → Prop) extra b1 b2 :
  (∀ s s', step s s' → advances extra s s') →
  sound b1 → extra b1 → rtc step b1 b2 → keeps_filled b1 b2.
Proof.
  intros Hstep Hs He Hrun.
  by destruct (advances_rtc step extra b1 b2 Hstep Hrun Hs He) as (_ & _ & ? & _).
Qed.

(** X13. Once a square is filled, by the puzzle or by a technique, no later
    call of a technique changes its value, in either file. *)
Theorem filled_squares_kept
  (iter_nat : gset nat → list nat) (iter_sets : gset (gset nat) → list (gset nat))
  (puzzle : text) (b0 b1 b2 : board) (x y : nat) :
  init puzzle = Done b0 →
  (rtc (final_step iter_sets) b0 b1 ∧ rtc (final_step iter_sets) b1 b2)
  ∨ (rtc (old_step iter_nat iter_sets) b0 b1
     ∧ rtc (old_step iter_nat iter_sets) b1 b2) →
  mval b1 x y ≠ 0 → mval b2 x y = mval b1 x y.
Proof.
  intros Hinit [[H01 H12]|[H01 H12]].
  - destruct (final_run_advances iter_sets puzzle b0 b1 Hinit H01) as (Hs & _).
    by apply (run_keeps_filled _ (λ _, True) b1 b2 (advances_final_step iter_sets)).
  - destruct (old_run_advances iter_nat iter_sets puzzle b0 b1 Hinit H01)
      as (Hs & He & _).
    by apply (run_keeps_filled _ (sets_kept (plain_zeros puzzle)) b1 b2
                (advances_old_step (plain_zeros puzzle) iter_nat iter_sets)).
Qed.

Lemma filled_squares_kept_witness :
  mval (Final.write_solution 0 one_blank_board) 1 0
  = mval one_blank_board 1 0.
Proof.
  apply (filled_squares_kept elements elements one_blank one_blank_board
           one_blank_board (Final.write_solution 0 one_blank_board) 1 0).
  - vm_compute. reflexivity.
  - left. split; [apply rtc_refl | apply rtc_once, step_write_solution].
  - vm_compute. discriminate.
Defined.

(** X14. When the puzzle has no value twice in a row, a column or a
    sub-grid, no state that the techniques of either file reach has one. *)
Theorem no_duplicate_kept
  (iter_nat : gset nat → list nat) (iter_sets : gset (gset nat) → list (gset nat))
  (puzzle : text) (b0 b : board) :
  init puzzle = Done b0 → no_duplicate b0 →
  rtc (final_step iter_sets) b0 b ∨ rtc (old_step iter_nat iter_sets) b0 b →
  no_duplicate b.
Proof.
  intros Hinit Hdup [Hrun|Hrun].
  - destruct (final_run_advances iter_sets puzzle b0 b Hinit Hrun) as (_ & _ & Hd).
    by apply Hd.
  - destruct (old_run_advances iter_nat iter_sets puzzle b0 b Hinit Hrun)
      as (_ & _ & _ & Hd).
    by apply Hd.
Qed.

Lemma no_duplicate_kept_witness :
  no_duplicate (Old.single_candidate_square 0 one_blank_board).
Proof.
  apply (no_duplicate_kept elements elements one_blank one_blank_board).
  - vm_compute. reflexivity.
  - apply no_duplicateb_true. vm_compute. reflexivity.
  - right. apply rtc_once, step_single_candidate_square.
Defined.

(** X15. In every state that the techniques of either file reach from the
    state [init] leaves, a filled square has no candidate, and a candidate
    of a square is a value from 1 to 9 that no square of its row, of its
    column or of its sub-grid holds. *)
Theorem candidates_stay_sound
  (iter_nat : gset nat → list nat) (iter_sets : gset (gset nat) → list (gset nat))
  (puzzle : text) (b0 b : board) :
  init puzzle = Done b0 →
  rtc (final_step iter_sets) b0 b ∨ rtc (old_step iter_nat iter_sets) b0 b →
  filled_no_cand b ∧ cand_sound b.
Proof.
  intros Hinit [Hrun|Hrun].
  - destruct (final_run_advances iter_sets puzzle b0 b Hinit Hrun)
      as ((_ & _ & Hf & Hc) & _).
    by split.
  - destruct (old_run_advances iter_nat iter_sets puzzle b0 b Hinit Hrun)
      as ((_ & _ & Hf & Hc) & _).
    by split.
Qed.

Lemma candidates_stay_sound_witness :
  filled_no_cand (Final.disjoint_subsets elements (0, 9) (0, 1) 2 crossed_board)
  ∧ cand_sound (Final.disjoint_subsets elements (0, 9) (0, 1) 2 crossed_board).
Proof.
  apply (candidates_stay_sound elements elements crossed_pairs crossed_board).
  - vm_compute. reflexivity.
  - left. apply rtc_once, step_disjoint_subsets.
Defined.

(** X16. The older file keeps its sets of placed values up to date: in
    every state its techniques reach, a value other than 0 is in
    [row_set[y]], in [col_set[x]] or in [sub_grid_set[i][j]] exactly when a
    square of the row, of the column or of the sub-grid holds it.  And no
    set holds 0 when the blank squares of the puzzle text are written with
    the character [0]; the digit zero of another script is added to the
    sets by [init], and nothing removes it. *)
Theorem old_placed_sets_exact
  (iter_nat : gset nat → list nat) (iter_sets : gset (gset nat) → list (gset nat))
  (puzzle : text) (b0 b : board) :
  init puzzle = Done b0 → rtc (old_step iter_nat iter_sets) b0 b →
  placed_sets_exact b ∧ (plain_zeros puzzle → zero_free b).
Proof.
  intros Hinit Hrun.
  destruct (old_run_advances iter_nat iter_sets puzzle b0 b Hinit Hrun)
    as (_ & [[_ He] Hz] & _).
  by split.
Qed.

Lemma old_placed_sets_exact_witness :
  placed_sets_exact (Old.single_candidate_square 0 one_blank_board)
  ∧ zero_free (Old.single_candidate_square 0 one_blank_board).
Proof.
  destruct (old_placed_sets_exact elements elements one_blank one_blank_board
              (Old.single_candidate_square 0 one_blank_board)) as [He Hz].
  - vm_compute. reflexivity.
  - apply rtc_once, step_single_candidate_square.
  - split; [exact He|]. apply Hz, plain_zerosb_true. vm_compute. reflexivity.
Defined.

(** The text [wide_zeros] shows what the digit zero of another script does
    to the sets: after [init] the set of the first row holds 0, and so it
    does after a call of a technique. *)
Lemma wide_zeros_in_sets :
  0 ∈ sget (row_set (state_of (init wide_zeros))) 0
  ∧ 0 ∈ sget (row_set (Old.single_candidate_square 0 (state_of (init wide_zeros)))) 0.
Proof. split; by_decision. Qed.

(** *** When the older file says solved *)

Lemma size_list_to_set_le (l : list nat) :
  size (list_to_set l : gset nat) ≤ length l.
Proof.
  induction l as [|a l IH]; [by rewrite list_to_set_nil, size_empty|].
  rewrite list_to_set_cons, size_union_alt, size_singleton. cbn [length].
  pose proof (subseteq_size (C := gset nat) (list_to_set l ∖ {[a]})
                (list_to_set l)) as Hle.
  assert (size (list_to_set l ∖ {[a]} : gset nat) ≤ size (list_to_set l : gset nat))
    as Hsz by (apply Hle; set_solver).
  lia.
Qed.

Lemma others_length x0 :
  x0 < grid_l → length (filter (λ x, x ≠ x0) (range 0 grid_l)) = 8.
Proof. intros Hx. below_nine x0 Hx ltac:(vm_compute; reflexivity). Qed.

Lemma size_full_set : size full_set = 9.
Proof. vm_compute. reflexivity. Qed.

(** A row whose set of placed values has nine members, none of them 0,
    holds every value from 1 to 9 and has no blank square. *)
Lemma row_complete b y :
  sound b → placed_sets_exact b → y < grid_l → 0 ∉ sget (row_set b) y →
  size (sget (row_set b) y) = 9 →
  (∀ x, x < grid_l → mval b x y ≠ 0)
  ∧ ∀ v, 1 ≤ v ≤ 9 → ∃ x, x < grid_l ∧ mval b x y = v.
Proof.
  intros (_ & Hdig & _) (Hrow & _) Hy Hzero Hsize.
  assert (∀ w, w ∈ sget (row_set b) y → w ≠ 0 ∧ ∃ x, x < grid_l ∧ mval b x y = w)
    as Hmem.
  { intros w Hw. assert (w ≠ 0) as Hnz by (intros ->; done).
    split; [done|]. by apply Hrow. }
  assert (sget (row_set b) y = full_set) as Hfull.
  { apply (set_subseteq_size_eq (C := gset nat)).
    - intros w Hw. apply Hmem in Hw as (Hw & x & Hx & <-).
      apply elem_of_full_set. pose proof (Hdig x y). lia.
    - rewrite size_full_set. lia. }
  split.
  - intros x0 Hx0 Hblank.
    pose proof (subseteq_size (C := gset nat) (sget (row_set b) y)
                  (list_to_set ((λ x, mval b x y)
                                  <$> filter (λ x, x ≠ x0) (range 0 grid_l))))
      as Hle.
    pose proof (size_list_to_set_le
                  ((λ x, mval b x y) <$> filter (λ x, x ≠ x0) (range 0 grid_l)))
      as Hle'.
    rewrite length_fmap, others_length in Hle' by done.
    assert (size (sget (row_set b) y) ≤ 8); [|lia].
    etrans; [apply Hle | exact Hle'].
    intros w Hw. apply Hmem in Hw as (Hw & x & Hx & <-).
    apply elem_of_list_to_set, list_elem_of_fmap. exists x. split; [done|].
    apply list_elem_of_filter. split; [congruence|]. apply elem_of_range. lia.
  - intros v Hv. assert (v ∈ sget (row_set b) y) as Hin.
    { rewrite Hfull. by apply elem_of_full_set. }
    apply Hmem in Hin as (_ & x & Hx & Hm). by exists x.
Qed.

(** A full row without a value twice: its set of placed values, when it
    does not hold 0, has nine members. *)
Lemma row_full_size b y :
  placed_sets_exact b → no_duplicate b → y < grid_l → 0 ∉ sget (row_set b) y →
  (∀ x, x < grid_l → mval b x y ≠ 0) → size (sget (row_set b) y) = 9.
Proof.
  intros (Hrow & _) Hdup Hy Hzero Hfull.
  assert (sget (row_set b) y
          = list_to_set ((λ x, mval b x y) <$> range 0 grid_l)) as ->.
  { apply set_eq. intros w.
    rewrite elem_of_list_to_set, list_elem_of_fmap. split.
    - intros Hw. assert (w ≠ 0) as Hnz by (intros ->; done).
      apply Hrow in Hw as (x & Hx & <-); [|done|done].
      exists x. split; [done|]. apply elem_of_range. lia.
    - intros (x & -> & Hx%elem_of_range). apply Hrow; [done| |].
      + apply Hfull. lia.
      + exists x. split; [lia | done]. }
  rewrite size_list_to_set; [by rewrite length_fmap|].
  apply NoDup_fmap_2_strong; [|apply NoDup_range].
  intros x x' Hx%elem_of_range Hx'%elem_of_range Heq.
  destruct (decide (x = x')) as [|Hne]; [done|]. exfalso.
  refine (Hdup x y x' y _ _ _ _ _ _ _ _);
    [lia | lia | lia | lia | right; by left | congruence | apply Hfull; lia
    | done].
Qed.

(** X17. Let the blank squares of the puzzle text be written with the
    character [0].  In a state that the techniques of the older file reach,
    [is_solved()] holds only when no square of the grid is blank and every
    row holds each value from 1 to 9; and when the puzzle has no value
    twice in a row, a column or a sub-grid, it holds as soon as no square
    is blank. *)
Theorem old_is_solved_complete
  (iter_nat : gset nat → list nat) (iter_sets : gset (gset nat) → list (gset nat))
  (puzzle : text) (b0 b : board) :
  init puzzle = Done b0 → plain_zeros puzzle →
  rtc (old_step iter_nat iter_sets) b0 b →
  (Old.is_solved b = true →
   (∀ x y, x < grid_l → y < grid_l → 1 ≤ mval b x y ≤ 9)
   ∧ ∀ y v, y < grid_l → 1 ≤ v ≤ 9 → ∃ x, x < grid_l ∧ mval b x y = v)
  ∧ (no_duplicate b0 →
     (∀ x y, x < grid_l → y < grid_l → mval b x y ≠ 0) →
     Old.is_solved b = true).
Proof.
  intros Hinit Hplain Hrun.
  destruct (old_run_advances iter_nat iter_sets puzzle b0 b Hinit Hrun)
    as (Hs & [[_ He] Hz] & _ & Hd).
  destruct (Hz Hplain) as (Hzero & _).
  split.
  - intros Hsolved. rewrite old_is_solved_iff in Hsolved. split.
    + intros x y Hx Hy.
      destruct (row_complete b y Hs He Hy (Hzero y Hy) (Hsolved y Hy))
        as [Hnz _].
      destruct Hs as (_ & Hdig & _). pose proof (Hdig x y).
      pose proof (Hnz x Hx). lia.
    + intros y v Hy Hv.
      by destruct (row_complete b y Hs He Hy (Hzero y Hy) (Hsolved y Hy))
        as [_ Hall]; apply Hall.
  - intros Hdup Hfull. apply old_is_solved_iff. intros y Hy.
    apply row_full_size; [done | by apply Hd | done | by apply Hzero |].
    intros x Hx. by apply Hfull.
Qed.

Lemma old_is_solved_complete_witness :
  (∀ x y, x < grid_l → y < grid_l →
     1 ≤ mval (Old.single_candidate_square 0 one_blank_board) x y ≤ 9)
  ∧ ∀ y v, y < grid_l → 1 ≤ v ≤ 9 →
      ∃ x, x < grid_l ∧ mval (Old.single_candidate_square 0 one_blank_board) x y = v.
Proof.
  apply (proj1 (old_is_solved_complete elements elements one_blank one_blank_board
                  (Old.single_candidate_square 0 one_blank_board)
                  ltac:(vm_compute; reflexivity)
                  ltac:(apply plain_zerosb_true; vm_compute; reflexivity)
                  ltac:(apply rtc_once, step_single_candidate_square))).
  vm_compute. reflexivity.
Defined.

(** The hypothesis on the zeros is needed: in the state [init] leaves of
    the text [wide_zeros], whose two blank squares are written with the
    digit zero of another script, every row's set has nine members and
    [is_solved()] holds; the driver prints the grid at once, with its two
    blank squares. *)
Lemma wide_zeros_solved_with_blanks :
  Old.is_solved (state_of (init wide_zeros)) = true
  ∧ Old.solve elements elements (state_of (init wide_zeros))
    = (Solved, state_of (init wide_zeros))
  ∧ mval (state_of (init wide_zeros)) 0 0 = 0
  ∧ mval (state_of (init wide_zeros)) 1 8 = 0.
Proof. by_computation. Qed.

(** X18. Let the blank squares of the puzzle text be written with the
    character [0].  When the puzzle has no value twice in a row, a column
    or a sub-grid and the driver of the older file ends with the grid
    printed, that grid is a solution of the puzzle: every square holds a
    value from 1 to 9, no row, column or sub-grid holds a value twice, and
    the filled squares of the puzzle are as they were. *)
Theorem old_solve_valid
  (iter_nat : gset nat → list nat) (iter_sets : gset (gset nat) → list (gset nat))
  (puzzle : text) (b0 b : board) :
  init puzzle = Done b0 → plain_zeros puzzle → no_duplicate b0 →
  Old.solve iter_nat iter_sets b0 = (Solved, b) →
  (∀ x y, x < grid_l → y < grid_l → 1 ≤ mval b x y ≤ 9)
  ∧ no_duplicate b
  ∧ ∀ x y, mval b0 x y ≠ 0 → mval b x y = mval b0 x y.
Proof.
  intros Hinit Hplain Hdup Hsolve.
  assert (rtc (old_step iter_nat iter_sets) b0 b) as Hrun.
  { replace b with (Old.solve iter_nat iter_sets b0).2 by by rewrite Hsolve.
    apply rounds_until_run, old_round_run. }
  assert (Old.is_solved b = true) as Hsolved
    by by eapply rounds_until_solved.
  destruct (old_run_advances iter_nat iter_sets puzzle b0 b Hinit Hrun)
    as (Hs & [[_ He] Hz] & Hk & Hd).
  destruct (Hz Hplain) as (Hzero & _).
  split; [|split; [by apply Hd | exact Hk]].
  rewrite old_is_solved_iff in Hsolved. intros x y Hx Hy.
  destruct (row_complete b y Hs He Hy (Hzero y Hy) (Hsolved y Hy)) as [Hnz _].
  destruct Hs as (_ & Hdig & _). pose proof (Hdig x y). pose proof (Hnz x Hx). lia.
Qed.

Lemma old_solve_valid_witness :
  (∀ x y, x < grid_l → y < grid_l →
     1 ≤ mval (Old.solve elements elements one_blank_board).2 x y ≤ 9)
  ∧ no_duplicate (Old.solve elements elements one_blank_board).2
  ∧ ∀ x y, mval one_blank_board x y ≠ 0 →
      mval (Old.solve elements elements one_blank_board).2 x y
      = mval one_blank_board x y.
Proof.
  apply (old_solve_valid elements elements one_blank one_blank_board).
  - vm_compute. reflexivity.
  - apply plain_zerosb_true. vm_compute. reflexivity.
  - apply no_duplicateb_true. vm_compute. reflexivity.
  - vm_compute. reflexivity.
Defined.

(** X19. Whatever way the driver of the newer file ends, the state it
    leaves has the filled squares of the puzzle as they were, only sound
    candidates, and no value twice in a row, a column or a sub-grid unless
    the puzzle had one. *)
Theorem final_main_loop_safe
  (iter_sets : gset (gset nat) → list (gset nat))
  (puzzle : text) (b0 : board) :
  init puzzle = Done b0 →
  (∀ x y, mval b0 x y ≠ 0 →
     mval (Final.main_loop iter_sets b0).2 x y = mval b0 x y)
  ∧ cand_sound (Final.main_loop iter_sets b0).2
  ∧ (no_duplicate b0 → no_duplicate (Final.main_loop iter_sets b0).2).
Proof.
  intros Hinit.
  assert (rtc (final_step iter_sets) b0 (Final.main_loop iter_sets b0).2) as Hrun.
  { apply rounds_until_run, final_round_run. }
  destruct (final_run_advances iter_sets puzzle b0 _ Hinit Hrun)
    as ((_ & _ & _ & Hc) & Hk & Hd).
  split; [exact Hk|]. split; [exact Hc | exact Hd].
Qed.

Lemma final_main_loop_safe_witness :
  (∀ x y, mval crossed_board x y ≠ 0 →
     mval (Final.main_loop elements crossed_board).2 x y = mval crossed_board x y)
  ∧ cand_sound (Final.main_loop elements crossed_board).2
  ∧ (no_duplicate crossed_board →
     no_duplicate (Final.main_loop elements crossed_board).2).
Proof.
  apply (final_main_loop_safe elements crossed_pairs). vm_compute. reflexivity.
Defined.

(** ** The disjoint subsets that are found *)

Lemma combinations_fmap {A B} (f : A → B) n (l : list A) :
  combinations n (f <$> l) = (λ k : list A, f <$> k) <$> combinations n l.
Proof.
  revert n. induction l as [|a l IH]; intros [|n]; try done.
  rewrite fmap_cons. cbn [combinations].
  rewrite !IH, fmap_app, <- !list_fmap_compose. done.
Qed.

Lemma combinations_sublist {A} n (k l : list A) :
  k ∈ combinations n l → k `sublist_of` l ∧ length k = n.
Proof.
  revert n k. induction l as [|a l IH]; intros [|n] k Hk.
  - apply list_elem_of_singleton in Hk as ->. done.
  - by apply not_elem_of_nil in Hk.
  - apply list_elem_of_singleton in Hk as ->. split; [apply sublist_nil_l | done].
  - cbn [combinations] in Hk. apply elem_of_app in Hk as [Hk|Hk].
    + apply list_elem_of_fmap in Hk as (k' & -> & Hk').
      destruct (IH n k' Hk') as [Hsub Hlen].
      split; [by apply sublist_skip | by rewrite length_cons, Hlen].
    + destruct (IH (S n) k Hk) as [Hsub Hlen].
      split; [by apply sublist_cons | done].
Qed.

(** X20. The disjoint subsets [disjoint_subsets] finds in a unit are
    exactly the sets of [n] values that are all the candidates of [n]
    distinct squares of the unit, each with more than one and at most [n]
    candidates. *)
Theorem d_subsets_exact (b : board) (xr yr : nat * nat) (n : nat) (D : gset nat) :
  D ∈ Final.d_subsets xr yr n b
  ↔ ∃ ps, NoDup ps ∧ length ps = n
          ∧ (∀ p, p ∈ ps → p ∈ cells xr yr ∧ small n b p)
          ∧ ⋃ ((λ p, cand b p.1 p.2) <$> ps) = D ∧ size D = n.
Proof.
  split.
  - unfold Final.d_subsets. rewrite elem_of_get_disjoint_subsets, small_sets_eq.
    intros (k & Hk & HD & Hsize). rewrite combinations_fmap in Hk.
    apply list_elem_of_fmap in Hk as (ps & -> & Hps).
    apply combinations_sublist in Hps as [Hsub Hlen].
    exists ps. split_and!; [|done| |done|done].
    + apply (sublist_NoDup _ (filter (small n b) (cells xr yr))); [|done].
      apply NoDup_filter, NoDup_cells.
    + intros p Hp. pose proof (elem_of_sublist _ _ _ Hp Hsub) as Hin.
      apply list_elem_of_filter in Hin as [Hsmall Hcell]. done.
  - intros (ps & Hnd & Hlen & Hps & <- & Hsize). by apply d_subsets_found.
Qed.

(** ** The printed grid *)

Lemma pretty_digit d :
  d ≤ 9 → pretty d = String (ascii_of_nat (48 + d)) EmptyString.
Proof.
  intros Hd. do 10 (destruct d as [|d]; [vm_compute; reflexivity|]). lia.
Qed.

Lemma int_of_char_digit_char d :
  d ≤ 9 → int_of_char (N_of_ascii (ascii_of_nat (48 + d))) = Some d.
Proof.
  intros Hd. do 10 (destruct d as [|d]; [vm_compute; reflexivity|]). lia.
Qed.

Section Layout.
Variable c : nat → nat → ascii.

Lemma layout_final x y :
  x < grid_l → y < grid_l →
  String.get (13 * y + y / 3 + x + x / 3)
    (for_each (range 0 grid_l)
       (λ y out,
          let out :=
            for_each (range 0 grid_l)
              (λ x out,
                 let out := out +:+ String (c x y) EmptyString in
                 if bool_decide (x mod sub_l = sub_l - 1) then out +:+ " " else out)
              out in
          let out := out +:+ newline in
          if bool_decide (y mod sub_h = sub_h - 1) then out +:+ newline else out)
       EmptyString)
  = Some (c x y).
Proof using Type.
  intros Hx Hy.
  below_nine y Hy ltac:(below_nine x Hx ltac:(vm_compute; reflexivity)).
Qed.

Lemma layout_old x y :
  x < 9 → y < 9 →
  String.get (13 * y + x + x / 3)
    (for_each (range 0 9)
       (λ y out,
          let out :=
            for_each (range 0 9)
              (λ x out,
                 let out := out +:+ String (c x y) EmptyString in
                 if bool_decide (x mod 3 = 2) then out +:+ " " else out)
              out in
          out +:+ newline)
       EmptyString)
  = Some (c x y).
Proof using Type.
  intros Hx Hy.
  below_nine y Hy ltac:(below_nine x Hx ltac:(vm_compute; reflexivity)).
Qed.

End Layout.

(** X21. The text [print_m_grid] writes for a grid of digits has the value
    of the square [(x, y)] as the character at place [x + x // 3] of the
    line of row [y], which starts at [13 * y + y // 3] (a space follows
    every third value, an empty line every third row); [print_main_grid]
    of the older file writes the same lines without the empty ones.  The
    character is the one [int] reads back as the value. *)
Theorem printed_grid_layout (b : board) (x y : nat) :
  dims (m_grid b) → (∀ x y, x < grid_l → y < grid_l → mval b x y ≤ 9) →
  x < grid_l → y < grid_l →
  (∃ ch, String.get (13 * y + y / 3 + x + x / 3) (print_m_grid b) = Some ch
         ∧ int_of_char (N_of_ascii ch) = Some (mval b x y))
  ∧ (∃ ch, String.get (13 * y + x + x / 3) (print_main_grid b) = Some ch
           ∧ int_of_char (N_of_ascii ch) = Some (mval b x y)).
Proof.
  intros _ Hdig Hx Hy.
  assert (∀ sep y' out, y' ∈ range 0 grid_l →
            for_each (range 0 grid_l)
              (λ x out,
                 let out := out +:+ pretty (mval b x y') in
                 if bool_decide (x mod 3 = sep) then out +:+ " " else out) out
            = for_each (range 0 grid_l)
                (λ x out,
                   let out :=
                     out +:+ String (ascii_of_nat (48 + mval b x y')) EmptyString in
                   if bool_decide (x mod 3 = sep) then out +:+ " " else out) out)
    as Hrow.
  { intros sep y' out Hy'. apply for_each_ext. intros x' out' Hx'.
    apply elem_of_range in Hx', Hy'. cbv zeta.
    rewrite pretty_digit by (apply Hdig; lia). done. }
  split.
  - exists (ascii_of_nat (48 + mval b x y)).
    split; [|by apply int_of_char_digit_char, Hdig].
    rewrite <- (layout_final (λ x y, ascii_of_nat (48 + mval b x y)) x y Hx Hy).
    f_equal. unfold print_m_grid. apply for_each_ext. intros y' out Hy'.
    cbv zeta. unfold sub_l. change (3 - 1) with 2. by rewrite Hrow.
  - exists (ascii_of_nat (48 + mval b x y)).
    split; [|by apply int_of_char_digit_char, Hdig].
    rewrite <- (layout_old (λ x y, ascii_of_nat (48 + mval b x y)) x y Hx Hy).
    f_equal. unfold print_main_grid. apply for_each_ext. intros y' out Hy'.
    cbv zeta. change 9 with grid_l. by rewrite Hrow.
Qed.

Lemma printed_grid_layout_witness :
  (∃ ch, String.get (13 * 4 + 4 / 3 + 7 + 7 / 3) (print_m_grid one_blank_board)
         = Some ch
         ∧ int_of_char (N_of_ascii ch) = Some (mval one_blank_board 7 4))
  ∧ (∃ ch, String.get (13 * 4 + 7 + 7 / 3) (print_main_grid one_blank_board)
           = Some ch
           ∧ int_of_char (N_of_ascii ch) = Some (mval one_blank_board 7 4)).
Proof.
  apply (printed_grid_layout one_blank_board 7 4).
  - by_decision.
  - intros x y Hx Hy.
    below_nine x Hx ltac:(below_nine y Hy ltac:(vm_compute; lia)).
  - unfold grid_l. lia.
  - unfold grid_l. lia.
Defined.
